(** * logid IPC layer: typed values, interfaces and the D-Bus server

    A shallow embedding of [src/logid/ipc]: the [IPCVariant] value type with
    its [TypeInfo] signatures, the [IPCInterface] bundle of properties and
    signals, the [IPCServer] registry with its GDBus callbacks, and the
    translation between [IPCVariant] and [GVariant].

    C++ exceptions are the [Throw] outcome of a small error monad.  What C++
    leaves undefined, and what GLib reports as a failed precondition, is the
    [Fault] outcome, so that it is never confused with a thrown exception. *)

From Stdlib Require Import ZArith String Ascii List Bool Lia.
From Stdlib Require Import Floats.SpecFloat.
From stdpp Require Import gmap strings.

Import ListNotations.
Local Open Scope string_scope.

(** ** Outcomes of a call *)

Inductive exception : Type :=
| InvalidType (what : string)        (* IPCVariant::InvalidType *)
| runtime_error (what : string)      (* std::runtime_error *)
| invalid_argument (what : string).  (* std::invalid_argument *)

Inductive fault : Type :=
| OutOfFuel            (* the bound of a modelled loop was too small *)
| AssertionFailed      (* assert(...) *)
| NullDereference      (* *p on an empty shared_ptr *)
| OutOfBounds          (* v[i] past the end *)
| UninitializedRead    (* an object that was never written is read *)
| UndefinedConversion  (* a double outside the range of uint64_t *)
| ReinterpretedObject  (* an object read through a reference to another type *)
| GLibCritical.        (* g_return_val_if_fail *)

Inductive outcome (A : Type) : Type :=
| Ok (a : A)
| Throw (e : exception)
| Fault (f : fault).

Arguments Ok {A} a.
Arguments Throw {A} e.
Arguments Fault {A} f.

Definition bind {A B : Type} (m : outcome A) (k : A -> outcome B) : outcome B :=
  match m with
  | Ok a => k a
  | Throw e => Throw e
  | Fault f => Fault f
  end.

Notation "x <- m ;; k" := (bind m (fun x => k))
  (at level 100, m at next level, right associativity).

(** [throw InvalidType()] and [throw InvalidType(type_signature)]. *)
Definition InvalidType0 : exception := InvalidType "Invalid type".
Definition InvalidType1 (type_signature : string) : exception :=
  InvalidType ("Invalid type " ++ type_signature).

Definition raises_InvalidType {A : Type} (o : outcome A) : Prop :=
  exists what, o = Throw (InvalidType what).

Definition returns {A : Type} (o : outcome A) : Prop :=
  exists a, o = Ok a.

(** ** std::string as used by the signature parser *)

Definition size (s : string) : nat := String.length s.

(** [s[i]]; [s[s.size()]] is the terminating NUL. *)
Definition str_at (s : string) (i : nat) : ascii :=
  match String.get i s with
  | Some c => c
  | None => Ascii.zero
  end.

(** [s.back()] of a non-empty string. *)
Definition back (s : string) : ascii := str_at s (size s - 1).

(** [s.substr(pos, n)] for [pos <= s.size()]; the count is clipped. *)
Definition substr (s : string) (pos n : nat) : string := String.substring pos n s.

(** [s.substr(pos)]. *)
Definition substr_from (s : string) (pos : nat) : string :=
  String.substring pos (size s - pos) s.

(** [s.find(c) != std::string::npos]. *)
Fixpoint str_contains (s : string) (c : ascii) : bool :=
  match s with
  | EmptyString => false
  | String c' s' => Ascii.eqb c' c || str_contains s' c
  end.

Fixpoint str_forallb (p : ascii -> bool) (s : string) : bool :=
  match s with
  | EmptyString => true
  | String c s' => p c && str_forallb p s'
  end.

(** [std::string(1, c)]. *)
Definition string1 (c : ascii) : string := String c EmptyString.

Definition SINGLE_TYPES : string := "nqiuxtdysgob".
Definition SPECIAL_TYPES : string := "a({".
Definition ALL_TYPES : string := SINGLE_TYPES ++ SPECIAL_TYPES.
Definition VALID_CHARS : string := ALL_TYPES ++ ")}".

(** ** IPCVariant::TypeInfo *)

Module Ty.
(** [enum Type : char]. *)
Inductive Type_ : Set :=
| Int16 | UInt16 | Int32 | UInt32 | Int64 | UInt64 | Double | Byte
| String | Signature | ObjectPath | Boolean
| Array | Struct | Dict | None.

Definition to_char (t : Type_) : ascii :=
  match t with
  | Int16 => "n" | UInt16 => "q" | Int32 => "i" | UInt32 => "u"
  | Int64 => "x" | UInt64 => "t" | Double => "d" | Byte => "y"
  | String => "s" | Signature => "g" | ObjectPath => "o" | Boolean => "b"
  | Array => "a" | Struct => "(" | Dict => "{" | None => "0"
  end%char.

Definition all : list Type_ :=
  [Int16; UInt16; Int32; UInt32; Int64; UInt64; Double; Byte;
   String; Signature; ObjectPath; Boolean; Array; Struct; Dict; None].

(** [static_cast<Type>(c)] for a character of ALL_TYPES. *)
Definition of_char (c : ascii) : option Type_ :=
  List.find (fun t => Ascii.eqb (to_char t) c) all.

Definition eqb (a b : Type_) : bool := Ascii.eqb (to_char a) (to_char b).
End Ty.

#[warnings="-register-all"]
Inductive TypeInfo : Type := mkTypeInfo {
  ti_type : Ty.Type_;                   (* _type *)
  ti_type_signature : string;           (* _type_signature *)
  ti_struct_types : list TypeInfo;      (* _struct_types *)
  ti_array_type : option TypeInfo;      (* _array_type *)
  ti_dict_key : option TypeInfo;        (* _dict_key *)
  ti_dict_value : option TypeInfo       (* _dict_value *)
}.

(** A TypeInfo with only its kind and signature set. *)
Definition TypeInfo_plain (t : Ty.Type_) (sig : string) : TypeInfo :=
  mkTypeInfo t sig [] None None None.

(** [TypeInfo::TypeInfo()]. *)
Definition TypeInfo_default : TypeInfo :=
  TypeInfo_plain Ty.None (string1 (Ty.to_char Ty.None)).

(** [TypeInfo::TypeInfo(char type_signature)]. *)
Definition TypeInfo_of_char (type_signature : ascii) : outcome TypeInfo :=
  if str_contains SINGLE_TYPES type_signature then
    match Ty.of_char type_signature with
    | Some t => Ok (TypeInfo_plain t (string1 type_signature))
    | None => Fault AssertionFailed
    end
  else Throw (InvalidType1 (string1 type_signature)).

(** [TypeInfo::TypeInfo(Type t)]. *)
Definition TypeInfo_of_Type (t : Ty.Type_) : outcome TypeInfo :=
  match t with
  | Ty.None | Ty.Array | Ty.Struct | Ty.Dict => Throw InvalidType0
  | _ => Ok (TypeInfo_plain t (string1 (Ty.to_char t)))
  end.

Definition primaryType (t : TypeInfo) : Ty.Type_ := ti_type t.
Definition typeSignature (t : TypeInfo) : string := ti_type_signature t.

(** [TypeInfo::operator==] and [operator!=]: the signatures are compared,
    nothing else. *)
Definition TypeInfo_eqb (a other : TypeInfo) : bool :=
  String.eqb (typeSignature other) (typeSignature a).
Definition TypeInfo_neqb (a other : TypeInfo) : bool :=
  negb (String.eqb (typeSignature other) (typeSignature a)).

Definition arrayType (t : TypeInfo) : outcome TypeInfo :=
  if negb (Ty.eqb (ti_type t) Ty.Array) then Throw InvalidType0
  else match ti_array_type t with
       | Some a => Ok a
       | None => Fault NullDereference
       end.

Definition structFormat (t : TypeInfo) : outcome (list TypeInfo) :=
  if negb (Ty.eqb (ti_type t) Ty.Struct) then Throw InvalidType0
  else Ok (ti_struct_types t).

Definition dictType (t : TypeInfo) : outcome (TypeInfo * TypeInfo) :=
  if negb (Ty.eqb (ti_type t) Ty.Dict) then Throw InvalidType0
  else match ti_dict_key t, ti_dict_value t with
       | Some k, Some v => Ok (k, v)
       | _, _ => Fault NullDereference
       end.

(** *** TypeInfo::getSpecialEnd *)

(** The counting loop of [getSpecialEnd]:
    [for(end = ...; end < size; end++) { ...; if(!end_count) break; }].
    The result is the final [end] and [end_count]. *)
Fixpoint getSpecialEnd_loop (n : nat) (type_signature : string)
    (open c : ascii) (end_ : nat) (end_count : Z) : outcome (nat * Z) :=
  if (size type_signature <=? end_)%nat then Ok (end_, end_count)
  else match n with
       | O => Fault OutOfFuel
       | S n' =>
           let end_count' :=
             if Ascii.eqb (str_at type_signature end_) open then (end_count + 1)%Z
             else if Ascii.eqb (str_at type_signature end_) c then (end_count - 1)%Z
             else end_count in
           if (end_count' =? 0)%Z then Ok (end_, end_count')
           else getSpecialEnd_loop n' type_signature open c (S end_) end_count'
       end.

Fixpoint getSpecialEnd_rec (n : nat) (type_signature : string) (start : nat)
    : outcome nat :=
  match n with
  | O => Fault OutOfFuel
  | S n' =>
      if negb (start <? size type_signature - 1)%nat then Fault AssertionFailed
      else if negb (str_contains SPECIAL_TYPES (str_at type_signature start))
      then Fault AssertionFailed
      else if Ascii.eqb (str_at type_signature start) (Ty.to_char Ty.Array) then
        if str_contains SINGLE_TYPES (str_at type_signature (start + 1)) then
          Ok (start + 1)
        else if str_contains SPECIAL_TYPES (str_at type_signature (start + 1)) then
          if (size type_signature - 2 <=? start)%nat
          then Throw (InvalidType1 type_signature)
          else getSpecialEnd_rec n' type_signature (start + 1)
        else Throw (InvalidType1 type_signature)
      else
        let c := if Ascii.eqb (str_at type_signature start) "{" then "}"%char
                 else ")"%char in
        r <- getSpecialEnd_loop (size type_signature) type_signature
               (str_at type_signature start) c (start + 1) 1 ;;
        if negb (snd r =? 0)%Z then Throw (InvalidType1 type_signature)
        else Ok (fst r)
  end.

Definition getSpecialEnd (type_signature : string) (start : nat) : outcome nat :=
  getSpecialEnd_rec (size type_signature) type_signature start.

(** *** TypeInfo::TypeInfo(std::string type_signature) *)

(** The loop over the fields of a struct signature, from index [i]. *)
Fixpoint struct_loop (parse : string -> outcome TypeInfo) (n : nat)
    (type_signature : string) (i : nat) (_struct_types : list TypeInfo)
    : outcome (list TypeInfo) :=
  if (size type_signature - 1 <=? i)%nat then Ok _struct_types
  else match n with
       | O => Fault OutOfFuel
       | S n' =>
           let ch := str_at type_signature i in
           if str_contains SINGLE_TYPES ch then
             t <- TypeInfo_of_char ch ;;
             struct_loop parse n' type_signature (S i) (_struct_types ++ [t])%list
           else if str_contains SPECIAL_TYPES ch then
             end_ <- getSpecialEnd type_signature i ;;
             if (size type_signature - 1 <=? end_)%nat
             then Throw (InvalidType1 type_signature)
             else
               t <- parse (substr type_signature i (end_ - i + 1)) ;;
               struct_loop parse n' type_signature (S end_) (_struct_types ++ [t])%list
           else Throw (InvalidType1 type_signature)
       end.

Definition parse_dict (parse : string -> outcome TypeInfo)
    (type_signature : string) : outcome TypeInfo :=
  if negb (Ascii.eqb (back type_signature) "}") then
    Throw (InvalidType1 type_signature)
  else
    kv <- (if str_contains SINGLE_TYPES (str_at type_signature 1) then
             k <- parse (substr type_signature 1 1) ;;
             Ok (k, 2)
           else if str_contains SPECIAL_TYPES (str_at type_signature 1) then
             key_end <- getSpecialEnd type_signature 1 ;;
             if (size type_signature - 1 <=? key_end)%nat
             then Throw (InvalidType1 type_signature)
             else
               k <- parse (substr type_signature 1 key_end) ;;
               Ok (k, key_end + 1)
           else Throw (InvalidType1 type_signature)) ;;
    let _dict_key := fst kv in
    let value_start := snd kv in
    if (size type_signature <=? value_start)%nat then
      Throw (InvalidType1 type_signature)
    else if str_contains SINGLE_TYPES (str_at type_signature value_start) then
      v <- parse (substr type_signature value_start 1) ;;
      Ok (mkTypeInfo Ty.Dict type_signature [] None (Some _dict_key) (Some v))
    else if str_contains SPECIAL_TYPES (str_at type_signature value_start) then
      value_end <- getSpecialEnd type_signature value_start ;;
      if negb (value_end =? size type_signature - 2)%nat
      then Throw (InvalidType1 type_signature)
      else
        v <- parse (substr type_signature value_start (value_end - value_start + 1)) ;;
        Ok (mkTypeInfo Ty.Dict type_signature [] None (Some _dict_key) (Some v))
    else Throw (InvalidType1 type_signature).

Fixpoint TypeInfo_parse (fuel : nat) (type_signature : string)
    : outcome TypeInfo :=
  match fuel with
  | O => Fault OutOfFuel
  | S fuel' =>
      if (size type_signature =? 0)%nat then Throw InvalidType0
      else if negb (str_forallb (str_contains VALID_CHARS) type_signature)
      then Throw (InvalidType1 type_signature)
      else if str_contains SINGLE_TYPES (str_at type_signature 0) then
        if negb (size type_signature =? 1)%nat
        then Throw (InvalidType1 type_signature)
        else match Ty.of_char (str_at type_signature 0) with
             | Some t => Ok (TypeInfo_plain t type_signature)
             | None => Fault AssertionFailed
             end
      else if negb (str_contains SPECIAL_TYPES (str_at type_signature 0))
      then Throw (InvalidType1 type_signature)
      else if (size type_signature =? 1)%nat
      then Throw (InvalidType1 type_signature)
      else
        match Ty.of_char (str_at type_signature 0) with
        | Some Ty.Array =>
            a <- TypeInfo_parse fuel' (substr_from type_signature 1) ;;
            Ok (mkTypeInfo Ty.Array type_signature [] (Some a) None None)
        | Some Ty.Struct =>
            if negb (Ascii.eqb (back type_signature) ")")
            then Throw (InvalidType1 type_signature)
            else
              fields <- struct_loop (TypeInfo_parse fuel') (size type_signature)
                          type_signature 1 [] ;;
              Ok (mkTypeInfo Ty.Struct type_signature fields None None None)
        | Some Ty.Dict => parse_dict (TypeInfo_parse fuel') type_signature
        | _ => Fault AssertionFailed
        end
  end.

(** The constructor: every nested signature is strictly shorter, so the
    length of the text bounds the nesting. *)
Definition TypeInfo_of_string (type_signature : string) : outcome TypeInfo :=
  TypeInfo_parse (S (size type_signature)) type_signature.

(** ** Scalar representations *)

(** [(uintN_t)z] and [(intN_t)z]: the value modulo 2^w, read unsigned or in
    two's complement. *)
Definition uint_cast (w z : Z) : Z := (z mod 2 ^ w)%Z.
Definition sint_cast (w z : Z) : Z :=
  (let m := z mod 2 ^ w in if m <? 2 ^ (w - 1) then m else m - 2 ^ w)%Z.

Definition int16_t : Z -> Z := sint_cast 16.
Definition uint16_t : Z -> Z := uint_cast 16.
Definition int32_t : Z -> Z := sint_cast 32.
Definition uint32_t : Z -> Z := uint_cast 32.
Definition int64_t : Z -> Z := sint_cast 64.
Definition uint64_t : Z -> Z := uint_cast 64.
Definition uint8_t : Z -> Z := uint_cast 8.

(** IEEE 754 binary64. *)
Definition double : Type := spec_float.

(** [(double)z] for an integer [z], rounded to nearest even. *)
Definition double_of_Z (z : Z) : double := binary_normalize 53 1024 z 0 false.

(** The integral part of a double, rounded toward zero. *)
Definition trunc_double (d : double) : option Z :=
  match d with
  | S754_zero _ => Some 0%Z
  | S754_finite s m e =>
      let a := match e with
               | Z0 => Zpos m
               | Zpos _ => (Zpos m * 2 ^ e)%Z
               | Zneg p => (Zpos m / 2 ^ Zpos p)%Z
               end in
      Some (if s then (- a)%Z else a)
  | S754_infinity _ | S754_nan => None
  end.

(** [(uint64_t)d]. *)
Definition uint64_of_double (d : double) : outcome Z :=
  match trunc_double d with
  | Some z => if ((0 <=? z) && (z <? 2 ^ 64))%Z then Ok z
              else Fault UndefinedConversion
  | None => Fault UndefinedConversion
  end.

(** ** IPCVariant *)

#[warnings="-register-all"]
Inductive IPCVariant : Type := mkIPCVariant {
  _array : list IPCVariant;                  (* also used for structs *)
  _dict : list (IPCVariant * IPCVariant);    (* IPCVariantDict, in iteration order *)
  _num_data : Z;                             (* uint64_t *)
  _string_data : string;
  _type : TypeInfo
}.

Definition IPCVariantDict : Type := list (IPCVariant * IPCVariant).

Definition type (v : IPCVariant) : TypeInfo := _type v.

(** [IPCVariant::IPCVariant()].  [_num_data] has no initializer in the
    source; no accessor reads it unless the kind is numeric. *)
Definition IPCVariant_default : IPCVariant :=
  mkIPCVariant [] [] 0 "" TypeInfo_default.

(** The constructors generated by [NUM_DATA(x, t)]:
    [_num_data (data), _type (TypeInfo::t)]. *)
Definition NUM_DATA (data : Z) (t : Ty.Type_) : outcome IPCVariant :=
  ty <- TypeInfo_of_Type t ;;
  Ok (mkIPCVariant [] [] (uint64_t data) "" ty).

Definition IPCVariant_int16 (data : Z) := NUM_DATA (int16_t data) Ty.Int16.
Definition IPCVariant_uint16 (data : Z) := NUM_DATA (uint16_t data) Ty.UInt16.
(* NUM_DATA(int32_t, Int16) *)
Definition IPCVariant_int32 (data : Z) := NUM_DATA (int32_t data) Ty.Int16.
Definition IPCVariant_uint32 (data : Z) := NUM_DATA (uint32_t data) Ty.UInt32.
Definition IPCVariant_int64 (data : Z) := NUM_DATA (int64_t data) Ty.Int64.
Definition IPCVariant_uint64 (data : Z) := NUM_DATA (uint64_t data) Ty.UInt64.
Definition IPCVariant_double (data : double) :=
  n <- uint64_of_double data ;; NUM_DATA n Ty.Double.
Definition IPCVariant_uint8 (data : Z) := NUM_DATA (uint8_t data) Ty.Byte.
Definition IPCVariant_bool (data : bool) :=
  NUM_DATA (if data then 1 else 0)%Z Ty.Boolean.

Definition is_string_kind (t : Ty.Type_) : bool :=
  Ty.eqb t Ty.String || Ty.eqb t Ty.Signature || Ty.eqb t Ty.ObjectPath.

(** [IPCVariant(std::string data, TypeInfo::Type type)]. *)
Definition IPCVariant_string (data : string) (t : Ty.Type_) : outcome IPCVariant :=
  ty <- TypeInfo_of_Type t ;;
  if negb (is_string_kind t) then Throw InvalidType0
  else Ok (mkIPCVariant [] [] 0 data ty).

(** The loop [for(i...) if(array[i].type() != struct_format[i]) throw]. *)
Fixpoint check_struct_fields (array : list IPCVariant) (format : list TypeInfo)
    : outcome unit :=
  match array, format with
  | [], _ => Ok tt
  | v :: array', f :: format' =>
      if TypeInfo_neqb (type v) f then Throw InvalidType0
      else check_struct_fields array' format'
  | _ :: _, [] => Fault OutOfBounds
  end.

(** The loop [for(auto& i : array) if(i.type() != _type.arrayType()) throw]. *)
Fixpoint check_array_elements (array : list IPCVariant) (t : TypeInfo)
    : outcome unit :=
  match array with
  | [] => Ok tt
  | v :: array' =>
      elem <- arrayType t ;;
      if TypeInfo_neqb (type v) elem then Throw InvalidType0
      else check_array_elements array' t
  end.

(** The validation shared by [IPCVariant(std::vector<IPCVariant>, const
    TypeInfo&)] and [operator=(const std::vector<IPCVariant>&)]. *)
Definition check_vector (array : list IPCVariant) (t : TypeInfo) : outcome unit :=
  if Ty.eqb (primaryType t) Ty.Array then check_array_elements array t
  else if Ty.eqb (primaryType t) Ty.Struct then
    format <- structFormat t ;;
    if negb (length array =? length format)%nat then Throw InvalidType0
    else check_struct_fields array format
  else Throw InvalidType0.

(** [IPCVariant(std::vector<IPCVariant> array, const TypeInfo& type)]. *)
Definition IPCVariant_vector (array : list IPCVariant) (t : TypeInfo)
    : outcome IPCVariant :=
  _ <- check_vector array t ;;
  Ok (mkIPCVariant array [] 0 "" t).

(** The loop over the entries of a dict, checking key and value types. *)
Fixpoint check_dict_entries (dict : IPCVariantDict) (key value : TypeInfo)
    : outcome unit :=
  match dict with
  | [] => Ok tt
  | (k, v) :: dict' =>
      if TypeInfo_neqb (type k) key then Throw InvalidType0
      else if TypeInfo_neqb (type v) value then Throw InvalidType0
      else check_dict_entries dict' key value
  end.

(** [IPCVariant(IPCVariantDict dict, const TypeInfo& type)]; [dictType()] is
    evaluated inside the loop. *)
Definition IPCVariant_dict (dict : IPCVariantDict) (t : TypeInfo)
    : outcome IPCVariant :=
  if negb (Ty.eqb (primaryType t) Ty.Dict) then Throw InvalidType0
  else match dict with
       | [] => Ok (mkIPCVariant [] dict 0 "" t)
       | _ :: _ =>
           kv <- dictType t ;;
           _ <- check_dict_entries dict (fst kv) (snd kv) ;;
           Ok (mkIPCVariant [] dict 0 "" t)
       end.

(** *** Typed accessors: [operator x() const] *)

Definition NUM_TYPE_get {A : Type} (t : Ty.Type_) (cast : Z -> A)
    (v : IPCVariant) : outcome A :=
  if negb (Ty.eqb (primaryType (_type v)) t) then Throw InvalidType0
  else Ok (cast (_num_data v)).

Definition as_int16 : IPCVariant -> outcome Z := NUM_TYPE_get Ty.Int16 int16_t.
Definition as_uint16 : IPCVariant -> outcome Z := NUM_TYPE_get Ty.UInt16 uint16_t.
Definition as_int32 : IPCVariant -> outcome Z := NUM_TYPE_get Ty.Int32 int32_t.
Definition as_uint32 : IPCVariant -> outcome Z := NUM_TYPE_get Ty.UInt32 uint32_t.
Definition as_int64 : IPCVariant -> outcome Z := NUM_TYPE_get Ty.Int64 int64_t.
Definition as_uint64 : IPCVariant -> outcome Z := NUM_TYPE_get Ty.UInt64 uint64_t.
Definition as_double : IPCVariant -> outcome double := NUM_TYPE_get Ty.Double double_of_Z.
Definition as_uint8 : IPCVariant -> outcome Z := NUM_TYPE_get Ty.Byte uint8_t.

(** [operator bool() const]: written out by hand in the source, and it
    returns [false] where the others throw. *)
Definition as_bool (v : IPCVariant) : outcome bool :=
  if negb (Ty.eqb (primaryType (_type v)) Ty.Boolean) then Ok false
  else Ok (negb (_num_data v =? 0)%Z).

(** [operator std::string() const]. *)
Definition as_string (v : IPCVariant) : outcome string :=
  if negb (is_string_kind (primaryType (_type v))) then Throw InvalidType0
  else Ok (_string_data v).

(** [explicit operator const std::vector<IPCVariant>&() const]. *)
Definition as_vector (v : IPCVariant) : outcome (list IPCVariant) :=
  if negb (Ty.eqb (primaryType (_type v)) Ty.Dict) then Throw InvalidType0
  else Ok (_array v).

(** [explicit operator IPCVariantDict() const]. *)
Definition as_dict (v : IPCVariant) : outcome IPCVariantDict :=
  if negb (Ty.eqb (primaryType (_type v)) Ty.Dict) then Throw InvalidType0
  else Ok (_dict v).

(** *** Typed assignment: [operator=(const x&)] *)

Definition set_num_data (v : IPCVariant) (n : Z) : IPCVariant :=
  mkIPCVariant (_array v) (_dict v) n (_string_data v) (_type v).

Definition NUM_TYPE_assign (t : Ty.Type_) (v : IPCVariant) (other : Z)
    : outcome IPCVariant :=
  if negb (Ty.eqb (primaryType (_type v)) t) then Throw InvalidType0
  else Ok (set_num_data v (uint64_t other)).

Definition assign_int16 v (other : Z) := NUM_TYPE_assign Ty.Int16 v (int16_t other).
Definition assign_uint16 v (other : Z) := NUM_TYPE_assign Ty.UInt16 v (uint16_t other).
Definition assign_int32 v (other : Z) := NUM_TYPE_assign Ty.Int32 v (int32_t other).
Definition assign_uint32 v (other : Z) := NUM_TYPE_assign Ty.UInt32 v (uint32_t other).
Definition assign_int64 v (other : Z) := NUM_TYPE_assign Ty.Int64 v (int64_t other).
Definition assign_uint64 v (other : Z) := NUM_TYPE_assign Ty.UInt64 v (uint64_t other).
Definition assign_uint8 v (other : Z) := NUM_TYPE_assign Ty.Byte v (uint8_t other).
Definition assign_bool v (other : bool) :=
  NUM_TYPE_assign Ty.Boolean v (if other then 1 else 0)%Z.
Definition assign_double (v : IPCVariant) (other : double) : outcome IPCVariant :=
  if negb (Ty.eqb (primaryType (_type v)) Ty.Double) then Throw InvalidType0
  else n <- uint64_of_double other ;; Ok (set_num_data v n).

Definition assign_string (v : IPCVariant) (other : string) : outcome IPCVariant :=
  if negb (is_string_kind (primaryType (_type v))) then Throw InvalidType0
  else Ok (mkIPCVariant (_array v) (_dict v) (_num_data v) other (_type v)).

(** The loop [for(const auto& i : other) if(i.type() != array_type) throw]. *)
Fixpoint check_elements_against (other : list IPCVariant) (array_type : TypeInfo)
    : outcome unit :=
  match other with
  | [] => Ok tt
  | i :: other' =>
      if TypeInfo_neqb (type i) array_type then Throw InvalidType0
      else check_elements_against other' array_type
  end.

(** [operator=(const std::vector<IPCVariant>& other)]; unlike the
    constructor it takes [arrayType()] before the loop. *)
Definition assign_vector (v : IPCVariant) (other : list IPCVariant)
    : outcome IPCVariant :=
  _ <- (if Ty.eqb (primaryType (_type v)) Ty.Array then
          array_type <- arrayType (_type v) ;;
          check_elements_against other array_type
        else if Ty.eqb (primaryType (_type v)) Ty.Struct then
          struct_format <- structFormat (_type v) ;;
          if negb (length other =? length struct_format)%nat then Throw InvalidType0
          else check_struct_fields other struct_format
        else Throw InvalidType0) ;;
  Ok (mkIPCVariant other (_dict v) (_num_data v) (_string_data v) (_type v)).

(** [operator=(const IPCVariantDict& other)]; [dictType()] is evaluated
    before the loop. *)
Definition assign_dict (v : IPCVariant) (other : IPCVariantDict)
    : outcome IPCVariant :=
  if negb (Ty.eqb (primaryType (_type v)) Ty.Dict) then Throw InvalidType0
  else
    dict_format <- dictType (_type v) ;;
    _ <- check_dict_entries other (fst dict_format) (snd dict_format) ;;
    Ok (mkIPCVariant (_array v) other (_num_data v) (_string_data v) (_type v)).

(** [TypeInfo::operator=(const TypeInfo&)], field by field. *)
Definition TypeInfo_assign (this other : TypeInfo) : TypeInfo :=
  let this := mkTypeInfo (ti_type other) (ti_type_signature this)
                (ti_struct_types this) (ti_array_type this)
                (ti_dict_key this) (ti_dict_value this) in
  let this := mkTypeInfo (ti_type this) (ti_type_signature other)
                (ti_struct_types this) (ti_array_type this)
                (ti_dict_key this) (ti_dict_value this) in
  let this := mkTypeInfo (ti_type this) (ti_type_signature this)
                (ti_struct_types this) (ti_array_type other)
                (ti_dict_key this) (ti_dict_value this) in
  let this := mkTypeInfo (ti_type this) (ti_type_signature this)
                (ti_struct_types this) (ti_array_type this)
                (ti_dict_key other) (ti_dict_value this) in
  let this := mkTypeInfo (ti_type this) (ti_type_signature this)
                (ti_struct_types this) (ti_array_type this)
                (ti_dict_key this) (ti_dict_value other) in
  mkTypeInfo (ti_type this) (ti_type_signature this)
    (ti_struct_types other) (ti_array_type this)
    (ti_dict_key this) (ti_dict_value this).

(** [IPCVariant::operator=(const IPCVariant& o)]: every member is copied,
    the type first; nothing is checked. *)
Definition IPCVariant_assign (this o : IPCVariant) : IPCVariant :=
  let this := mkIPCVariant (_array this) (_dict this) (_num_data this)
                (_string_data this) (TypeInfo_assign (_type this) (_type o)) in
  let this := mkIPCVariant (_array this) (_dict this) (_num_data o)
                (_string_data this) (_type this) in
  let this := mkIPCVariant (_array this) (_dict this) (_num_data this)
                (_string_data o) (_type this) in
  let this := mkIPCVariant (_array o) (_dict this) (_num_data this)
                (_string_data this) (_type this) in
  mkIPCVariant (_array this) (_dict o) (_num_data this)
    (_string_data this) (_type this).

(** *** IPCVariant::operator==(const IPCVariant&) *)

(** The casts to [int16_t], ..., [const std::vector<IPCVariant>&] of both
    operands go through the accessors above, so each case first repeats the
    accessor's own check of the kind.  [std::vector] compares the sizes and
    then the elements in order, stopping at the first difference.

    The cast to [const IPCVariantDict&] has no accessor to go through:
    [operator IPCVariantDict()] is explicit and returns by value, and a
    reference cannot be bound through it, so the C-style cast is a
    [reinterpret_cast] and the comparison reads both Variants as if they
    were maps. *)
Fixpoint IPCVariant_eqb (this other : IPCVariant) {struct this} : outcome bool :=
  if TypeInfo_neqb (_type this) (type other) then Ok false
  else
    match primaryType (_type this) with
    | Ty.Int16 => x <- as_int16 this ;; y <- as_int16 other ;; Ok (x =? y)%Z
    | Ty.UInt16 => x <- as_uint16 this ;; y <- as_uint16 other ;; Ok (x =? y)%Z
    | Ty.Int32 => x <- as_int32 this ;; y <- as_int32 other ;; Ok (x =? y)%Z
    | Ty.UInt32 => x <- as_uint32 this ;; y <- as_uint32 other ;; Ok (x =? y)%Z
    | Ty.Int64 => x <- as_int64 this ;; y <- as_int64 other ;; Ok (x =? y)%Z
    | Ty.UInt64 => x <- as_uint64 this ;; y <- as_uint64 other ;; Ok (x =? y)%Z
    | Ty.Double => x <- as_double this ;; y <- as_double other ;; Ok (SFeqb x y)
    | Ty.Byte => x <- as_uint8 this ;; y <- as_uint8 other ;; Ok (x =? y)%Z
    | Ty.String | Ty.Signature | Ty.ObjectPath =>
        x <- as_string this ;; y <- as_string other ;; Ok (String.eqb x y)
    | Ty.Boolean => x <- as_bool this ;; y <- as_bool other ;; Ok (Bool.eqb x y)
    | Ty.Array | Ty.Struct =>
        (* the accessor returns [_array]; the field is named here so that the
           recursion is visibly on a part of [this] *)
        _ <- as_vector this ;;
        ys <- as_vector other ;;
        if negb (length (_array this) =? length ys)%nat then Ok false
        else
          (fix equal (xs ys : list IPCVariant) {struct xs} : outcome bool :=
             match xs, ys with
             | x :: xs', y :: ys' =>
                 b <- IPCVariant_eqb x y ;;
                 if b then equal xs' ys' else Ok false
             | _, _ => Ok true
             end) (_array this) ys
    | Ty.Dict => Fault ReinterpretedObject
    | Ty.None => Ok true
    end.

(** [operator!=(const IPCVariant&)]. *)
Definition IPCVariant_neqb (this other : IPCVariant) : outcome bool :=
  b <- IPCVariant_eqb this other ;; Ok (negb b).

(** *** IPCVariantDict = std::map<IPCVariant, IPCVariant, std::equal_to<>>

    The map is given [std::equal_to<>] as its ordering, so [comp(a, b)] is
    [a == b], which is no ordering: the container's contract does not cover
    it, and what the map does is what the search tree of the library does
    with such answers.  A map is the sequence of its entries in iteration
    order.  The lower bound of a key is the first entry that is not ordered
    before it; a node that is hung below the last entry goes to its left
    when [comp(new, last)] holds, as [_M_insert_node] of libstdc++ decides.
    This is what the tree does on a map with at most one entry; a tree with
    more entries is not determined by their order alone, and nothing is
    stated about one. *)

Definition key_comp (a b : IPCVariant) : outcome bool := IPCVariant_eqb a b.

Fixpoint map_lower_bound (m : IPCVariantDict) (k : IPCVariant) (i : nat)
    : outcome nat :=
  match m with
  | [] => Ok i
  | (k', _) :: m' =>
      before <- key_comp k' k ;;
      if before then map_lower_bound m' k (S i) else Ok i
  end.

(** [m[k]]: the map afterwards and the position of the entry referred to. *)
Definition map_subscript (m : IPCVariantDict) (k : IPCVariant)
    : outcome (IPCVariantDict * nat) :=
  i <- map_lower_bound m k 0 ;;
  match nth_error m i with
  | None =>
      (* the lower bound is end(): the node is hung below the last entry *)
      match rev m with
      | [] => Ok ([(k, IPCVariant_default)], 0%nat)
      | (k', v') :: _ =>
          insert_left <- key_comp k k' ;;
          if insert_left
          then Ok ((removelast m ++ [(k, IPCVariant_default); (k', v')])%list,
                   (length m - 1)%nat)
          else Ok ((m ++ [(k, IPCVariant_default)])%list, length m)
      end
  | Some (k', _) =>
      before <- key_comp k k' ;;
      if before
      then Ok ((firstn i m ++ (k, IPCVariant_default) :: skipn i m)%list, i)
      else Ok (m, i)
  end.

(** [m.find(k)]: the position of the entry, [None] for [end()]. *)
Definition map_find (m : IPCVariantDict) (k : IPCVariant) : outcome (option nat) :=
  i <- map_lower_bound m k 0 ;;
  match nth_error m i with
  | None => Ok None
  | Some (k', _) =>
      before <- key_comp k k' ;;
      Ok (if before then None else Some i)
  end.

(** [m[k] = v]. *)
Definition map_store (m : IPCVariantDict) (k v : IPCVariant)
    : outcome IPCVariantDict :=
  r <- map_subscript m k ;;
  match nth_error (fst r) (snd r) with
  | Some (k', old) =>
      Ok (firstn (snd r) (fst r)
          ++ (k', IPCVariant_assign old v) :: skipn (S (snd r)) (fst r))%list
  | None => Fault OutOfBounds
  end.

(** *** Indexed access *)

Definition is_sequence_kind (t : Ty.Type_) : bool :=
  Ty.eqb t Ty.Array || Ty.eqb t Ty.Struct.

(** [const IPCVariant& operator[](const IPCVariant& key) const]. *)
Definition subscript_key_const (this key : IPCVariant) : outcome IPCVariant :=
  if negb (Ty.eqb (primaryType (_type this)) Ty.Dict) then Throw InvalidType0
  else
    it <- map_find (_dict this) key ;;
    match it with
    | Some i => match nth_error (_dict this) i with
                | Some (_, v) => Ok v
                | None => Fault OutOfBounds
                end
    | None => Fault OutOfBounds   (* end()->second *)
    end.

(** [const IPCVariant& operator[](std::size_t index) const], and the
    non-const overload, which differs only in the reference it returns. *)
Definition subscript_index (this : IPCVariant) (index : nat) : outcome IPCVariant :=
  if negb (is_sequence_kind (primaryType (_type this))) then Throw InvalidType0
  else match nth_error (_array this) index with
       | Some v => Ok v
       | None => Fault AssertionFailed
       end.

(** [IPCVariant& operator[](IPCVariant& key)]: [return _dict[key]].  The
    result is the Variant afterwards and the position in [_dict] of the
    entry the returned reference points to. *)
Definition subscript_key (this key : IPCVariant) : outcome (IPCVariant * nat) :=
  if negb (Ty.eqb (primaryType (_type this)) Ty.Dict) then Throw InvalidType0
  else
    r <- map_subscript (_dict this) key ;;
    Ok (mkIPCVariant (_array this) (fst r) (_num_data this)
          (_string_data this) (_type this), snd r).

(** ** The wire format: GVariant *)

(** The values of GLib's GVariant that the translator builds or takes
    apart, and one kind (a file-descriptor handle) that it does not know.
    An array carries its element type, which an empty array still has. *)
#[warnings="-register-all"]
Inductive GVariant : Type :=
| GV_int16 (z : Z)
| GV_uint16 (z : Z)
| GV_int32 (z : Z)
| GV_uint32 (z : Z)
| GV_int64 (z : Z)
| GV_uint64 (z : Z)
| GV_double (d : double)
| GV_byte (z : Z)
| GV_string (s : string)
| GV_signature (s : string)
| GV_object_path (s : string)
| GV_boolean (b : bool)
| GV_handle (z : Z)
| GV_array (child_type : string) (children : list GVariant)
| GV_tuple (children : list GVariant).

Fixpoint g_variant_get_type_string (v : GVariant) : string :=
  match v with
  | GV_int16 _ => "n" | GV_uint16 _ => "q" | GV_int32 _ => "i"
  | GV_uint32 _ => "u" | GV_int64 _ => "x" | GV_uint64 _ => "t"
  | GV_double _ => "d" | GV_byte _ => "y" | GV_string _ => "s"
  | GV_signature _ => "g" | GV_object_path _ => "o" | GV_boolean _ => "b"
  | GV_handle _ => "h"
  | GV_array child_type _ => "a" ++ child_type
  | GV_tuple children =>
      "(" ++ (fix items (l : list GVariant) : string :=
                match l with
                | [] => ""
                | c :: l' => g_variant_get_type_string c ++ items l'
                end) children ++ ")"
  end.

(** The typed getters; GLib rejects a value of another type. *)
Definition g_variant_get_int16 v := match v with GV_int16 z => Ok z | _ => Fault GLibCritical end.
Definition g_variant_get_uint16 v := match v with GV_uint16 z => Ok z | _ => Fault GLibCritical end.
Definition g_variant_get_int32 v := match v with GV_int32 z => Ok z | _ => Fault GLibCritical end.
Definition g_variant_get_uint32 v := match v with GV_uint32 z => Ok z | _ => Fault GLibCritical end.
Definition g_variant_get_int64 v := match v with GV_int64 z => Ok z | _ => Fault GLibCritical end.
Definition g_variant_get_uint64 v := match v with GV_uint64 z => Ok z | _ => Fault GLibCritical end.
Definition g_variant_get_double v := match v with GV_double d => Ok d | _ => Fault GLibCritical end.
Definition g_variant_get_byte v := match v with GV_byte z => Ok z | _ => Fault GLibCritical end.
Definition g_variant_get_boolean v := match v with GV_boolean b => Ok b | _ => Fault GLibCritical end.
Definition g_variant_get_string v :=
  match v with
  | GV_string s | GV_signature s | GV_object_path s => Ok s
  | _ => Fault GLibCritical
  end.

(** [s.c_str()] as a C function reads it: up to the first NUL. *)
Fixpoint c_str (s : string) : string :=
  match s with
  | EmptyString => EmptyString
  | String c s' => if Ascii.eqb c Ascii.zero then EmptyString else String c (c_str s')
  end.

(** The text of the signature of a two-field struct array [a(KV)] rewritten
    to the dict [{KV}]: [ts.replace(ts.size()-1, 1, "}"); ts.replace(0, 2, "{")]. *)
Definition array_of_pairs_as_dict (ts : string) : string :=
  "{" ++ substr_from (substr ts 0 (size ts - 1) ++ "}") 2.

(** *** translateGVariant *)

Fixpoint translateGVariant (variant : GVariant) : outcome IPCVariant :=
  t0 <- TypeInfo_of_string (g_variant_get_type_string variant) ;;
  t <- (if Ty.eqb (primaryType t0) Ty.Array then
          array_type <- arrayType t0 ;;
          if Ty.eqb (primaryType array_type) Ty.Struct then
            format <- structFormat array_type ;;
            if (length format =? 2)%nat then
              (* This is a dict *)
              TypeInfo_of_string (array_of_pairs_as_dict (typeSignature t0))
            else Ok t0
          else Ok t0
        else Ok t0) ;;
  match primaryType t with
  | Ty.None => Throw (runtime_error "invalid none typeinfo")
  | Ty.Int16 => x <- g_variant_get_int16 variant ;; IPCVariant_int16 x
  | Ty.UInt16 => x <- g_variant_get_uint16 variant ;; IPCVariant_uint16 x
  | Ty.Int32 => x <- g_variant_get_int32 variant ;; IPCVariant_int32 x
  | Ty.UInt32 => x <- g_variant_get_uint32 variant ;; IPCVariant_uint32 x
  | Ty.Int64 => x <- g_variant_get_int64 variant ;; IPCVariant_int64 x
  | Ty.UInt64 => x <- g_variant_get_uint64 variant ;; IPCVariant_uint64 x
  | Ty.Double => x <- g_variant_get_double variant ;; IPCVariant_double x
  | Ty.Byte => x <- g_variant_get_byte variant ;; IPCVariant_uint8 x
  | Ty.String | Ty.Signature | Ty.ObjectPath =>
      (* std::string(g_variant_get_string(variant, &length), length): the
         two arguments are not sequenced and [length] has no initializer,
         so the count is read without having been written *)
      _ <- g_variant_get_string variant ;; Fault UninitializedRead
  | Ty.Boolean => x <- g_variant_get_boolean variant ;; IPCVariant_bool x
  | Ty.Array | Ty.Struct =>
      match variant with
      | GV_array _ children | GV_tuple children =>
          array <- (fix each (l : list GVariant) : outcome (list IPCVariant) :=
                      match l with
                      | [] => Ok []
                      | c :: l' =>
                          x <- translateGVariant c ;;
                          xs <- each l' ;;
                          Ok (x :: xs)
                      end) children ;;
          IPCVariant_vector array t
      | _ => Fault GLibCritical
      end
  | Ty.Dict =>
      match variant with
      | GV_array _ children | GV_tuple children =>
          dict <- (fix each (l : list GVariant) (dict : IPCVariantDict)
                     : outcome IPCVariantDict :=
                     match l with
                     | [] => Ok dict
                     | element :: l' =>
                         match element with
                         | GV_array _ (key :: val :: _)
                         | GV_tuple (key :: val :: _) =>
                             (* dict[translateGVariant(key)] = translateGVariant(val):
                                the right operand is evaluated first *)
                             v <- translateGVariant val ;;
                             k <- translateGVariant key ;;
                             dict' <- map_store dict k v ;;
                             each l' dict'
                         | _ => Fault GLibCritical
                         end
                     end) children [] ;;
          IPCVariant_dict dict t
      | _ => Fault GLibCritical
      end
  end.

(** ** GLib and GDBus: the external boundary

    What GLib decides is taken as given: the validity checks that guard the
    GVariant constructors, and the bus connection with the three calls the
    server makes on it.  A registration id of 0 and a result of [false]
    are GDBus's failure results. *)

Definition GDBusArgInfo : Type := (string * string)%type.   (* name, signature *)

Record GDBusMethodInfo : Type := {
  method_name : string;
  in_args : list GDBusArgInfo;
  out_args : list GDBusArgInfo }.

Record GDBusPropertyInfo : Type := {
  property_name : string;
  property_signature : string;
  flag_readable : bool;
  flag_writable : bool }.

Record GDBusSignalInfo : Type := {
  signal_name : string;
  signal_args : list GDBusArgInfo }.

Record GDBusInterfaceInfo : Type := {
  info_name : string;
  info_methods : list GDBusMethodInfo;
  info_properties : list GDBusPropertyInfo;
  info_signals : list GDBusSignalInfo }.

Definition guint : Type := nat.

Record GLib : Type := {
  g_utf8_validate : string -> bool;
  g_variant_is_object_path : string -> bool;
  g_variant_is_signature : string -> bool;
  g_variant_type_string_is_valid : string -> bool;
  GDBusConnection : Type;
  (* connection, object path, interface info: the connection afterwards and
     the registration id *)
  g_dbus_connection_register_object :
    GDBusConnection -> string -> GDBusInterfaceInfo -> GDBusConnection * guint;
  g_dbus_connection_unregister_object :
    GDBusConnection -> guint -> GDBusConnection * bool;
  (* connection, object path, interface name, signal name, parameters *)
  g_dbus_connection_emit_signal :
    GDBusConnection -> string -> string -> string -> option GVariant ->
    GDBusConnection * bool }.

(** ** Interfaces (data) *)

Definition IPCFunctionArgs : Type := list IPCVariant.
Definition IPCArgsInfo : Type := list (string * TypeInfo).

Record IPCFunction : Type := {
  args : IPCArgsInfo;
  responses : IPCArgsInfo;
  function : IPCFunctionArgs -> outcome IPCFunctionArgs }.

Record IPCProperty : Type := {
  property : IPCVariant;
  ptype : TypeInfo;          (* IPCProperty::type *)
  readable : bool;
  writable : bool }.

(** The one [IPCServer] of the process, [logid::ipc::server]. *)
Inductive IPCServer_ptr : Set := the_server.

Record IPCInterface : Type := {
  _functions : gmap string IPCFunction;
  _properties : gmap string IPCProperty;
  _signals : gmap string IPCArgsInfo;
  _node : string;
  _name : string;
  _server : option IPCServer_ptr }.

Definition LOGID_DBUS_NAME : string := "pizza.pixl.logiops".
Definition LOGID_DBUS_OBJECTMANAGER_NODE : string := "/pizza/pixl/logiops".

(** [IPCInterface::IPCInterface(node, name)]; the derived classes fill the
    three maps in their own constructors. *)
Definition IPCInterface_new (node name : string)
    (functions : gmap string IPCFunction)
    (properties : gmap string IPCProperty)
    (signals : gmap string IPCArgsInfo) : IPCInterface :=
  {| _functions := functions;
     _properties := properties;
     _signals := signals;
     _node := if (size node =? 0)%nat then LOGID_DBUS_OBJECTMANAGER_NODE
              else LOGID_DBUS_OBJECTMANAGER_NODE ++ "/" ++ node;
     _name := if (size name =? 0)%nat then LOGID_DBUS_NAME
              else LOGID_DBUS_NAME ++ "." ++ name;
     _server := None |}.

Definition set_properties (i : IPCInterface) (p : gmap string IPCProperty)
    : IPCInterface :=
  {| _functions := _functions i; _properties := p; _signals := _signals i;
     _node := _node i; _name := _name i; _server := _server i |}.

Definition set_server (i : IPCInterface) (s : option IPCServer_ptr)
    : IPCInterface :=
  {| _functions := _functions i; _properties := _properties i;
     _signals := _signals i; _node := _node i; _name := _name i;
     _server := s |}.

(** [IPCServer::_makeInterfaceInfo], with the entries in the order in which
    the map enumerates them. *)
Definition args_info (a : IPCArgsInfo) : list GDBusArgInfo :=
  map (fun p => (fst p, typeSignature (snd p))) a.

Definition _makeInterfaceInfo (interface : IPCInterface) : GDBusInterfaceInfo :=
  {| info_name := _name interface;
     info_methods :=
       map (fun it => {| method_name := fst it;
                         in_args := args_info (args (snd it));
                         out_args := args_info (responses (snd it)) |})
           (map_to_list (_functions interface));
     info_properties :=
       map (fun it => {| property_name := fst it;
                         property_signature := typeSignature (ptype (snd it));
                         flag_readable := readable (snd it);
                         flag_writable := writable (snd it) |})
           (map_to_list (_properties interface));
     info_signals :=
       map (fun it => {| signal_name := fst it;
                         signal_args := args_info (snd it) |})
           (map_to_list (_signals interface)) |}.

Inductive GDBusError : Set :=
| G_DBUS_ERROR_FAILED
| G_DBUS_ERROR_UNKNOWN_OBJECT
| G_DBUS_ERROR_UNKNOWN_INTERFACE
| G_DBUS_ERROR_UNKNOWN_METHOD
| G_DBUS_ERROR_UNKNOWN_PROPERTY
| G_DBUS_ERROR_INVALID_ARGS
| G_DBUS_ERROR_ACCESS_DENIED.

Definition GError : Type := (GDBusError * string)%type.

(** [g_set_error(error, G_DBUS_ERROR, code, message)]: an error that is
    already set is kept. *)
Definition g_set_error (error : option GError) (code : GDBusError)
    (message : string) : option GError :=
  match error with
  | None => Some (code, message)
  | Some _ => error
  end.

Inductive LogLevel : Set := DEBUG | INFO | WARN | ERROR.

Section WithGLib.
Context (glib : GLib).

(** *** GVariant constructors *)

Definition g_variant_new_string (s : string) : outcome GVariant :=
  if g_utf8_validate glib s then Ok (GV_string s) else Fault GLibCritical.

Definition g_variant_new_signature (s : string) : outcome GVariant :=
  if g_variant_is_signature glib s then Ok (GV_signature s)
  else Fault GLibCritical.

Definition g_variant_new_object_path (s : string) : outcome GVariant :=
  if g_variant_is_object_path glib s then Ok (GV_object_path s)
  else Fault GLibCritical.

(** [g_variant_type_new]: NULL for a string that is not a type string. *)
Definition g_variant_type_new (type_string : string) : option string :=
  if g_variant_type_string_is_valid glib type_string then Some type_string
  else None.

Definition g_variant_new_tuple (children : list GVariant) : GVariant :=
  GV_tuple children.

(** [g_variant_new_array(child_type, children, n_children)]. *)
Definition g_variant_new_array (child_type : option string)
    (children : list GVariant) : outcome GVariant :=
  match child_type, children with
  | None, [] => Fault GLibCritical
  | _, _ =>
      let element :=
        match child_type, children with
        | Some t, _ => t
        | None, c :: _ => g_variant_get_type_string c
        | None, [] => ""
        end in
      if forallb (fun c => String.eqb (g_variant_get_type_string c) element)
           children
      then Ok (GV_array element children)
      else Fault GLibCritical
  end.

(** [explicit operator const char*() const], as GLib reads the result. *)
Definition as_c_str (v : IPCVariant) : outcome string :=
  if negb (is_string_kind (primaryType (_type v))) then Throw InvalidType0
  else Ok (c_str (_string_data v)).

(** *** toGVariant *)

Fixpoint toGVariant (ipc_variant : IPCVariant) : outcome GVariant :=
  match primaryType (type ipc_variant) with
  | Ty.None => Throw (runtime_error "invalid none typeinfo")
  | Ty.Int16 => x <- as_int16 ipc_variant ;; Ok (GV_int16 x)
  | Ty.UInt16 => x <- as_uint16 ipc_variant ;; Ok (GV_uint16 x)
  | Ty.Int32 => x <- as_int32 ipc_variant ;; Ok (GV_int32 x)
  | Ty.UInt32 => x <- as_uint32 ipc_variant ;; Ok (GV_uint32 x)
  | Ty.Int64 => x <- as_int64 ipc_variant ;; Ok (GV_int64 x)
  | Ty.UInt64 => x <- as_uint64 ipc_variant ;; Ok (GV_uint64 x)
  | Ty.Double => x <- as_double ipc_variant ;; Ok (GV_double x)
  | Ty.Byte => x <- as_uint8 ipc_variant ;; Ok (GV_byte x)
  | Ty.String => s <- as_c_str ipc_variant ;; g_variant_new_string s
  | Ty.Signature => s <- as_c_str ipc_variant ;; g_variant_new_signature s
  | Ty.ObjectPath => s <- as_c_str ipc_variant ;; g_variant_new_object_path s
  | Ty.Boolean => b <- as_bool ipc_variant ;; Ok (GV_boolean b)
  | Ty.Array =>
      (* auto array = (const std::vector<IPCVariant>&)ipc_variant; *)
      _ <- as_vector ipc_variant ;;
      array_type <- arrayType (type ipc_variant) ;;
      let child_type := g_variant_type_new (c_str (typeSignature array_type)) in
      garray <- (fix each (l : list IPCVariant) : outcome (list GVariant) :=
                   match l with
                   | [] => Ok []
                   | x :: l' =>
                       g <- toGVariant x ;; gs <- each l' ;; Ok (g :: gs)
                   end) (_array ipc_variant) ;;
      g_variant_new_array child_type garray
  | Ty.Struct =>
      _ <- as_vector ipc_variant ;;
      gstruct <- (fix each (l : list IPCVariant) : outcome (list GVariant) :=
                    match l with
                    | [] => Ok []
                    | x :: l' =>
                        g <- toGVariant x ;; gs <- each l' ;; Ok (g :: gs)
                    end) (_array ipc_variant) ;;
      Ok (g_variant_new_tuple gstruct)
  | Ty.Dict =>
      (* auto dict = (const IPCVariantDict&)ipc_variant; the conversion
         operator is explicit and returns by value, so this is a
         reinterpret_cast, and the copy is made of a Variant read as a map *)
      Fault ReinterpretedObject
  end.

(** ** The server and the interface objects it points to *)

(** [struct IPCServer::Interface]; [interface] is an [IPCInterface*],
    an address in the store of interface objects. *)
Record Interface : Type := {
  interface : nat;
  registrationId : guint;
  info : GDBusInterfaceInfo }.

Record IPCServer : Type := {
  _connection : GDBusConnection glib;
  _nodes : gmap string (gmap string Interface) }.

Record World : Type := {
  interfaces : gmap nat IPCInterface;
  server : IPCServer;
  log : list (LogLevel * string) }.

(** A call runs in a world and leaves a world behind, also when it
    throws. *)
Definition M (A : Type) : Type := World -> World * outcome A.

Definition ret {A : Type} (a : A) : M A := fun w => (w, Ok a).

Definition lift {A : Type} (o : outcome A) : M A := fun w => (w, o).

Definition mbind {A B : Type} (m : M A) (k : A -> M B) : M B :=
  fun w =>
    match m w with
    | (w', Ok a) => k a w'
    | (w', Throw e) => (w', Throw e)
    | (w', Fault f) => (w', Fault f)
    end.

Notation "x <-- m ;; k" := (mbind m (fun x => k))
  (at level 100, m at next level, right associativity).

Definition load (this : nat) : M IPCInterface :=
  fun w => (w, match interfaces w !! this with
               | Some i => Ok i
               | None => Fault NullDereference
               end).

Definition store (this : nat) (i : IPCInterface) : M unit :=
  fun w => ({| interfaces := <[this := i]> (interfaces w);
               server := server w; log := log w |}, Ok tt).

Definition get_server : M IPCServer := fun w => (w, Ok (server w)).

Definition put_server (s : IPCServer) : M unit :=
  fun w => ({| interfaces := interfaces w; server := s; log := log w |}, Ok tt).

Definition logPrintf (level : LogLevel) (message : string) : M unit :=
  fun w => ({| interfaces := interfaces w; server := server w;
               log := (log w ++ [(level, message)])%list |}, Ok tt).

(** *** IPCServer *)

(** [IPCServer::registerInterface(IPCInterface* ipc_interface)]. *)
Definition IPCServer_registerInterface (ipc_interface : nat) : M unit :=
  i <-- load ipc_interface ;;
  s <-- get_server ;;
  let info := _makeInterfaceInfo i in
  let r := g_dbus_connection_register_object glib (_connection s)
             (c_str (_node i)) info in
  let registration_id := snd r in
  let node := default ∅ (_nodes s !! _node i) in
  put_server
    {| _connection := fst r;
       _nodes := <[_node i :=
                     <[_name i := {| interface := ipc_interface;
                                     registrationId := registration_id;
                                     info := info |}]> node]> (_nodes s) |}.

(** [IPCServer::unregisterInterface(node, interface)]. *)
Definition IPCServer_unregisterInterface (node interface_ : string) : M unit :=
  s <-- get_server ;;
  match _nodes s !! node with
  | None => ret tt
  | Some node_it =>
      match node_it !! interface_ with
      | None => ret tt
      | Some interface_it =>
          let r := g_dbus_connection_unregister_object glib (_connection s)
                     (registrationId interface_it) in
          let node_it' := delete interface_ node_it in
          put_server
            {| _connection := fst r;
               _nodes := if decide (node_it' = ∅) then delete node (_nodes s)
                         else <[node := node_it']> (_nodes s) |}
      end
  end.

Fixpoint toGVariant_each (params : list IPCVariant) : outcome (list GVariant) :=
  match params with
  | [] => Ok []
  | p :: params' =>
      g <- toGVariant p ;; gs <- toGVariant_each params' ;; Ok (g :: gs)
  end.

(** [IPCServer::emitSignal(IPCInterface* interface, signal, params)]. *)
Definition IPCServer_emitSignal (interface_ : nat) (signal : string)
    (params : IPCFunctionArgs) : M unit :=
  gparams <-- lift (match params with
                    | [] => Ok None
                    | _ :: _ =>
                        gstruct <- toGVariant_each params ;;
                        Ok (Some (g_variant_new_tuple gstruct))
                    end) ;;
  i <-- load interface_ ;;
  s <-- get_server ;;
  let r := g_dbus_connection_emit_signal glib (_connection s)
             (c_str (_node i)) (c_str (_name i)) (c_str signal) gparams in
  _ <-- put_server {| _connection := fst r; _nodes := _nodes s |} ;;
  if negb (snd r) then lift (Throw (runtime_error "signal broadcast failed"))
  else ret tt.

(** *** IPCInterface *)

(** [IPCInterface::registerInterface(IPCServer* server)]. *)
Definition IPCInterface_registerInterface (this : nat) (server_ : IPCServer_ptr)
    : M unit :=
  i <-- load this ;;
  _ <-- store this (set_server i (Some server_)) ;;
  IPCServer_registerInterface this.

(** [IPCInterface::unregisterInterface()]. *)
Definition IPCInterface_unregisterInterface (this : nat) : M unit :=
  i <-- load this ;;
  match _server i with
  | Some _ =>
      _ <-- IPCServer_unregisterInterface (_node i) (_name i) ;;
      store this (set_server i None)
  | None => ret tt
  end.

(** [IPCInterface::setProperty(property, value)].  The exception for a
    value of the wrong type is built from [value] itself, through its
    conversion to [std::string]. *)
Definition IPCInterface_setProperty (this : nat) (property_ : string)
    (value : IPCVariant) : M unit :=
  i <-- load this ;;
  match _properties i !! property_ with
  | None => lift (Throw (invalid_argument property_))
  | Some it =>
      if TypeInfo_neqb (ptype it) (type value) then
        lift (what <- as_string value ;; Throw (invalid_argument what))
      else
        store this
          (set_properties i
             (<[property_ := {| property := IPCVariant_assign (property it) value;
                                ptype := ptype it;
                                readable := readable it;
                                writable := writable it |}]> (_properties i)))
  end.

(** [IPCInterface::getProperty(property)]. *)
Definition IPCInterface_getProperty (this : nat) (property_ : string)
    : M IPCVariant :=
  i <-- load this ;;
  match _properties i !! property_ with
  | None => lift (Throw (invalid_argument property_))
  | Some it => ret (property it)
  end.

(** The loop [for(i...) if(args[i].type() != signal_it->second[i].second)
    throw std::invalid_argument("type")]. *)
Fixpoint check_signal_args (args_ : IPCFunctionArgs) (declared : IPCArgsInfo)
    : outcome unit :=
  match args_, declared with
  | [], _ => Ok tt
  | a :: args', d :: declared' =>
      if TypeInfo_neqb (type a) (snd d) then Throw (invalid_argument "type")
      else check_signal_args args' declared'
  | _ :: _, [] => Fault OutOfBounds
  end.

(** [IPCInterface::emitSignal(signal, args)]. *)
Definition IPCInterface_emitSignal (this : nat) (signal : string)
    (args_ : IPCFunctionArgs) : M unit :=
  i <-- load this ;;
  match _server i with
  | None => ret tt
  | Some _ =>
      match _signals i !! signal with
      | None => lift (Throw (invalid_argument signal))
      | Some signal_it =>
          if negb (length signal_it =? length args_)%nat then
            lift (Throw (invalid_argument "args"))
          else
            _ <-- lift (check_signal_args args_ signal_it) ;;
            IPCServer_emitSignal this signal args_
      end
  end.

(** *** The GDBus property callbacks

    [user_data] holds the server pointer, which is null once the
    registration was freed.  The result is the value returned together
    with what [*error] holds afterwards. *)

Definition lookup_interface (s : IPCServer) (error : option GError)
    (object_path interface_name : string) : option GError + Interface :=
  match _nodes s !! object_path with
  | None => inl (g_set_error error G_DBUS_ERROR_UNKNOWN_OBJECT "Unknown object")
  | Some node =>
      match node !! interface_name with
      | None => inl (g_set_error error G_DBUS_ERROR_UNKNOWN_INTERFACE
                       "Unknown interface")
      | Some interface_ => inr interface_
      end
  end.

(** [IPCServer::gdbus_get_property]; a null result is [None]. *)
Definition gdbus_get_property (object_path interface_name property_name : string)
    (error : option GError) (user_data : option IPCServer_ptr)
    : M (option GVariant * option GError) :=
  match user_data with
  | None =>
      _ <-- logPrintf DEBUG "Ignoring gdbus_get_property on null IPCServer." ;;
      ret (None, g_set_error error G_DBUS_ERROR_FAILED "null IPCServer")
  | Some _ =>
      s <-- get_server ;;
      match lookup_interface s error object_path interface_name with
      | inl error' => ret (None, error')
      | inr interface_ =>
          i <-- load (interface interface_) ;;
          match _properties i !! property_name with
          | None => ret (None, g_set_error error G_DBUS_ERROR_UNKNOWN_PROPERTY
                                 "Unknown property")
          | Some property_ =>
              let error' :=
                if negb (readable property_)
                then g_set_error error G_DBUS_ERROR_ACCESS_DENIED
                       "Property not readable"
                else error in
              v <-- IPCInterface_getProperty (interface interface_) property_name ;;
              g <-- lift (toGVariant v) ;;
              ret (Some g, error')
          end
      end
  end.

(** [IPCServer::gdbus_set_property]. *)
Definition gdbus_set_property (object_path interface_name property_name : string)
    (value : GVariant) (error : option GError)
    (user_data : option IPCServer_ptr) : M (bool * option GError) :=
  match user_data with
  | None =>
      _ <-- logPrintf DEBUG "Ignoring gdbus_get_property on null IPCServer." ;;
      ret (false, g_set_error error G_DBUS_ERROR_FAILED "null IPCServer")
  | Some _ =>
      s <-- get_server ;;
      match lookup_interface s error object_path interface_name with
      | inl error' => ret (false, error')
      | inr interface_ =>
          i <-- load (interface interface_) ;;
          match _properties i !! property_name with
          | None => ret (false, g_set_error error G_DBUS_ERROR_UNKNOWN_PROPERTY
                                  "Unknown property")
          | Some property_ =>
              ipc_variant <-- lift (translateGVariant value) ;;
              if TypeInfo_neqb (type ipc_variant) (ptype property_) then
                ret (false, g_set_error error G_DBUS_ERROR_INVALID_ARGS
                              "Invalid argument")
              else
                let error' :=
                  if negb (writable property_)
                  then g_set_error error G_DBUS_ERROR_ACCESS_DENIED
                         "Property not writable"
                  else error in
                _ <-- IPCInterface_setProperty (interface interface_)
                        property_name ipc_variant ;;
                ret (true, error')
          end
      end
  end.

End WithGLib.

Arguments interface i : rename.
Arguments _connection {glib} i : rename.
Arguments _nodes {glib} i : rename.
Arguments interfaces {glib} w.
Arguments server {glib} w.
Arguments log {glib} w.
Arguments ret {glib A} a.
Arguments lift {glib A} o.
Arguments mbind {glib A B} m k.

(** ** Predicates used in the statements *)

(** A character that is neither ['{'] nor ['}']. *)
Definition not_brace (c : ascii) : bool :=
  negb (Ascii.eqb c "{") && negb (Ascii.eqb c "}").

(** Reading a text from the left at nesting depth [d]: ['('] opens a level,
    [')'] closes one and must not close more than were opened.  The result
    is the depth at the end. *)
Fixpoint paren_scan (s : string) (d : nat) : option nat :=
  match s with
  | EmptyString => Some d
  | String c s' =>
      if Ascii.eqb c "(" then paren_scan s' (S d)
      else if Ascii.eqb c ")" then
        match d with
        | O => None
        | S d' => paren_scan s' d'
        end
      else paren_scan s' d
  end.

Definition parens_balanced (s : string) : bool :=
  match paren_scan s 0 with
  | Some O => true
  | _ => false
  end.

(** The text that follows a dict value of one character, up to a ['}'] that
    ends the dict: the constructor takes the value and looks at nothing
    after it, so any characters of the alphabet may stand there. *)
Inductive unchecked_tail : string -> string -> Prop :=
| unchecked_end (r : string) : unchecked_tail (String "}" r) r
| unchecked_char (c : ascii) (s r : string) :
    str_contains VALID_CHARS c = true ->
    unchecked_tail s r -> unchecked_tail (String c s) r.

(** The grammar of signatures, read from the left: [complete s r] says that
    [s] is one complete signature followed by [r].  A complete signature is
    a primitive character; ['a'] and a complete signature; ['('], any
    number of complete signatures and [')']; or ['{'], a complete signature
    for the key, one for the value and ['}'].  The last constructor is the
    dict whose value is one primitive character, with the text after it
    left unchecked. *)
Inductive complete : string -> string -> Prop :=
| complete_primitive (c : ascii) (r : string) :
    str_contains SINGLE_TYPES c = true -> complete (String c r) r
| complete_array (s r : string) :
    complete s r -> complete (String "a" s) r
| complete_struct (s r : string) :
    struct_fields s r -> complete (String "(" s) r
| complete_dict (s r1 r : string) :
    complete s r1 -> complete r1 (String "}" r) -> complete (String "{" s) r
| complete_dict_unchecked (c : ascii) (s r1 r : string) :
    complete s (String c r1) -> str_contains SINGLE_TYPES c = true ->
    unchecked_tail r1 r -> complete (String "{" s) r
with struct_fields : string -> string -> Prop :=
| fields_end (r : string) : struct_fields (String ")" r) r
| fields_more (s r1 r : string) :
    complete s r1 -> struct_fields r1 r -> struct_fields s r.

(** A text that is one complete signature and nothing else. *)
Definition signature (s : string) : Prop := complete s "".

(** The shapes of text that the constructor rejects: the ones that can be
    told at a glance, and every text that is not a signature. *)
Inductive malformed (s : string) : Prop :=
| malformed_empty :
    s = "" -> malformed s
| malformed_unknown_char :
    str_forallb (str_contains VALID_CHARS) s = false -> malformed s
| malformed_long_primitive :
    str_contains SINGLE_TYPES (str_at s 0) = true ->
    (1 < size s)%nat -> malformed s
| malformed_unclosed_struct :
    str_at s 0 = "("%char -> back s <> ")"%char -> malformed s
| malformed_unclosed_dict :
    str_at s 0 = "{"%char -> back s <> "}"%char -> malformed s
| malformed_parens :
    str_forallb not_brace s = true -> parens_balanced s = false -> malformed s
| malformed_incomplete :
    ~ signature s -> malformed s.

(** The element, key and value types that [arrayType] and [dictType]
    dereference are there. *)
Definition pointers_set (t : TypeInfo) : bool :=
  match ti_type t with
  | Ty.Array => bool_decide (is_Some (ti_array_type t))
  | Ty.Dict => bool_decide (is_Some (ti_dict_key t))
               && bool_decide (is_Some (ti_dict_value t))
  | _ => true
  end.

Fixpoint fields_match (array : list IPCVariant) (format : list TypeInfo) : bool :=
  match array, format with
  | [], [] => true
  | v :: array', f :: format' => TypeInfo_eqb (type v) f && fields_match array' format'
  | _, _ => false
  end.

(** The invariant of a composite Variant: the children of an Array have
    its element type, the children of a Struct have, slot by slot, the types
    of its format, the entries of a Dict have its key and value types. *)
Definition children_match (v : IPCVariant) : bool :=
  match primaryType (type v) with
  | Ty.Array =>
      forallb (fun c => match ti_array_type (type v) with
                        | Some e => TypeInfo_eqb (type c) e
                        | None => false
                        end) (_array v)
  | Ty.Struct => fields_match (_array v) (ti_struct_types (type v))
  | Ty.Dict =>
      forallb (fun kv => match ti_dict_key (type v), ti_dict_value (type v) with
                         | Some k, Some e =>
                             TypeInfo_eqb (type (fst kv)) k
                             && TypeInfo_eqb (type (snd kv)) e
                         | _, _ => false
                         end) (_dict v)
  | _ => true
  end.

(** An accessor guarded by a kind check: it returns the stored slot when
    the kind is one of [kinds] and throws InvalidType otherwise. *)
Definition guarded {A : Type} (get : IPCVariant -> outcome A)
    (kinds : list Ty.Type_) (stored : IPCVariant -> A) (v : IPCVariant) : Prop :=
  (In (primaryType (type v)) kinds /\ get v = Ok (stored v)) \/
  (~ In (primaryType (type v)) kinds /\ get v = Throw InvalidType0).

(** The parameters as [IPCServer::emitSignal] hands them to GDBus. *)
Definition signal_parameters (params : IPCFunctionArgs) (gs : list GVariant)
    : option GVariant :=
  match params with
  | [] => None
  | _ :: _ => Some (GV_tuple gs)
  end.

(** A Variant with its children, or its entries, replaced. *)
Definition with_array (v : IPCVariant) (array : list IPCVariant) : IPCVariant :=
  mkIPCVariant array (_dict v) (_num_data v) (_string_data v) (_type v).
Definition with_dict (v : IPCVariant) (dict : IPCVariantDict) : IPCVariant :=
  mkIPCVariant (_array v) dict (_num_data v) (_string_data v) (_type v).

(** What a checked construction or assignment does with a candidate
    value: it yields the candidate itself when the kind is right and the
    children match, and throws InvalidType otherwise. *)
Definition checked (o : outcome IPCVariant) (kind_ok : bool)
    (candidate : IPCVariant) : Prop :=
  o = if kind_ok && children_match candidate then Ok candidate
      else Throw InvalidType0.

(** A call that either returns or throws InvalidType: it neither faults
    nor runs out of its bound. *)
Definition settled {A : Type} (o : outcome A) : Prop :=
  returns o \/ raises_InvalidType o.

(** To the wire format and back. *)
Definition roundtrip (glib : GLib) (v : IPCVariant) : outcome IPCVariant :=
  g <- toGVariant glib v ;; translateGVariant g.

(** A constructed Variant that translates to the wire format and comes
    back as a Variant equal to it, of the same signature. *)
Definition roundtrips (glib : GLib) (o : outcome IPCVariant) : Prop :=
  exists v v', o = Ok v /\ roundtrip glib v = Ok v' /\
               IPCVariant_eqb v' v = Ok true /\
               typeSignature (type v') = typeSignature (type v).

(** ** Sample values and boundaries *)

(** A boundary on which every call fails, as GDBus answers a registration
    when the object path is not valid or an object is already exported
    for the interface at that path, and a signal when the connection is
    closed. *)
Definition failing_bus : GLib :=
  {| g_utf8_validate := fun _ => true;
     g_variant_is_object_path := fun _ => true;
     g_variant_is_signature := fun _ => true;
     g_variant_type_string_is_valid := fun _ => true;
     GDBusConnection := unit;
     g_dbus_connection_register_object := fun c _ _ => (c, 0%nat);
     g_dbus_connection_unregister_object := fun c _ => (c, false);
     g_dbus_connection_emit_signal := fun c _ _ _ _ => (c, false) |}.

(** A bus that accepts every call; the connection counts the ids given. *)
Definition open_bus : GLib :=
  {| g_utf8_validate := fun _ => true;
     g_variant_is_object_path := fun _ => true;
     g_variant_is_signature := fun _ => true;
     g_variant_type_string_is_valid := fun _ => true;
     GDBusConnection := nat;
     g_dbus_connection_register_object := fun c _ _ => (S c, S c);
     g_dbus_connection_unregister_object := fun c _ => (c, true);
     g_dbus_connection_emit_signal := fun c _ _ _ _ => (c, true) |}.

Definition value_of {A : Type} (o : outcome A) (d : A) : A :=
  match o with
  | Ok a => a
  | _ => d
  end.

Definition type_of_string (s : string) : TypeInfo :=
  value_of (TypeInfo_of_string s) TypeInfo_default.

(** The Variants that [Device::IPC] and [DPI::IPC] publish. *)
Definition sample_name : IPCVariant :=
  value_of (IPCVariant_string "MX Master" Ty.String) IPCVariant_default.
Definition sample_renamed : IPCVariant :=
  value_of (IPCVariant_string "renamed" Ty.String) IPCVariant_default.
Definition sample_pid : IPCVariant :=
  value_of (IPCVariant_uint16 16514) IPCVariant_default.
Definition sample_features : IPCVariant :=
  value_of (IPCVariant_vector [] (type_of_string "as")) IPCVariant_default.
Definition sample_dpi_entry : IPCVariant :=
  value_of
    (IPCVariant_vector
       [value_of (IPCVariant_vector [value_of (IPCVariant_uint16 800) IPCVariant_default]
                    (type_of_string "aq")) IPCVariant_default;
        value_of (IPCVariant_bool true) IPCVariant_default]
       (type_of_string "(aqb)")) IPCVariant_default.
Definition sample_dpis : IPCVariant :=
  value_of (IPCVariant_vector [sample_dpi_entry] (type_of_string "a(aqb)"))
    IPCVariant_default.
Definition sample_empty_dict : IPCVariant :=
  value_of (IPCVariant_dict [] (type_of_string "{su}")) IPCVariant_default.

(** A device interface with a read-only [name] property and a [status]
    signal taking one boolean. *)
Definition sample_interface : IPCInterface :=
  IPCInterface_new "device/0" "Device" ∅
    {[ "name" := {| property := sample_name;
                    ptype := type_of_string "s";
                    readable := true;
                    writable := false |} ]}
    {[ "status" := [("asleep", type_of_string "b")] ]}.

Definition sample_world (glib : GLib) (c : GDBusConnection glib)
    (i : IPCInterface) : World glib :=
  {| interfaces := {[ 1%nat := i ]};
     server := {| _connection := c; _nodes := ∅ |};
     log := [] |}.

(** The interface at address 1, not registered, on the failing bus. *)
Definition world_unregistered : World failing_bus :=
  sample_world failing_bus tt sample_interface.

(** The same after [registerInterface], on the failing and on the open bus. *)
Definition world_failing : World failing_bus :=
  fst (IPCInterface_registerInterface failing_bus 1 the_server world_unregistered).

Definition world_open : World open_bus :=
  fst (IPCInterface_registerInterface open_bus 1 the_server
         (sample_world open_bus 0%nat sample_interface)).

(** The entry of the registry for a node and an interface name. *)
Definition registered {glib : GLib} (w : World glib) (node name : string)
    : option Interface :=
  _nodes (server w) !! node ≫= (fun names => names !! name).

(** The stored record of a property of the interface at an address. *)
Definition stored_property {glib : GLib} (w : World glib) (this : nat)
    (name : string) : option IPCProperty :=
  interfaces w !! this ≫= (fun i => _properties i !! name).

(** * Further parts of the program *)

(** *** Typed comparison: [operator==(const x&)] and [operator!=(const x&)]

    Neither throws: on a Variant of another kind [==] is [false] and [!=]
    is [true]. *)

Definition NUM_TYPE_eq {A : Type} (t : Ty.Type_) (cast : Z -> A)
    (eqb : A -> A -> bool) (v : IPCVariant) (other : A) : bool :=
  if negb (Ty.eqb (primaryType (_type v)) t) then false
  else eqb (cast (_num_data v)) other.

Definition NUM_TYPE_ne {A : Type} (t : Ty.Type_) (cast : Z -> A)
    (eqb : A -> A -> bool) (v : IPCVariant) (other : A) : bool :=
  if negb (Ty.eqb (primaryType (_type v)) t) then true
  else negb (eqb (cast (_num_data v)) other).

Definition eq_int16 v (other : Z) := NUM_TYPE_eq Ty.Int16 int16_t Z.eqb v (int16_t other).
Definition eq_uint16 v (other : Z) := NUM_TYPE_eq Ty.UInt16 uint16_t Z.eqb v (uint16_t other).
Definition eq_int32 v (other : Z) := NUM_TYPE_eq Ty.Int32 int32_t Z.eqb v (int32_t other).
Definition eq_uint32 v (other : Z) := NUM_TYPE_eq Ty.UInt32 uint32_t Z.eqb v (uint32_t other).
Definition eq_int64 v (other : Z) := NUM_TYPE_eq Ty.Int64 int64_t Z.eqb v (int64_t other).
Definition eq_uint64 v (other : Z) := NUM_TYPE_eq Ty.UInt64 uint64_t Z.eqb v (uint64_t other).
Definition eq_uint8 v (other : Z) := NUM_TYPE_eq Ty.Byte uint8_t Z.eqb v (uint8_t other).
Definition eq_double v (other : double) := NUM_TYPE_eq Ty.Double double_of_Z SFeqb v other.
Definition eq_bool v (other : bool) :=
  NUM_TYPE_eq Ty.Boolean (fun n => negb (n =? 0)%Z) Bool.eqb v other.

Definition ne_int16 v (other : Z) := NUM_TYPE_ne Ty.Int16 int16_t Z.eqb v (int16_t other).
Definition ne_uint16 v (other : Z) := NUM_TYPE_ne Ty.UInt16 uint16_t Z.eqb v (uint16_t other).
Definition ne_int32 v (other : Z) := NUM_TYPE_ne Ty.Int32 int32_t Z.eqb v (int32_t other).
Definition ne_uint32 v (other : Z) := NUM_TYPE_ne Ty.UInt32 uint32_t Z.eqb v (uint32_t other).
Definition ne_int64 v (other : Z) := NUM_TYPE_ne Ty.Int64 int64_t Z.eqb v (int64_t other).
Definition ne_uint64 v (other : Z) := NUM_TYPE_ne Ty.UInt64 uint64_t Z.eqb v (uint64_t other).
Definition ne_uint8 v (other : Z) := NUM_TYPE_ne Ty.Byte uint8_t Z.eqb v (uint8_t other).
Definition ne_double v (other : double) := NUM_TYPE_ne Ty.Double double_of_Z SFeqb v other.
Definition ne_bool v (other : bool) :=
  NUM_TYPE_ne Ty.Boolean (fun n => negb (n =? 0)%Z) Bool.eqb v other.

Definition eq_string (v : IPCVariant) (other : string) : bool :=
  if negb (is_string_kind (primaryType (_type v))) then false
  else String.eqb (_string_data v) other.
Definition ne_string (v : IPCVariant) (other : string) : bool :=
  if negb (is_string_kind (primaryType (_type v))) then true
  else negb (String.eqb (_string_data v) other).

(** ** Method calls and the device interface *)

(** [e.what()]. *)
Definition what (e : exception) : string :=
  match e with
  | InvalidType w | runtime_error w | invalid_argument w => w
  end.

(** What a method invocation is answered with:
    [g_dbus_method_invocation_return_error] or
    [g_dbus_method_invocation_return_value]. *)
Inductive MethodReply : Type :=
| return_error (code : GDBusError) (message : string)
| return_value (parameters : option GVariant).

Definition g_variant_n_children (value : GVariant) : outcome nat :=
  match value with
  | GV_array _ children | GV_tuple children => Ok (length children)
  | _ => Fault GLibCritical
  end.

Definition g_variant_get_child_value (value : GVariant) (index : nat)
    : outcome GVariant :=
  match value with
  | GV_array _ children | GV_tuple children =>
      match nth_error children index with
      | Some child => Ok child
      | None => Fault GLibCritical
      end
  | _ => Fault GLibCritical
  end.

(** [std::map::operator[]] on [_properties] value-initialises the
    [IPCProperty] of a key that is absent. *)
Definition IPCProperty_default : IPCProperty :=
  {| property := IPCVariant_default; ptype := TypeInfo_default;
     readable := false; writable := false |}.

Definition set_property (p : IPCProperty) (v : IPCVariant) : IPCProperty :=
  {| property := v; ptype := ptype p; readable := readable p;
     writable := writable p |}.

Section Callbacks.
Context (glib : GLib).

(** [g_variant_check_format_string(value, format_string, copy_only)] is
    GLib's own; it is a parameter here. *)
Context (g_variant_check_format_string : GVariant -> string -> bool).

Local Notation "x <-- m ;; k" := (mbind m (fun x => k))
  (at level 100, m at next level, right associativity).

(** The loop of [gdbus_method_call] that translates the arguments; [None]
    stands for the [return] after the error reply inside the loop. *)
Fixpoint translate_args (parameters : GVariant) (declared : IPCArgsInfo)
    (i : nat) (args_ : IPCFunctionArgs) : outcome (option IPCFunctionArgs) :=
  match declared with
  | [] => Ok (Some args_)
  | d :: declared' =>
      arg <- g_variant_get_child_value parameters i ;;
      if g_variant_check_format_string parameters (c_str (typeSignature (snd d)))
      then Ok None
      else
        a <- translateGVariant arg ;;
        translate_args parameters declared' (S i) (args_ ++ [a])%list
  end.

(** [IPCServer::gdbus_method_call]. *)
Definition gdbus_method_call (object_path interface_name method_name : string)
    (parameters : GVariant) (user_data : option IPCServer_ptr)
    : M glib MethodReply :=
  match user_data with
  | None =>
      _ <-- logPrintf glib DEBUG "Ignoring gdbus_method_call on null IPCServer." ;;
      ret (return_error G_DBUS_ERROR_FAILED "null IPCServer")
  | Some _ =>
      s <-- get_server glib ;;
      match _nodes s !! object_path with
      | None => ret (return_error G_DBUS_ERROR_UNKNOWN_OBJECT "Unknown object")
      | Some node =>
          match node !! interface_name with
          | None => ret (return_error G_DBUS_ERROR_UNKNOWN_INTERFACE
                           "Unknown interface")
          | Some interface_ =>
              i <-- load glib (interface interface_) ;;
              match _functions i !! method_name with
              | None => ret (return_error G_DBUS_ERROR_UNKNOWN_METHOD
                               "Unknown method")
              | Some function_ =>
                  n <-- lift (g_variant_n_children parameters) ;;
                  if negb (n =? length (args function_))%nat then
                    ret (return_error G_DBUS_ERROR_INVALID_ARGS "Invalid argument")
                  else
                    match translate_args parameters (args function_) 0 [] with
                    | Throw (InvalidType _) | Ok None =>
                        ret (return_error G_DBUS_ERROR_INVALID_ARGS
                               "Invalid argument")
                    | Throw e => lift (Throw e)
                    | Fault f => lift (Fault f)
                    | Ok (Some args_) =>
                        match function function_ args_ with
                        | Throw e =>
                            _ <-- logPrintf glib ERROR
                                    ("Error calling IPC function " ++ object_path
                                     ++ ":" ++ interface_name ++ ":" ++ method_name
                                     ++ " - " ++ c_str (what e)) ;;
                            ret (return_error G_DBUS_ERROR_FAILED
                                   ("Internal error: " ++ c_str (what e)))
                        | Fault f => lift (Fault f)
                        | Ok [] => ret (return_value None)
                        | Ok response =>
                            gstruct <-- lift (toGVariant_each glib response) ;;
                            ret (return_value (Some (g_variant_new_tuple gstruct)))
                        end
                    end
              end
          end
      end
  end.

(** [Device::IPC::sleep]:
    [_properties["asleep"].property = true; emitSignal("sleep", {})].  The
    entry exists from the subscript on, also when the assignment throws. *)
Definition Device_IPC_sleep (this : nat) : M glib unit :=
  i <-- load glib this ;;
  let asleep := default IPCProperty_default (_properties i !! "asleep") in
  let i := set_properties i (<["asleep" := asleep]> (_properties i)) in
  _ <-- store glib this i ;;
  v <-- lift (assign_bool (property asleep) true) ;;
  _ <-- store glib this
          (set_properties i (<["asleep" := set_property asleep v]> (_properties i))) ;;
  IPCInterface_emitSignal glib this "sleep" [].

(** [Device::IPC::wakeup]. *)
Definition Device_IPC_wakeup (this : nat) : M glib unit :=
  i <-- load glib this ;;
  let asleep := default IPCProperty_default (_properties i !! "asleep") in
  let i := set_properties i (<["asleep" := asleep]> (_properties i)) in
  _ <-- store glib this i ;;
  v <-- lift (assign_bool (property asleep) false) ;;
  _ <-- store glib this
          (set_properties i (<["asleep" := set_property asleep v]> (_properties i))) ;;
  IPCInterface_emitSignal glib this "wakeup" [].

End Callbacks.

(** ** Device ids and DPI values *)

(** [std::min_element(first, last, comp)] and [std::max_element(first,
    last)]: the first smallest and the first largest element; [None] is
    [last], the result on an empty range. *)
Fixpoint min_element_from (comp : Z -> Z -> bool) (smallest : Z) (l : list Z) : Z :=
  match l with
  | [] => smallest
  | x :: l' => min_element_from comp (if comp x smallest then x else smallest) l'
  end.

Definition min_element (comp : Z -> Z -> bool) (l : list Z) : option Z :=
  match l with
  | [] => None
  | x :: l' => Some (min_element_from comp x l')
  end.

Fixpoint max_element_from (largest : Z) (l : list Z) : Z :=
  match l with
  | [] => largest
  | x :: l' => max_element_from (if (largest <? x)%Z then x else largest) l'
  end.

Definition max_element (l : list Z) : option Z :=
  match l with
  | [] => None
  | x :: l' => Some (max_element_from x l')
  end.

(** [hidpp20::AdjustableDPI::SensorDPIList], with the members that
    [getClosestDPI] reads; the values are [uint16_t]. *)
Record SensorDPIList : Type := {
  dpis : list Z;
  isRange : bool;
  dpiStep : Z }.

(** [round(d)]: to the nearest integer, halfway cases away from zero. *)
Definition round (d : double) : double :=
  match d with
  | S754_finite s m (Zneg p) =>
      let q := (Zpos m / 2 ^ Zpos p)%Z in
      let r := (Zpos m mod 2 ^ Zpos p)%Z in
      let n := if (2 ^ Zpos p <=? 2 * r)%Z then (q + 1)%Z else q in
      if (n =? 0)%Z then S754_zero s
      else double_of_Z (if s then (- n)%Z else n)
  | _ => d
  end.

(** [(uint16_t)d]; [None] where the conversion is undefined. *)
Definition uint16_of_double (d : double) : option Z :=
  match trunc_double d with
  | Some z => if ((0 <=? z) && (z <? 2 ^ 16))%Z then Some z else None
  | None => None
  end.

(** [getClosestDPI(dpi_list, dpi)]; [None] where the behaviour is
    undefined: [*end()] on an empty list, [% 0], a result outside
    [uint16_t]. *)
Definition getClosestDPI (dpi_list : SensorDPIList) (dpi : Z) : option Z :=
  if isRange dpi_list then
    match min_element Z.ltb (dpis dpi_list), max_element (dpis dpi_list) with
    | Some min, Some max =>
        if (dpiStep dpi_list =? 0)%Z then None
        else if ((Z.rem (dpi - min) (dpiStep dpi_list) =? 0)
                 && (min <=? dpi) && (dpi <=? max))%Z then Some dpi
        else if (max <? dpi)%Z then Some max
        else if (dpi <? min)%Z then Some min
        else
          uint16_of_double
            (SFadd 53 1024 (double_of_Z min)
               (SFmul 53 1024
                  (round (SFdiv 53 1024 (double_of_Z (dpi - min))
                            (double_of_Z (dpiStep dpi_list))))
                  (double_of_Z (dpiStep dpi_list))))
    | _, _ => None
    end
  else
    if existsb (Z.eqb dpi) (dpis dpi_list) then Some dpi
    else
      match min_element (fun a b => (dpi - a <? dpi - b)%Z) (dpis dpi_list) with
      | None => Some 0%Z
      | Some it => Some it
      end.

(** [std::set<int>]: the elements in increasing order. *)
Fixpoint set_insert (x : Z) (s : list Z) : list Z :=
  match s with
  | [] => [x]
  | y :: s' =>
      if (x <? y)%Z then x :: s
      else if (x =? y)%Z then s
      else y :: set_insert x s'
  end.

Fixpoint set_erase (x : Z) (s : list Z) : list Z :=
  match s with
  | [] => []
  | y :: s' => if (x =? y)%Z then s' else y :: set_erase x s'
  end.

(** [std::adjacent_find(first, last, pred)]: the first element that
    stands in [pred] to its successor. *)
Fixpoint adjacent_find (pred : Z -> Z -> bool) (l : list Z) : option Z :=
  match l with
  | a :: (b :: _) as l' => if pred a b then Some a else adjacent_find pred l'
  | _ => None
  end.

(** [DeviceManager::newDeviceId], the block that holds the lock: the id
    chosen and [_device_ids] afterwards.  The ids count devices, far from
    the ends of [int]. *)
Definition newDeviceId (_device_ids : list Z) : Z * list Z :=
  let id :=
    match _device_ids with
    | [] => 0%Z
    | begin :: _ =>
        if (0 <? begin)%Z then 0%Z
        else
          match adjacent_find (fun a b => negb (a + 1 =? b)%Z) _device_ids with
          | None => (List.last _device_ids 0 + 1)%Z
          | Some it => (it + 1)%Z
          end
    end in
  (id, set_insert id _device_ids).

(** [DeviceManager::dropDeviceId], the block that holds the lock. *)
Definition dropDeviceId (id : Z) (_device_ids : list Z) : list Z :=
  set_erase id _device_ids.

(** ** Predicates used in the further statements *)

(** The signatures of a list of types, one after the other. *)
Fixpoint signatures (l : list TypeInfo) : string :=
  match l with
  | [] => ""
  | t :: l' => typeSignature t ++ signatures l'
  end.

(** The signatures as the grammar has them, piece by piece: a primitive
    character; ['a'] and a signature; ['('], a row of signatures and [')'];
    ['{'], a signature for the key, one for the value and ['}']. *)
Inductive wellformed : string -> Prop :=
| wellformed_primitive (c : ascii) :
    str_contains SINGLE_TYPES c = true -> wellformed (String c "")
| wellformed_array (t : string) :
    wellformed t -> wellformed (String "a" t)
| wellformed_struct (body : string) :
    wellformed_row body -> wellformed (String "(" (body ++ ")"))
| wellformed_dict (k v : string) :
    wellformed k -> wellformed v -> wellformed (String "{" (k ++ v ++ "}"))
with wellformed_row : string -> Prop :=
| wellformed_none : wellformed_row ""
| wellformed_more (t ts : string) :
    wellformed t -> wellformed_row ts -> wellformed_row (t ++ ts).

Scheme wellformed_mut := Minimality for wellformed Sort Prop
  with wellformed_row_mut := Minimality for wellformed_row Sort Prop.

(** The count that [getSpecialEnd] keeps while it reads a text: up at
    [open], down at [close]; [None] once it has come to 0. *)
Fixpoint bracket_count (open close : ascii) (s : string) (cnt : Z) : option Z :=
  match s with
  | EmptyString => Some cnt
  | String x s' =>
      let cnt' := if Ascii.eqb x open then (cnt + 1)%Z
                  else if Ascii.eqb x close then (cnt - 1)%Z
                  else cnt in
      if (cnt' =? 0)%Z then None else bracket_count open close s' cnt'
  end.

(** A typed assignment [v = x] followed by the typed read and the typed
    comparison of the same C type: on a Variant of the right kind the
    assignment succeeds, the read returns the value stored, [v == x] holds,
    and the type and the children are as before; on a Variant of any other
    kind the assignment throws InvalidType. *)
Definition assigns_and_reads {A : Type} (kind_ok : Ty.Type_ -> bool)
    (assign : IPCVariant -> A -> outcome IPCVariant)
    (read : IPCVariant -> outcome A) (eq : IPCVariant -> A -> bool)
    (v : IPCVariant) (x stored : A) : Prop :=
  if kind_ok (primaryType (type v)) then
    exists v', assign v x = Ok v' /\ read v' = Ok stored /\ eq v' x = true /\
               type v' = type v /\ _array v' = _array v /\ _dict v' = _dict v
  else assign v x = Throw InvalidType0.

(** [==] holds exactly when the typed read returns the value, and [!=] is
    its negation. *)
Definition compares_as_read {A : Type} (eq ne : IPCVariant -> A -> bool)
    (read : IPCVariant -> outcome A) (v : IPCVariant) (x stored : A) : Prop :=
  (eq v x = true <-> read v = Ok stored) /\ ne v x = negb (eq v x).

(** From the wire format to a Variant and back. *)
Definition back_to_wire (glib : GLib) (g : GVariant) : outcome GVariant :=
  v <- translateGVariant g ;; toGVariant glib v.

(** Every stored property value has the signature that the property
    declares. *)
Definition properties_typed (i : IPCInterface) : Prop :=
  forall name p, _properties i !! name = Some p ->
                 typeSignature (type (property p)) = typeSignature (ptype p).

(** No node of the registry is left without interfaces. *)
Definition no_empty_node {glib : GLib} (s : IPCServer glib) : Prop :=
  forall node names, _nodes s !! node = Some names -> names <> ∅.

(** The arguments of a signal are as many as declared and have, position
    by position, the declared types. *)
Fixpoint signal_args_match (args_ : IPCFunctionArgs) (declared : IPCArgsInfo)
    : bool :=
  match args_, declared with
  | [], [] => true
  | a :: args', d :: declared' =>
      TypeInfo_eqb (type a) (snd d) && signal_args_match args' declared'
  | _, _ => false
  end.

(** The world with one more line in the log. *)
Definition logged {glib : GLib} (w : World glib) (level : LogLevel)
    (message : string) : World glib :=
  {| interfaces := interfaces w; server := server w;
     log := (log w ++ [(level, message)])%list |}.

(** The largest and the smallest element of a list. *)
Definition is_largest (m : Z) (l : list Z) : Prop :=
  In m l /\ forall x, In x l -> (x <= m)%Z.

Definition is_smallest (m : Z) (l : list Z) : Prop :=
  In m l /\ forall x, In x l -> (m <= x)%Z.

(** The elements are in strictly increasing order, as a [std::set]
    enumerates them. *)
Fixpoint increasing (l : list Z) : bool :=
  match l with
  | a :: (b :: _) as l' => (a <? b)%Z && increasing l'
  | _ => true
  end.

(** ** Further sample values *)

Definition sample_key : IPCVariant :=
  value_of (IPCVariant_string "dpi" Ty.String) IPCVariant_default.
Definition sample_other_key : IPCVariant :=
  value_of (IPCVariant_string "rate" Ty.String) IPCVariant_default.
Definition sample_value : IPCVariant :=
  value_of (IPCVariant_uint32 800) IPCVariant_default.
Definition sample_other_value : IPCVariant :=
  value_of (IPCVariant_uint32 1600) IPCVariant_default.
Definition sample_one : IPCVariant :=
  value_of (IPCVariant_uint32 1) IPCVariant_default.
Definition sample_dpi : IPCVariant :=
  value_of (IPCVariant_uint16 800) IPCVariant_default.

(** A Dict of type [{su}] with the given entries. *)
Definition sample_dict (entries : IPCVariantDict) : IPCVariant :=
  mkIPCVariant [] entries 0 "" (type_of_string "{su}").

(** A handler that takes no argument, as [reload] of [Configuration::IPC]
    and [reconfigure] of [Device::IPC] do, and one that reads its argument
    as a C type that the argument does not have. *)
Definition sample_reconfigure : IPCFunction :=
  {| args := []; responses := []; function := fun _ => Ok [] |}.

Definition sample_setDPI : IPCFunction :=
  {| args := [("dpi", type_of_string "q")]; responses := [];
     function := fun args_ =>
                   match args_ with
                   | a :: _ => x <- as_uint32 a ;; Ok []
                   | [] => Ok []
                   end |}.

Definition sample_functions : gmap string IPCFunction :=
  {[ "reconfigure" := sample_reconfigure; "setDPI" := sample_setDPI ]}.

(** The interface of a device as [Device::IPC] sets it up: the properties
    [name], [pid] and [asleep], the signals [sleep] and [wakeup] without
    arguments. *)
Definition sample_device : IPCInterface :=
  IPCInterface_new "device/0" "Device" sample_functions
    {[ "name" := {| property := sample_name; ptype := type_of_string "s";
                    readable := true; writable := false |};
       "pid" := {| property := sample_pid; ptype := type_of_string "q";
                   readable := true; writable := false |};
       "asleep" := {| property := value_of (IPCVariant_bool false) IPCVariant_default;
                      ptype := type_of_string "b";
                      readable := true; writable := false |} ]}
    {[ "sleep" := []; "wakeup" := [] ]}.

(** The device at address 1 on the open bus, before and after
    [registerInterface]. *)
Definition world_device_unregistered : World open_bus :=
  sample_world open_bus 0%nat sample_device.

Definition world_device : World open_bus :=
  fst (IPCInterface_registerInterface open_bus 1 the_server
         world_device_unregistered).

(** [g_variant_check_format_string] for a format string that consists of
    type characters only: the value's type string is that text. *)
Definition sample_check (parameters : GVariant) (format_string : string) : bool :=
  String.eqb (g_variant_get_type_string parameters) format_string.

Definition sample_dpi_list : SensorDPIList :=
  {| dpis := [400; 800; 1600]%Z; isRange := false; dpiStep := 0%Z |}.

Definition sample_dpi_range : SensorDPIList :=
  {| dpis := [200; 4000]%Z; isRange := true; dpiStep := 50%Z |}.


(** * Properties *)

(** ** Kinds *)

Lemma Ty_eqb_eq (a b : Ty.Type_) : Ty.eqb a b = true <-> a = b.
Proof.
  split.
  - destruct a, b; intros H; first [reflexivity | discriminate H].
  - intros ->. destruct b; reflexivity.
Qed.

Lemma Ty_eqb_neq (a b : Ty.Type_) : Ty.eqb a b = false <-> a <> b.
Proof.
  rewrite <- Ty_eqb_eq. destruct (Ty.eqb a b); split; congruence.
Qed.

Lemma TypeInfo_eqb_refl (t : TypeInfo) : TypeInfo_eqb t t = true.
Proof. unfold TypeInfo_eqb. apply String.eqb_refl. Qed.

Lemma TypeInfo_neqb_refl (t : TypeInfo) : TypeInfo_neqb t t = false.
Proof. unfold TypeInfo_neqb. now rewrite String.eqb_refl. Qed.

Lemma TypeInfo_neqb_eqb (a b : TypeInfo) :
  TypeInfo_neqb a b = negb (TypeInfo_eqb a b).
Proof. reflexivity. Qed.

(** ** Equality of Variants *)

(** Variants of different signatures are unequal, whatever they hold. *)
Lemma IPCVariant_eqb_types_differ (v1 v2 : IPCVariant) :
  TypeInfo_eqb (type v1) (type v2) = false ->
  IPCVariant_eqb v1 v2 = Ok false.
Proof.
  intros H. destruct v1 as [arr dict num str ty]; simpl in *.
  unfold TypeInfo_neqb. unfold TypeInfo_eqb in H. now rewrite H.
Qed.

(** Comparing two Arrays, or two Structs, of one signature throws: the
    vector accessor that [operator==] goes through accepts only a Dict. *)
Lemma IPCVariant_eqb_sequence_throws (v1 v2 : IPCVariant) :
  TypeInfo_eqb (type v1) (type v2) = true ->
  is_sequence_kind (primaryType (type v1)) = true ->
  IPCVariant_eqb v1 v2 = Throw InvalidType0.
Proof.
  intros Heq Hk. destruct v1 as [arr dict num str ty]; simpl in *.
  unfold TypeInfo_neqb. unfold TypeInfo_eqb in Heq. rewrite Heq. simpl.
  unfold is_sequence_kind in Hk.
  destruct (primaryType ty) eqn:Hp; try discriminate Hk;
    unfold as_vector; simpl; rewrite Hp; reflexivity.
Qed.

(** *** A double made from an integer is not a NaN *)

Lemma shr_1_nonneg (mrs : shr_record) :
  (0 <= shr_m mrs)%Z -> (0 <= shr_m (shr_1 mrs))%Z.
Proof.
  destruct mrs as [m r s]. destruct m as [| p | p]; simpl; intros H;
    try lia; destruct p; simpl; lia.
Qed.

Lemma iter_shr_1_nonneg (p : positive) (mrs : shr_record) :
  (0 <= shr_m mrs)%Z -> (0 <= shr_m (SpecFloat.iter_pos shr_1 p mrs))%Z.
Proof.
  revert mrs. induction p as [p IH | p IH |]; intros mrs H; simpl.
  - apply IH, IH, shr_1_nonneg, H.
  - apply IH, IH, H.
  - apply shr_1_nonneg, H.
Qed.

Lemma shr_fexp_nonneg (prec emax m e : Z) (l : location) :
  (0 <= m)%Z -> (0 <= shr_m (fst (shr_fexp prec emax m e l)))%Z.
Proof.
  intros H. unfold shr_fexp, shr.
  assert (H0 : (0 <= shr_m (shr_record_of_loc m l))%Z)
    by (destruct l as [| []]; exact H).
  destruct (fexp prec emax (Zdigits2 m + e) - e)%Z; simpl; try exact H0.
  apply iter_shr_1_nonneg, H0.
Qed.

Lemma round_nearest_even_nonneg (m : Z) (l : location) :
  (0 <= m)%Z -> (0 <= round_nearest_even m l)%Z.
Proof.
  intros H. destruct l as [| []]; simpl; try lia.
  destruct (Z.even m); lia.
Qed.

Lemma binary_round_aux_not_nan (prec emax : Z) (sx : bool) (mx ex : Z) (l : location) :
  (0 <= mx)%Z -> binary_round_aux prec emax sx mx ex l <> S754_nan.
Proof.
  intros H. unfold binary_round_aux.
  pose proof (shr_fexp_nonneg prec emax mx ex l H) as H1.
  destruct (shr_fexp prec emax mx ex l) as [mrs' e']. simpl in H1.
  pose proof (shr_fexp_nonneg prec emax _ e' loc_Exact
                (round_nearest_even_nonneg _ (loc_of_shr_record mrs') H1)) as H2.
  destruct (shr_fexp prec emax (round_nearest_even (shr_m mrs') (loc_of_shr_record mrs'))
              e' loc_Exact) as [mrs'' e'']. simpl in H2.
  destruct (shr_m mrs'') as [| m | m]; try discriminate; [| lia].
  destruct (e'' <=? emax - prec)%Z; discriminate.
Qed.

Lemma double_of_Z_not_nan (z : Z) : double_of_Z z <> S754_nan.
Proof.
  unfold double_of_Z, binary_normalize.
  destruct z as [| m | m]; [discriminate | |]; unfold binary_round;
    destruct (shl_align _ _ _) as [mz ez]; apply binary_round_aux_not_nan; lia.
Qed.

Lemma SFeqb_refl (x : spec_float) : x <> S754_nan -> SFeqb x x = true.
Proof.
  intros H. unfold SFeqb, SFcompare.
  destruct x as [s | s | | s m e]; try reflexivity; try congruence.
  - destruct s; reflexivity.
  - rewrite Z.compare_refl, Pos.compare_cont_refl. destruct s; reflexivity.
Qed.

(** A Variant of a scalar or string kind, or of kind None, equals itself. *)
Lemma IPCVariant_eqb_refl_scalar (v : IPCVariant) :
  is_sequence_kind (primaryType (type v)) = false ->
  primaryType (type v) <> Ty.Dict ->
  IPCVariant_eqb v v = Ok true.
Proof.
  intros Hs Hd. destruct v as [arr dict num str ty]. unfold type in *. simpl in *.
  rewrite TypeInfo_neqb_refl.
  destruct (primaryType ty) eqn:Hp; try discriminate Hs; try congruence;
    unfold as_int16, as_uint16, as_int32, as_uint32, as_int64, as_uint64,
      as_double, as_uint8, as_string, as_bool, NUM_TYPE_get; simpl; rewrite Hp; simpl;
    rewrite ?Z.eqb_refl, ?String.eqb_refl, ?eqb_reflx; try reflexivity.
  f_equal. apply SFeqb_refl, double_of_Z_not_nan.
Qed.

(** C1 (the code departs from the claim): the Variant that [Device::IPC]
    stores as its [features] property, an empty Array of strings built by
    the checked constructor, is not equal to itself: comparing it with
    itself raises InvalidType. *)
Theorem C1_array_compared_with_itself_throws :
  IPCVariant_vector [] (type_of_string "as") = Ok sample_features /\
  primaryType (type sample_features) = Ty.Array /\
  IPCVariant_eqb sample_features sample_features = Throw InvalidType0.
Proof. repeat split; vm_compute; reflexivity. Qed.

(** ** Typed accessors *)

Lemma NUM_TYPE_get_guarded {A : Type} (t : Ty.Type_) (cast : Z -> A)
    (v : IPCVariant) :
  guarded (NUM_TYPE_get t cast) [t] (fun v => cast (_num_data v)) v.
Proof.
  unfold guarded, NUM_TYPE_get, type.
  destruct (Ty.eqb (primaryType (_type v)) t) eqn:E; simpl.
  - left. apply Ty_eqb_eq in E. split; [now left | reflexivity].
  - right. apply Ty_eqb_neq in E. split; [| reflexivity].
    intros [H | []]. congruence.
Qed.

Lemma as_string_guarded (v : IPCVariant) :
  guarded as_string [Ty.String; Ty.Signature; Ty.ObjectPath] _string_data v.
Proof.
  unfold guarded, as_string, type.
  destruct (primaryType (_type v)); simpl;
    first [ left; split; [tauto | reflexivity]
          | right; split; [intros H; repeat destruct H as [H | H]; discriminate || tauto
                          | reflexivity] ].
Qed.

Lemma as_dict_guarded (v : IPCVariant) : guarded as_dict [Ty.Dict] _dict v.
Proof.
  unfold guarded, as_dict, type.
  destruct (Ty.eqb (primaryType (_type v)) Ty.Dict) eqn:E; simpl.
  - left. apply Ty_eqb_eq in E. split; [now left | reflexivity].
  - right. apply Ty_eqb_neq in E. split; [| reflexivity].
    intros [H | []]. congruence.
Qed.

(** The boolean accessor throws for no Variant. *)
Lemma as_bool_total (v : IPCVariant) :
  as_bool v = Ok (Ty.eqb (primaryType (type v)) Ty.Boolean
                  && negb (_num_data v =? 0)%Z).
Proof.
  unfold as_bool, type.
  destruct (Ty.eqb (primaryType (_type v)) Ty.Boolean); reflexivity.
Qed.

(** C4 (counterexample): a String Variant read through the boolean
    accessor gives [false]; no InvalidType is raised although the kind
    does not match. *)
Lemma C4_bool_accessor_does_not_throw :
  primaryType (type sample_name) <> Ty.Boolean /\
  as_bool sample_name = Ok false /\
  ~ raises_InvalidType (as_bool sample_name).
Proof.
  split; [vm_compute; discriminate |].
  split; [reflexivity |].
  intros [what H]. vm_compute in H. discriminate H.
Qed.

(** C4 (amended): every accessor to a numeric type, to a string and to a
    dict throws InvalidType exactly when the primary kind is not the one
    (for strings: one of the three) it reads, and otherwise returns the
    stored slot in the requested C type, the number taken modulo the width
    of that type.  The boolean accessor never throws: it returns [false]
    for a Variant that is not a Boolean, and otherwise whether the stored
    number is non-zero. *)
Theorem C4_typed_accessors (v : IPCVariant) :
  guarded as_int16 [Ty.Int16] (fun v => int16_t (_num_data v)) v /\
  guarded as_uint16 [Ty.UInt16] (fun v => uint16_t (_num_data v)) v /\
  guarded as_int32 [Ty.Int32] (fun v => int32_t (_num_data v)) v /\
  guarded as_uint32 [Ty.UInt32] (fun v => uint32_t (_num_data v)) v /\
  guarded as_int64 [Ty.Int64] (fun v => int64_t (_num_data v)) v /\
  guarded as_uint64 [Ty.UInt64] (fun v => uint64_t (_num_data v)) v /\
  guarded as_double [Ty.Double] (fun v => double_of_Z (_num_data v)) v /\
  guarded as_uint8 [Ty.Byte] (fun v => uint8_t (_num_data v)) v /\
  guarded as_string [Ty.String; Ty.Signature; Ty.ObjectPath] _string_data v /\
  guarded as_dict [Ty.Dict] _dict v /\
  as_bool v = Ok (Ty.eqb (primaryType (type v)) Ty.Boolean
                  && negb (_num_data v =? 0)%Z).
Proof.
  repeat split;
    first [ apply NUM_TYPE_get_guarded | apply as_string_guarded
          | apply as_dict_guarded | apply as_bool_total ].
Qed.

(** ** Translation to the wire format *)

(** *** The scalar kinds survive the round trip *)

Lemma uint_cast_uint64 (w z : Z) : (0 <= w <= 64)%Z ->
  uint_cast w (uint64_t z) = uint_cast w z.
Proof.
  intros Hw. unfold uint64_t, uint_cast.
  replace (2 ^ 64)%Z with (2 ^ w * 2 ^ (64 - w))%Z
    by (rewrite <- Z.pow_add_r by lia; f_equal; lia).
  assert (0 < 2 ^ w)%Z by (apply Z.pow_pos_nonneg; lia).
  assert (0 < 2 ^ (64 - w))%Z by (apply Z.pow_pos_nonneg; lia).
  rewrite Z.rem_mul_r by lia.
  rewrite Z.mul_comm, Z.mod_add by lia.
  now rewrite Z.mod_mod by lia.
Qed.

Lemma uint_cast_uint_cast (w z : Z) : (0 <= w)%Z ->
  uint_cast w (uint_cast w z) = uint_cast w z.
Proof.
  intros Hw. unfold uint_cast.
  assert (0 < 2 ^ w)%Z by (apply Z.pow_pos_nonneg; lia).
  now rewrite Z.mod_mod by lia.
Qed.

Lemma sint_cast_uint64 (w z : Z) : (0 <= w <= 64)%Z ->
  sint_cast w (uint64_t z) = sint_cast w z.
Proof.
  intros Hw. unfold sint_cast.
  change ((uint64_t z) mod 2 ^ w)%Z with (uint_cast w (uint64_t z)).
  rewrite uint_cast_uint64 by lia. reflexivity.
Qed.

Lemma sint_cast_sint_cast (w z : Z) : (0 <= w)%Z ->
  sint_cast w (sint_cast w z) = sint_cast w z.
Proof.
  intros Hw. unfold sint_cast.
  assert (0 < 2 ^ w)%Z by (apply Z.pow_pos_nonneg; lia).
  pose proof (Z.mod_pos_bound z (2 ^ w) ltac:(lia)).
  destruct (z mod 2 ^ w <? 2 ^ (w - 1))%Z eqn:E.
  - rewrite Z.mod_mod by lia. now rewrite E.
  - replace ((z mod 2 ^ w - 2 ^ w) mod 2 ^ w)%Z with (z mod 2 ^ w)%Z.
    + now rewrite E.
    + rewrite <- (Z.mod_add (z mod 2 ^ w - 2 ^ w) 1 (2 ^ w)) by lia.
      rewrite Z.mul_1_l, Z.sub_add. now rewrite Z.mod_mod by lia.
Qed.

Ltac casts :=
  unfold int16_t, uint16_t, int32_t, uint32_t, int64_t, uint8_t;
  repeat first [ rewrite sint_cast_uint64 by lia
               | rewrite uint_cast_uint64 by lia
               | rewrite sint_cast_sint_cast by lia
               | rewrite uint_cast_uint_cast by lia ];
  unfold uint64_t;
  repeat rewrite uint_cast_uint_cast by lia;
  rewrite ?Z.eqb_refl; try reflexivity.

Ltac roundtrip_case :=
  do 2 eexists; split; [reflexivity |]; split; [reflexivity |];
  split; [| reflexivity];
  cbn -[int16_t uint16_t int32_t uint32_t int64_t uint64_t uint8_t Z.eqb];
  casts.

Lemma roundtrips_numeric (glib : GLib) (x : Z) (b : bool) :
  roundtrips glib (IPCVariant_int16 x) /\
  roundtrips glib (IPCVariant_uint16 x) /\
  roundtrips glib (IPCVariant_int32 x) /\
  roundtrips glib (IPCVariant_uint32 x) /\
  roundtrips glib (IPCVariant_int64 x) /\
  roundtrips glib (IPCVariant_uint64 x) /\
  roundtrips glib (IPCVariant_uint8 x) /\
  roundtrips glib (IPCVariant_bool b).
Proof.
  unfold roundtrips, roundtrip.
  repeat split; try roundtrip_case.
  all: try (destruct b; do 2 eexists; repeat split; reflexivity).
Qed.

(** A string does not come back from the wire: the count that
    [translateGVariant] hands to [std::string] has no initializer, and
    nothing orders the call that writes it before the read.  So a String, a
    Signature or an ObjectPath that went out never returns. *)
Lemma translateGVariant_string (s : string) :
  translateGVariant (GV_string s) = Fault UninitializedRead /\
  translateGVariant (GV_signature s) = Fault UninitializedRead /\
  translateGVariant (GV_object_path s) = Fault UninitializedRead.
Proof. repeat split. Qed.

Lemma roundtrip_string (glib : GLib) (s : string) (k : Ty.Type_) (v : IPCVariant) :
  IPCVariant_string s k = Ok v ->
  ~ returns (roundtrip glib v).
Proof.
  unfold IPCVariant_string, roundtrip, returns. intros Hv [v' Hr].
  destruct k; simpl in Hv; try discriminate Hv;
    injection Hv as <-; cbn -[c_str] in Hr;
    unfold g_variant_new_string, g_variant_new_signature,
      g_variant_new_object_path in Hr;
    match type of Hr with
    | context [if ?c then _ else _] => destruct c
    end; discriminate Hr.
Qed.

(** No Array and no Struct reaches GLib: [toGVariant] throws at the cast
    that opens either case. *)
Lemma toGVariant_sequence_throws (glib : GLib) (v : IPCVariant) :
  is_sequence_kind (primaryType (type v)) = true ->
  toGVariant glib v = Throw InvalidType0.
Proof.
  intros Hk. destruct v as [arr dict num str ty]; simpl in *.
  unfold is_sequence_kind in Hk.
  destruct (primaryType ty) eqn:Hp; try discriminate Hk;
    unfold as_vector; simpl; rewrite Hp; reflexivity.
Qed.

(** C5 (the code departs from the claim): the [dpis] value of [DPI::IPC],
    an Array of Structs built by the checked constructors, has no wire
    form: [toGVariant] raises InvalidType on it, whatever GLib does, so
    there is nothing to translate back. *)
Theorem C5_array_of_struct_has_no_wire_form (glib : GLib) :
  IPCVariant_vector [sample_dpi_entry] (type_of_string "a(aqb)") = Ok sample_dpis /\
  children_match sample_dpis = true /\
  toGVariant glib sample_dpis = Throw InvalidType0.
Proof.
  split; [vm_compute; reflexivity |].
  split; [vm_compute; reflexivity |].
  apply toGVariant_sequence_throws. vm_compute. reflexivity.
Qed.

(** ** Whole-object assignment *)

Lemma TypeInfo_assign_eq (a b : TypeInfo) : TypeInfo_assign a b = b.
Proof. destruct a, b; reflexivity. Qed.

Lemma IPCVariant_assign_eq (a b : IPCVariant) : IPCVariant_assign a b = b.
Proof.
  destruct a, b; unfold IPCVariant_assign; simpl.
  now rewrite TypeInfo_assign_eq.
Qed.

(** A typed assignment, whether it succeeds or throws, leaves the type
    as it was. *)
Lemma NUM_TYPE_assign_type (t : Ty.Type_) (v : IPCVariant) (n : Z) :
  type (value_of (NUM_TYPE_assign t v n) v) = type v.
Proof.
  unfold NUM_TYPE_assign.
  destruct (negb (Ty.eqb (primaryType (_type v)) t)); reflexivity.
Qed.

(** C9: whole-object assignment [a = b] is a plain copy of every member of
    [b]: it cannot fail, nothing is checked, and afterwards the
    TypeSignature of [a] is that of [b].  So it can change the type of a
    Variant (a UInt16 becomes a String), which no typed assignment does. *)
Theorem C9_whole_object_assignment (a b : IPCVariant) :
  IPCVariant_assign a b = b /\
  type (IPCVariant_assign a b) = type b /\
  TypeInfo_eqb (type (IPCVariant_assign a b)) (type b) = true /\
  (typeSignature (type sample_pid) = "q" /\
   typeSignature (type (IPCVariant_assign sample_pid sample_name)) = "s") /\
  type (value_of (assign_uint16 a 7) a) = type a /\
  type (value_of (assign_string a "x") a) = type a /\
  type (value_of (assign_vector a (_array b)) a) = type a /\
  type (value_of (assign_dict a (_dict b)) a) = type a.
Proof.
  rewrite IPCVariant_assign_eq.
  split; [reflexivity |]. split; [reflexivity |].
  split; [apply TypeInfo_eqb_refl |].
  split; [split; reflexivity |].
  split; [apply NUM_TYPE_assign_type |].
  split; [unfold assign_string;
          destruct (negb (is_string_kind (primaryType (_type a)))); reflexivity |].
  split.
  - unfold assign_vector.
    match goal with |- context [bind ?m _] => destruct m end; reflexivity.
  - unfold assign_dict.
    destruct (negb (Ty.eqb (primaryType (_type a)) Ty.Dict)); [reflexivity |].
    destruct (dictType (_type a)) as [kv | |]; simpl; try reflexivity.
    destruct (check_dict_entries (_dict b) (fst kv) (snd kv)); reflexivity.
Qed.

(** ** Signals of an interface that is not registered *)

(** C10: on an Interface that is bound to no Server, [emitSignal] returns
    normally and changes nothing, for every signal name and every argument
    list: the test of [_server] comes before the signal is looked up and
    before the arguments are counted or typed. *)
Theorem C10_emitSignal_unregistered (glib : GLib) (w : World glib) (this : nat)
    (i : IPCInterface) (signal : string) (args_ : IPCFunctionArgs) :
  interfaces w !! this = Some i ->
  _server i = None ->
  IPCInterface_emitSignal glib this signal args_ w = (w, Ok tt).
Proof.
  intros Hi Hs. unfold IPCInterface_emitSignal, mbind, load.
  rewrite Hi, Hs. reflexivity.
Qed.

(** An undeclared signal with an argument, on the unregistered sample. *)
Lemma C10_emitSignal_unregistered_witness :
  _signals sample_interface !! "nosuch" = None /\
  IPCInterface_emitSignal failing_bus 1 "nosuch" [sample_pid] world_unregistered
  = (world_unregistered, Ok tt).
Proof.
  split; [vm_compute; reflexivity |].
  apply (C10_emitSignal_unregistered failing_bus world_unregistered 1 sample_interface);
    vm_compute; reflexivity.
Defined.

(** ** Registration *)

(** C7 (counterexample): the transport refuses the registration and
    returns the id 0, its failure result; [registerInterface] returns
    normally all the same and the registry holds an entry for the node and
    name, with id 0. *)
Lemma C7_failed_registration_is_recorded :
  snd (g_dbus_connection_register_object failing_bus tt
         (c_str (_node sample_interface)) (_makeInterfaceInfo sample_interface))
  = 0%nat /\
  snd (IPCServer_registerInterface failing_bus 1 world_unregistered) = Ok tt /\
  registered (fst (IPCServer_registerInterface failing_bus 1 world_unregistered))
    (_node sample_interface) (_name sample_interface)
  = Some {| interface := 1; registrationId := 0;
            info := _makeInterfaceInfo sample_interface |}.
Proof. repeat split; vm_compute; reflexivity. Qed.

(** C7 (amended): [registerInterface] never fails on an interface object
    that exists.  It asks the transport once to register the object and
    records, under the interface's node and name, the interface, the
    registration id that the transport returned (0 when the transport
    refused) and the introspection data; the interface objects themselves
    and the log are untouched. *)
Theorem C7_registerInterface_records_whatever_the_transport_says
    (glib : GLib) (w : World glib) (this : nat) (i : IPCInterface) :
  interfaces w !! this = Some i ->
  exists w',
    IPCServer_registerInterface glib this w = (w', Ok tt) /\
    registered w' (_node i) (_name i)
    = Some {| interface := this;
              registrationId :=
                snd (g_dbus_connection_register_object glib (_connection (server w))
                       (c_str (_node i)) (_makeInterfaceInfo i));
              info := _makeInterfaceInfo i |} /\
    _connection (server w')
    = fst (g_dbus_connection_register_object glib (_connection (server w))
             (c_str (_node i)) (_makeInterfaceInfo i)) /\
    interfaces w' = interfaces w /\
    log w' = log w.
Proof.
  intros Hi.
  unfold IPCServer_registerInterface, mbind, load, get_server, put_server.
  rewrite Hi. eexists. split; [reflexivity |].
  unfold registered. simpl.
  rewrite lookup_insert_eq. simpl. rewrite lookup_insert_eq.
  repeat split.
Qed.

Lemma C7_registerInterface_witness :
  exists w',
    IPCServer_registerInterface failing_bus 1 world_unregistered = (w', Ok tt) /\
    registered w' (_node sample_interface) (_name sample_interface)
    = Some {| interface := 1;
              registrationId :=
                snd (g_dbus_connection_register_object failing_bus
                       (_connection (server world_unregistered))
                       (c_str (_node sample_interface))
                       (_makeInterfaceInfo sample_interface));
              info := _makeInterfaceInfo sample_interface |} /\
    _connection (server w')
    = fst (g_dbus_connection_register_object failing_bus
             (_connection (server world_unregistered))
             (c_str (_node sample_interface))
             (_makeInterfaceInfo sample_interface)) /\
    interfaces w' = interfaces world_unregistered /\
    log w' = log world_unregistered.
Proof.
  apply (C7_registerInterface_records_whatever_the_transport_says
           failing_bus world_unregistered 1 sample_interface).
  vm_compute. reflexivity.
Defined.

(** ** Emitting a signal *)

(** C8 (counterexample): the status signal of a registered interface,
    rejected by the transport.  The Server's [emitSignal] does not return
    normally, it throws [std::runtime_error], and so does the Interface's. *)
Lemma C8_rejected_broadcast_throws :
  snd (IPCServer_emitSignal failing_bus 1 "status"
         [value_of (IPCVariant_bool true) IPCVariant_default] world_failing)
  = Throw (runtime_error "signal broadcast failed") /\
  snd (IPCInterface_emitSignal failing_bus 1 "status"
         [value_of (IPCVariant_bool true) IPCVariant_default] world_failing)
  = Throw (runtime_error "signal broadcast failed").
Proof. split; vm_compute; reflexivity. Qed.

(** C8 (amended): when the parameters translate and the transport rejects
    the broadcast, the Server's [emitSignal] throws
    [std::runtime_error("signal broadcast failed")] to the emitting
    Interface.  The transport was asked once, nothing was written to the
    log, and the registry and the interface objects are as before.  The
    Interface's own [emitSignal], when the Interface is registered and its
    checks of the signal pass, lets the exception through to its caller. *)
Theorem C8_rejected_broadcast_is_thrown (glib : GLib) (w : World glib)
    (this : nat) (i : IPCInterface) (signal : string)
    (params : IPCFunctionArgs) (gs : list GVariant) :
  interfaces w !! this = Some i ->
  toGVariant_each glib params = Ok gs ->
  snd (g_dbus_connection_emit_signal glib (_connection (server w))
         (c_str (_node i)) (c_str (_name i)) (c_str signal)
         (signal_parameters params gs)) = false ->
  exists w',
    IPCServer_emitSignal glib this signal params w
    = (w', Throw (runtime_error "signal broadcast failed")) /\
    _connection (server w')
    = fst (g_dbus_connection_emit_signal glib (_connection (server w))
             (c_str (_node i)) (c_str (_name i)) (c_str signal)
             (signal_parameters params gs)) /\
    _nodes (server w') = _nodes (server w) /\
    interfaces w' = interfaces w /\
    log w' = log w /\
    forall declared : IPCArgsInfo,
      _server i = Some the_server ->
      _signals i !! signal = Some declared ->
      length declared = length params ->
      check_signal_args params declared = Ok tt ->
      IPCInterface_emitSignal glib this signal params w
      = (w', Throw (runtime_error "signal broadcast failed")).
Proof.
  intros Hi Hg Hr.
  assert (Hsrv : exists w',
    IPCServer_emitSignal glib this signal params w
    = (w', Throw (runtime_error "signal broadcast failed")) /\
    _connection (server w')
    = fst (g_dbus_connection_emit_signal glib (_connection (server w))
             (c_str (_node i)) (c_str (_name i)) (c_str signal)
             (signal_parameters params gs)) /\
    _nodes (server w') = _nodes (server w) /\
    interfaces w' = interfaces w /\
    log w' = log w).
  { unfold IPCServer_emitSignal, mbind, lift, load, get_server, put_server.
    destruct params as [| p params'].
    - simpl in *. rewrite Hi. simpl. rewrite Hr. simpl.
      eexists. repeat split.
    - rewrite Hg. simpl. rewrite Hi. simpl in *.
      unfold g_variant_new_tuple. rewrite Hr. simpl.
      eexists. repeat split. }
  destruct Hsrv as (w' & Hsrv & Hc & Hn & Hif & Hl).
  exists w'. repeat (split; [assumption |]).
  intros declared Hs Hd Hlen Hchk.
  unfold IPCInterface_emitSignal, mbind, load, lift.
  rewrite Hi. simpl. rewrite Hs. unfold IPCArgsInfo in *.
  rewrite Hd, Hlen, Nat.eqb_refl. simpl.
  rewrite Hchk. exact Hsrv.
Qed.

(** The status signal of the registered sample, with its boolean. *)
Lemma C8_rejected_broadcast_witness :
  exists w',
    IPCServer_emitSignal failing_bus 1 "status"
      [value_of (IPCVariant_bool true) IPCVariant_default] world_failing
    = (w', Throw (runtime_error "signal broadcast failed")) /\
    IPCInterface_emitSignal failing_bus 1 "status"
      [value_of (IPCVariant_bool true) IPCVariant_default] world_failing
    = (w', Throw (runtime_error "signal broadcast failed")) /\
    log w' = log world_failing.
Proof.
  destruct (C8_rejected_broadcast_is_thrown failing_bus world_failing 1
              (set_server sample_interface (Some the_server)) "status"
              [value_of (IPCVariant_bool true) IPCVariant_default]
              [GV_boolean true])
    as (w' & Hserver & _ & _ & _ & Hlog & Hinterface);
    try (vm_compute; reflexivity).
  exists w'. split; [exact Hserver |]. split; [| exact Hlog].
  apply (Hinterface [("asleep", type_of_string "b")]); vm_compute; reflexivity.
Defined.

(** ** Writing a property over the bus *)

(** C2 (the code departs from the claim): the [pid] property of a device
    is declared readable and not writable.  A write of the uint16 5 over
    the bus sets the AccessDenied error, and then still calls [setProperty]
    and returns [true]: the stored value is the new one. *)
Theorem C2_write_to_read_only_property_is_performed :
  registered world_device "/pizza/pixl/logiops/device/0" "pizza.pixl.logiops.Device"
  = Some {| interface := 1; registrationId := 1;
            info := _makeInterfaceInfo (set_server sample_device (Some the_server)) |} /\
  stored_property world_device 1 "pid"
  = Some {| property := sample_pid; ptype := type_of_string "q";
            readable := true; writable := false |} /\
  snd (gdbus_set_property open_bus "/pizza/pixl/logiops/device/0"
         "pizza.pixl.logiops.Device" "pid" (GV_uint16 5) None
         (Some the_server) world_device)
  = Ok (true, Some (G_DBUS_ERROR_ACCESS_DENIED, "Property not writable")) /\
  stored_property
    (fst (gdbus_set_property open_bus "/pizza/pixl/logiops/device/0"
            "pizza.pixl.logiops.Device" "pid" (GV_uint16 5) None
            (Some the_server) world_device)) 1 "pid"
  = Some {| property := value_of (IPCVariant_uint16 5) IPCVariant_default;
            ptype := type_of_string "q";
            readable := true; writable := false |} /\
  as_uint16 sample_pid = Ok 16514%Z /\
  as_uint16 (value_of (IPCVariant_uint16 5) IPCVariant_default) = Ok 5%Z.
Proof.
  repeat match goal with |- _ /\ _ => split end; reflexivity.
Qed.

(** ** The invariant of composite Variants *)

Lemma check_array_elements_spec (array : list IPCVariant) (t e : TypeInfo) :
  ti_type t = Ty.Array ->
  ti_array_type t = Some e ->
  check_array_elements array t
  = if forallb (fun c => TypeInfo_eqb (type c) e) array then Ok tt
    else Throw InvalidType0.
Proof.
  intros Ht He. induction array as [| c array IH]; [reflexivity |].
  simpl. unfold arrayType. rewrite Ht, He. simpl.
  rewrite TypeInfo_neqb_eqb.
  destruct (TypeInfo_eqb (type c) e); simpl; [exact IH | reflexivity].
Qed.

Lemma check_elements_against_spec (array : list IPCVariant) (e : TypeInfo) :
  check_elements_against array e
  = if forallb (fun c => TypeInfo_eqb (type c) e) array then Ok tt
    else Throw InvalidType0.
Proof.
  induction array as [| c array IH]; [reflexivity |].
  simpl. rewrite TypeInfo_neqb_eqb.
  destruct (TypeInfo_eqb (type c) e); simpl; [exact IH | reflexivity].
Qed.

Lemma check_struct_fields_spec (array : list IPCVariant) (format : list TypeInfo) :
  (if negb (length array =? length format)%nat then Throw InvalidType0
   else check_struct_fields array format)
  = if fields_match array format then Ok tt else Throw InvalidType0.
Proof.
  revert format. induction array as [| c array IH]; intros [| f format];
    try reflexivity.
  specialize (IH format). simpl.
  destruct (length array =? length format)%nat eqn:E; simpl in *.
  - rewrite TypeInfo_neqb_eqb.
    destruct (TypeInfo_eqb (type c) f); simpl; [exact IH | reflexivity].
  - destruct (fields_match array format); [discriminate IH |].
    now rewrite andb_false_r.
Qed.

Lemma check_dict_entries_spec (dict : IPCVariantDict) (k e : TypeInfo) :
  check_dict_entries dict k e
  = if forallb (fun kv => TypeInfo_eqb (type (fst kv)) k
                          && TypeInfo_eqb (type (snd kv)) e) dict
    then Ok tt else Throw InvalidType0.
Proof.
  induction dict as [| [key val] dict IH]; [reflexivity |].
  simpl. rewrite !TypeInfo_neqb_eqb.
  destruct (TypeInfo_eqb (type key) k); simpl; [| reflexivity].
  destruct (TypeInfo_eqb (type val) e); simpl; [exact IH | reflexivity].
Qed.

Lemma check_vector_spec (array : list IPCVariant) (v : IPCVariant) :
  pointers_set (type v) = true ->
  check_vector array (type v)
  = if is_sequence_kind (primaryType (type v))
       && children_match (with_array v array)
    then Ok tt else Throw InvalidType0.
Proof.
  intros Hp. unfold check_vector, is_sequence_kind, children_match, pointers_set in *.
  unfold with_array, type, primaryType in *. simpl.
  destruct (ti_type (_type v)) eqn:Ht; simpl; try reflexivity.
  - apply bool_decide_eq_true in Hp. destruct Hp as [e He].
    rewrite (check_array_elements_spec array (_type v) e Ht He), He.
    reflexivity.
  - unfold structFormat. rewrite Ht. simpl. apply check_struct_fields_spec.
Qed.

Lemma assign_vector_spec (array : list IPCVariant) (v : IPCVariant) :
  pointers_set (type v) = true ->
  assign_vector v array
  = if is_sequence_kind (primaryType (type v))
       && children_match (with_array v array)
    then Ok (with_array v array) else Throw InvalidType0.
Proof.
  intros Hp. unfold assign_vector, is_sequence_kind, children_match, pointers_set in *.
  unfold with_array, type, primaryType, arrayType, structFormat in *. simpl.
  destruct (ti_type (_type v)) eqn:Ht; simpl; try reflexivity.
  - apply bool_decide_eq_true in Hp. destruct Hp as [e He].
    rewrite He. simpl. rewrite check_elements_against_spec.
    destruct (forallb _ array); reflexivity.
  - rewrite check_struct_fields_spec.
    destruct (fields_match array _); reflexivity.
Qed.

Lemma check_dict_spec (dict : IPCVariantDict) (v : IPCVariant) :
  pointers_set (type v) = true ->
  primaryType (type v) = Ty.Dict ->
  exists kv, dictType (type v) = Ok kv /\
    check_dict_entries dict (fst kv) (snd kv)
    = if children_match (with_dict v dict) then Ok tt else Throw InvalidType0.
Proof.
  intros Hp Hk. unfold children_match, pointers_set, dictType in *.
  unfold with_dict, type, primaryType in *. simpl. rewrite Hk in *. simpl.
  apply andb_true_iff in Hp. destruct Hp as [H1 H2].
  apply bool_decide_eq_true in H1, H2.
  destruct H1 as [k Hk1], H2 as [e He]. rewrite Hk1, He.
  exists (k, e). split; [reflexivity |]. apply check_dict_entries_spec.
Qed.

(** C6 (counterexample): keyed access to a Dict from strings to UInt32
    that has no entries, with a UInt16 key.  Nothing is thrown; the Dict
    now has an entry whose key is the UInt16 and whose value is a Variant of
    kind None, so the invariant no longer holds. *)
Lemma C6_keyed_access_breaks_the_invariant :
  IPCVariant_dict [] (type_of_string "{su}") = Ok sample_empty_dict /\
  children_match sample_empty_dict = true /\
  subscript_key sample_empty_dict sample_pid
  = Ok (with_dict sample_empty_dict [(sample_pid, IPCVariant_default)], 0%nat) /\
  children_match (with_dict sample_empty_dict [(sample_pid, IPCVariant_default)])
  = false.
Proof. repeat split; vm_compute; reflexivity. Qed.

(** C6 (amended): for a TypeInfo as the parser builds it, construction
    from a vector or from a dict, and typed assignment of a vector or of a
    dict, succeed exactly when the kind is Array or Struct (for a dict:
    Dict) and every child, slot or entry has the declared type; the result
    then holds the given children unchanged under the unchanged type, so
    the invariant holds of it; in every other case InvalidType is thrown
    and, for an assignment, the Variant stays as it was.  Keyed access to
    a Dict is not checked: on a Dict without entries it inserts an entry
    for the key as given, with a default-constructed value. *)
Theorem C6_checked_construction_and_assignment (t : TypeInfo) (v key : IPCVariant)
    (array : list IPCVariant) (dict : IPCVariantDict) :
  pointers_set t = true ->
  type v = t ->
  checked (IPCVariant_vector array t) (is_sequence_kind (primaryType t))
    (mkIPCVariant array [] 0 "" t) /\
  checked (IPCVariant_dict dict t) (Ty.eqb (primaryType t) Ty.Dict)
    (mkIPCVariant [] dict 0 "" t) /\
  checked (assign_vector v array) (is_sequence_kind (primaryType t))
    (with_array v array) /\
  checked (assign_dict v dict) (Ty.eqb (primaryType t) Ty.Dict)
    (with_dict v dict) /\
  (primaryType t = Ty.Dict -> _dict v = [] ->
   subscript_key v key = Ok (with_dict v [(key, IPCVariant_default)], 0%nat)).
Proof.
  intros Hp Hv. subst t. unfold checked.
  assert (Hvec : forall w, type w = type v ->
            (_ <- check_vector array (type v) ;; Ok (with_array w array))
            = if is_sequence_kind (primaryType (type v))
                 && children_match (with_array w array)
              then Ok (with_array w array) else Throw InvalidType0).
  { intros w Hw. rewrite <- Hw in *. rewrite (check_vector_spec array w Hp).
    destruct (is_sequence_kind (primaryType (type w))
              && children_match (with_array w array)); reflexivity. }
  assert (Hdict : forall w, type w = type v ->
            primaryType (type v) = Ty.Dict ->
            (kv <- dictType (type v) ;;
             _ <- check_dict_entries dict (fst kv) (snd kv) ;;
             Ok (with_dict w dict))
            = if children_match (with_dict w dict)
              then Ok (with_dict w dict) else Throw InvalidType0).
  { intros w Hw Hk. rewrite <- Hw in *.
    destruct (check_dict_spec dict w Hp Hk) as (kv & -> & Hc). simpl.
    rewrite Hc. destruct (children_match (with_dict w dict)); reflexivity. }
  repeat split.
  - exact (Hvec (mkIPCVariant array [] 0 "" (type v)) eq_refl).
  - unfold IPCVariant_dict.
    destruct (Ty.eqb (primaryType (type v)) Ty.Dict) eqn:E; simpl; [| reflexivity].
    apply Ty_eqb_eq in E.
    destruct dict as [| entry dict'].
    + unfold children_match, type. simpl. unfold type, primaryType in E.
      unfold primaryType. now rewrite E.
    + exact (Hdict (mkIPCVariant [] (entry :: dict') 0 "" (type v)) eq_refl E).
  - apply (assign_vector_spec array v Hp).
  - unfold assign_dict.
    change (_type v) with (type v).
    destruct (Ty.eqb (primaryType (type v)) Ty.Dict) eqn:E; simpl; [| reflexivity].
    apply Ty_eqb_eq in E. exact (Hdict v eq_refl E).
  - intros Hk Hd. unfold subscript_key. change (_type v) with (type v).
    rewrite Hk, Hd. reflexivity.
Qed.

Lemma C6_checked_construction_and_assignment_witness :
  checked (IPCVariant_vector [sample_name; sample_pid] (type_of_string "(sq)"))
    (is_sequence_kind (primaryType (type_of_string "(sq)")))
    (mkIPCVariant [sample_name; sample_pid] [] 0 "" (type_of_string "(sq)")) /\
  checked (IPCVariant_dict [(sample_name, sample_pid)] (type_of_string "(sq)"))
    (Ty.eqb (primaryType (type_of_string "(sq)")) Ty.Dict)
    (mkIPCVariant [] [(sample_name, sample_pid)] 0 "" (type_of_string "(sq)")) /\
  checked (assign_vector (mkIPCVariant [] [] 0 "" (type_of_string "(sq)"))
             [sample_name; sample_pid])
    (is_sequence_kind (primaryType (type_of_string "(sq)")))
    (with_array (mkIPCVariant [] [] 0 "" (type_of_string "(sq)"))
       [sample_name; sample_pid]) /\
  checked (assign_dict (mkIPCVariant [] [] 0 "" (type_of_string "(sq)"))
             [(sample_name, sample_pid)])
    (Ty.eqb (primaryType (type_of_string "(sq)")) Ty.Dict)
    (with_dict (mkIPCVariant [] [] 0 "" (type_of_string "(sq)"))
       [(sample_name, sample_pid)]) /\
  (primaryType (type_of_string "(sq)") = Ty.Dict ->
   _dict (mkIPCVariant [] [] 0 "" (type_of_string "(sq)")) = [] ->
   subscript_key (mkIPCVariant [] [] 0 "" (type_of_string "(sq)")) sample_pid
   = Ok (with_dict (mkIPCVariant [] [] 0 "" (type_of_string "(sq)"))
           [(sample_pid, IPCVariant_default)], 0%nat)).
Proof.
  apply (C6_checked_construction_and_assignment (type_of_string "(sq)")
           (mkIPCVariant [] [] 0 "" (type_of_string "(sq)")) sample_pid
           [sample_name; sample_pid] [(sample_name, sample_pid)]);
    vm_compute; reflexivity.
Defined.

(** ** The signature parser *)

(** *** Substrings *)

Lemma append_cons (c : ascii) (a b : string) :
  String c a ++ b = String c (a ++ b).
Proof. reflexivity. Qed.

Lemma substr_zero_len (s : string) (i : nat) : substr s i 0 = "".
Proof.
  revert i. induction s as [| c s IH]; intros [| i]; try reflexivity.
  simpl. apply IH.
Qed.

Lemma substr_full (s : string) : substr s 0 (size s) = s.
Proof.
  induction s as [| c s IH]; [reflexivity |].
  unfold substr, size in *. simpl. now rewrite IH.
Qed.

Lemma substr_step (s : string) (i k : nat) :
  (i < size s)%nat ->
  substr s i (S k) = String (str_at s i) (substr s (S i) k).
Proof.
  revert i. induction s as [| c s IH]; intros i Hi; [simpl in Hi; lia |].
  destruct i as [| i]; [reflexivity |].
  unfold substr in *. simpl. rewrite IH by (unfold size in *; simpl in Hi; lia).
  reflexivity.
Qed.

Lemma substr_split (s : string) (i a b : nat) :
  substr s i (a + b) = substr s i a ++ substr s (i + a) b.
Proof.
  revert i a. induction s as [| c s IH]; intros i a.
  - destruct i, a, b; reflexivity.
  - destruct i as [| i].
    + destruct a as [| a]; [reflexivity |].
      unfold substr in *. simpl. rewrite append_cons. f_equal. apply (IH 0%nat a).
    + unfold substr in *. simpl. apply IH.
Qed.

Lemma substr_size (s : string) (i n : nat) :
  (size (substr s i n) <= size s - i)%nat /\ (size (substr s i n) <= n)%nat.
Proof.
  revert i n. induction s as [| c s IH]; intros i n.
  - destruct i, n; simpl; lia.
  - destruct i as [| i].
    + destruct n as [| n]; [simpl; lia |].
      unfold substr, size in *. simpl. specialize (IH 0%nat n). lia.
    + unfold substr, size in *. simpl. apply IH.
Qed.

Lemma substr_forallb (p : ascii -> bool) (s : string) (i n : nat) :
  str_forallb p s = true -> str_forallb p (substr s i n) = true.
Proof.
  revert i n. induction s as [| c s IH]; intros i n H.
  - destruct i, n; reflexivity.
  - simpl in H. apply andb_true_iff in H. destruct H as [Hc Hs].
    destruct i as [| i].
    + destruct n as [| n]; [reflexivity |].
      unfold substr in *. simpl. rewrite Hc. apply (IH 0%nat n Hs).
    + unfold substr in *. simpl. apply IH, Hs.
Qed.

Lemma paren_scan_app (a b : string) (d : nat) :
  paren_scan (a ++ b) d
  = match paren_scan a d with
    | Some d' => paren_scan b d'
    | None => None
    end.
Proof.
  revert d. induction a as [| c a IH]; intros d; [reflexivity |].
  rewrite append_cons. simpl. destruct (Ascii.eqb c "("); [apply IH |].
  destruct (Ascii.eqb c ")"); [| apply IH].
  destruct d; [reflexivity | apply IH].
Qed.

Lemma string_last (s : string) :
  (0 < size s)%nat ->
  s = substr s 0 (size s - 1) ++ String (back s) "".
Proof.
  induction s as [| c s IH]; intros H; [simpl in H; lia |].
  destruct s as [| c' s'].
  - reflexivity.
  - unfold back, size, substr in *. simpl in *.
    rewrite Nat.sub_0_r in *. rewrite append_cons. f_equal.
    apply IH. lia.
Qed.

(** *** Characters of the alphabet *)

Ltac char_cases H :=
  cbn [str_contains SINGLE_TYPES SPECIAL_TYPES] in H;
  repeat (apply orb_true_iff in H; destruct H as [H | H]);
  try discriminate H;
  apply Ascii.eqb_eq in H; subst.

Lemma single_has_type (c : ascii) :
  str_contains SINGLE_TYPES c = true ->
  exists t, Ty.of_char c = Some t /\ is_sequence_kind t = false /\ t <> Ty.Dict.
Proof.
  intros H. char_cases H; eexists; (split; [reflexivity |]); split;
    first [reflexivity | discriminate].
Qed.

Lemma single_not_paren (c : ascii) :
  str_contains SINGLE_TYPES c = true ->
  Ascii.eqb c "(" = false /\ Ascii.eqb c ")" = false.
Proof. intros H. char_cases H; split; reflexivity. Qed.

Lemma special_cases (c : ascii) :
  str_contains SPECIAL_TYPES c = true ->
  c = "a"%char \/ c = "("%char \/ c = "{"%char.
Proof. intros H. char_cases H; tauto. Qed.

(** *** getSpecialEnd never leaves the text *)

Lemma getSpecialEnd_loop_ok (n : nat) (s : string) (open c : ascii)
    (e : nat) (cnt : Z) :
  (size s <= n + e)%nat ->
  exists e' cnt', getSpecialEnd_loop n s open c e cnt = Ok (e', cnt') /\ (e <= e')%nat.
Proof.
  revert e cnt. induction n as [| n IH]; intros e cnt Hn; simpl.
  - replace (size s <=? e)%nat with true by (symmetry; apply Nat.leb_le; lia).
    eauto.
  - destruct (size s <=? e)%nat; [eauto |].
    match goal with |- context [(?x =? 0)%Z] => destruct (x =? 0)%Z end; [eauto |].
    match goal with |- context [getSpecialEnd_loop n s open c (S e) ?k] =>
      destruct (IH (S e) k ltac:(lia)) as (e' & cnt' & -> & Hle) end.
    exists e', cnt'. split; [reflexivity | lia].
Qed.

Lemma getSpecialEnd_rec_ok (n : nat) (s : string) (start : nat) :
  (size s <= n + start)%nat ->
  (start < size s - 1)%nat ->
  str_contains SPECIAL_TYPES (str_at s start) = true ->
  (exists e, getSpecialEnd_rec n s start = Ok e /\ (start < e)%nat) \/
  raises_InvalidType (getSpecialEnd_rec n s start).
Proof.
  revert start. induction n as [| n IH]; intros start Hn Hs Hc; [lia |].
  cbn [getSpecialEnd_rec].
  replace (start <? size s - 1)%nat with true by (symmetry; apply Nat.ltb_lt; lia).
  rewrite Hc. cbn [negb].
  destruct (Ascii.eqb (str_at s start) (Ty.to_char Ty.Array)).
  - destruct (str_contains SINGLE_TYPES (str_at s (start + 1))).
    { left. exists (start + 1)%nat. split; [reflexivity | lia]. }
    destruct (str_contains SPECIAL_TYPES (str_at s (start + 1))) eqn:Hc'.
    2:{ right. eexists. reflexivity. }
    destruct (size s - 2 <=? start)%nat eqn:Hb.
    { right. eexists. reflexivity. }
    apply Nat.leb_gt in Hb.
    destruct (IH (start + 1)%nat ltac:(lia) ltac:(lia) Hc') as [(e & He & Hlt) | Hr].
    + left. exists e. split; [exact He | lia].
    + right. exact Hr.
  - match goal with |- context [getSpecialEnd_loop ?a ?b ?c ?d ?e ?f] =>
      destruct (getSpecialEnd_loop_ok a b c d e f ltac:(lia)) as (e' & cnt' & -> & Hle) end.
    cbn [bind snd fst]. destruct (cnt' =? 0)%Z; cbn [negb].
    + left. exists e'. split; [reflexivity | lia].
    + right. eexists. reflexivity.
Qed.

Lemma getSpecialEnd_ok (s : string) (start : nat) :
  (start < size s - 1)%nat ->
  str_contains SPECIAL_TYPES (str_at s start) = true ->
  (exists e, getSpecialEnd s start = Ok e /\ (start < e)%nat) \/
  raises_InvalidType (getSpecialEnd s start).
Proof. intros. apply getSpecialEnd_rec_ok; [lia | assumption..]. Qed.

Lemma settled_Ok {A : Type} (a : A) : settled (Ok a).
Proof. left. now exists a. Qed.

Lemma settled_Throw {A : Type} (what : string) : settled (@Throw A (InvalidType what)).
Proof. right. now exists what. Qed.

Lemma settled_bind {A B : Type} (m : outcome A) (k : A -> outcome B) :
  settled m -> (forall a, m = Ok a -> settled (k a)) -> settled (bind m k).
Proof.
  intros [[a ->] | [what ->]] Hk.
  - now apply Hk.
  - apply settled_Throw.
Qed.

Lemma TypeInfo_of_char_settled (c : ascii) : settled (TypeInfo_of_char c).
Proof.
  unfold TypeInfo_of_char.
  destruct (str_contains SINGLE_TYPES c) eqn:E; [| apply settled_Throw].
  destruct (single_has_type c E) as (t & -> & _). apply settled_Ok.
Qed.

Lemma getSpecialEnd_settled (s : string) (start : nat) :
  (start < size s - 1)%nat ->
  str_contains SPECIAL_TYPES (str_at s start) = true ->
  settled (getSpecialEnd s start) /\
  forall e, getSpecialEnd s start = Ok e -> (start < e)%nat.
Proof.
  intros H1 H2.
  destruct (getSpecialEnd_ok s start H1 H2) as [(e & He & Hlt) | Hr].
  - split; [rewrite He; apply settled_Ok |].
    intros e' He'. rewrite He in He'. injection He' as <-. exact Hlt.
  - split; [now right |].
    intros e He. destruct Hr as [what Hw]. rewrite Hw in He. discriminate He.
Qed.

Section StructLoop.
Variable parse : string -> outcome TypeInfo.
Variable s : string.

Lemma struct_loop_settled (n i : nat) (acc : list TypeInfo) :
  (forall s', (size s' < size s)%nat -> settled (parse s')) ->
  (size s <= n + i)%nat ->
  (1 <= i)%nat ->
  settled (struct_loop parse n s i acc).
Proof.
  intros Hparse. revert i acc.
  induction n as [| n IH]; intros i acc Hn Hi; cbn [struct_loop].
  - replace (size s - 1 <=? i)%nat with true by (symmetry; apply Nat.leb_le; lia).
    apply settled_Ok.
  - destruct (size s - 1 <=? i)%nat eqn:Hlast; [apply settled_Ok |].
    apply Nat.leb_gt in Hlast.
    destruct (str_contains SINGLE_TYPES (str_at s i)) eqn:Hsingle.
    { apply settled_bind; [apply TypeInfo_of_char_settled |].
      intros t _. apply IH; lia. }
    destruct (str_contains SPECIAL_TYPES (str_at s i)) eqn:Hspecial;
      [| apply settled_Throw].
    destruct (getSpecialEnd_settled s i Hlast Hspecial) as [Hset Hlt].
    apply settled_bind; [exact Hset |].
    intros e He. specialize (Hlt e He).
    destruct (size s - 1 <=? e)%nat eqn:Hend; [apply settled_Throw |].
    apply Nat.leb_gt in Hend.
    apply settled_bind.
    + apply Hparse. pose proof (substr_size s i (e - i + 1)). lia.
    + intros t _. apply IH; lia.
Qed.

Lemma struct_loop_balanced (n i : nat) (acc fields : list TypeInfo) :
  (forall s' t, parse s' = Ok t -> str_forallb not_brace s' = true ->
                forall d, paren_scan s' d = Some d) ->
  str_forallb not_brace s = true ->
  struct_loop parse n s i acc = Ok fields ->
  (1 <= i)%nat ->
  forall d, paren_scan (substr s i (size s - 1 - i)) d = Some d.
Proof.
  intros Hparse Hnb. revert i acc.
  induction n as [| n IH]; intros i acc H Hi d; cbn [struct_loop] in H.
  - destruct (size s - 1 <=? i)%nat eqn:Hlast; [| discriminate H].
    apply Nat.leb_le in Hlast.
    replace (size s - 1 - i)%nat with 0%nat by lia.
    now rewrite substr_zero_len.
  - destruct (size s - 1 <=? i)%nat eqn:Hlast.
    { apply Nat.leb_le in Hlast.
      replace (size s - 1 - i)%nat with 0%nat by lia.
      now rewrite substr_zero_len. }
    apply Nat.leb_gt in Hlast.
    destruct (str_contains SINGLE_TYPES (str_at s i)) eqn:Hsingle.
    { destruct (TypeInfo_of_char (str_at s i)) as [t | |]; cbn [bind] in H;
        try discriminate H.
      replace (size s - 1 - i)%nat with (S (size s - 1 - S i)) by lia.
      rewrite substr_step by lia. cbn [paren_scan].
      destruct (single_not_paren _ Hsingle) as [-> ->].
      apply (IH (S i) _ H). lia. }
    destruct (str_contains SPECIAL_TYPES (str_at s i)) eqn:Hspecial;
      [| discriminate H].
    destruct (getSpecialEnd_settled s i Hlast Hspecial) as [_ Hlt].
    destruct (getSpecialEnd s i) as [e | |]; cbn [bind] in H; try discriminate H.
    specialize (Hlt e eq_refl).
    destruct (size s - 1 <=? e)%nat eqn:Hend; [discriminate H |].
    apply Nat.leb_gt in Hend.
    destruct (parse (substr s i (e - i + 1))) as [t | |] eqn:Htok;
      cbn [bind] in H; try discriminate H.
    replace (size s - 1 - i)%nat with ((e - i + 1) + (size s - 1 - S e))%nat by lia.
    rewrite substr_split, paren_scan_app.
    rewrite (Hparse _ t Htok (substr_forallb _ _ _ _ Hnb) d).
    replace (i + (e - i + 1))%nat with (S e) by lia.
    apply (IH (S e) _ H). lia.
Qed.
End StructLoop.

Lemma special_before_the_end (s : string) (i : nat) (c : ascii) :
  str_contains SPECIAL_TYPES (str_at s i) = true ->
  back s = c ->
  str_contains SPECIAL_TYPES c = false ->
  (i < size s)%nat ->
  (i < size s - 1)%nat.
Proof.
  intros Hs Hb Hc Hi.
  destruct (Nat.eq_dec i (size s - 1)) as [-> | Hne]; [| lia].
  unfold back in Hb. rewrite Hb, Hc in Hs. discriminate Hs.
Qed.

Lemma parse_dict_settled (parse : string -> outcome TypeInfo) (s : string) :
  (forall s', (size s' < size s)%nat -> settled (parse s')) ->
  (2 <= size s)%nat ->
  settled (parse_dict parse s).
Proof.
  intros Hparse Hsize. unfold parse_dict.
  destruct (Ascii.eqb (back s) "}") eqn:Hback; cbn [negb]; [| apply settled_Throw].
  apply Ascii.eqb_eq in Hback.
  apply settled_bind.
  - destruct (str_contains SINGLE_TYPES (str_at s 1)) eqn:Hsingle.
    { apply settled_bind; [| intros; apply settled_Ok].
      apply Hparse. pose proof (substr_size s 1 1). lia. }
    destruct (str_contains SPECIAL_TYPES (str_at s 1)) eqn:Hspecial;
      [| apply settled_Throw].
    assert (H1 : (1 < size s - 1)%nat)
      by (apply (special_before_the_end s 1 "}"); auto; lia).
    destruct (getSpecialEnd_settled s 1 H1 Hspecial) as [Hset _].
    apply settled_bind; [exact Hset |]. intros e _.
    destruct (size s - 1 <=? e)%nat; [apply settled_Throw |].
    apply settled_bind; [| intros; apply settled_Ok].
    apply Hparse. pose proof (substr_size s 1 e). lia.
  - intros [k value_start] Hkv. cbn [fst snd].
    assert (Hvs : (1 <= value_start)%nat).
    { destruct (str_contains SINGLE_TYPES (str_at s 1)).
      - destruct (parse (substr s 1 1)); cbn [bind] in Hkv; try discriminate Hkv.
        injection Hkv as _ <-. lia.
      - destruct (str_contains SPECIAL_TYPES (str_at s 1)); [| discriminate Hkv].
        destruct (getSpecialEnd s 1) as [e | |]; cbn [bind] in Hkv;
          try discriminate Hkv.
        destruct (size s - 1 <=? e)%nat; [discriminate Hkv |].
        destruct (parse (substr s 1 e)); cbn [bind] in Hkv; try discriminate Hkv.
        injection Hkv as _ <-. lia. }
    destruct (size s <=? value_start)%nat eqn:Hv; [apply settled_Throw |].
    apply Nat.leb_gt in Hv.
    destruct (str_contains SINGLE_TYPES (str_at s value_start)) eqn:Hsingle.
    { apply settled_bind; [| intros; apply settled_Ok].
      apply Hparse. pose proof (substr_size s value_start 1). lia. }
    destruct (str_contains SPECIAL_TYPES (str_at s value_start)) eqn:Hspecial;
      [| apply settled_Throw].
    assert (H1 : (value_start < size s - 1)%nat)
      by (apply (special_before_the_end s value_start "}"); auto).
    destruct (getSpecialEnd_settled s value_start H1 Hspecial) as [Hset _].
    apply settled_bind; [exact Hset |]. intros e _.
    destruct (negb (e =? size s - 2)%nat); [apply settled_Throw |].
    apply settled_bind; [| intros; apply settled_Ok].
    apply Hparse.
    pose proof (substr_size s value_start (e - value_start + 1)). lia.
Qed.

Lemma substr_from_tail (c : ascii) (s : string) : substr_from (String c s) 1 = s.
Proof.
  unfold substr_from, size. simpl. rewrite Nat.sub_0_r. apply substr_full.
Qed.

Lemma TypeInfo_parse_settled (fuel : nat) (s : string) :
  (size s < fuel)%nat -> settled (TypeInfo_parse fuel s).
Proof.
  revert s. induction fuel as [| fuel IH]; intros s Hfuel; [lia |].
  cbn [TypeInfo_parse].
  destruct (size s =? 0)%nat eqn:H0; [apply settled_Throw |].
  apply Nat.eqb_neq in H0.
  destruct (negb (str_forallb (str_contains VALID_CHARS) s)); [apply settled_Throw |].
  destruct (str_contains SINGLE_TYPES (str_at s 0)) eqn:Hsingle.
  { destruct (negb (size s =? 1)%nat); [apply settled_Throw |].
    destruct (single_has_type _ Hsingle) as (t & -> & _). apply settled_Ok. }
  destruct (str_contains SPECIAL_TYPES (str_at s 0)) eqn:Hspecial; cbn [negb];
    [| apply settled_Throw].
  destruct (size s =? 1)%nat eqn:H1; [apply settled_Throw |].
  apply Nat.eqb_neq in H1.
  assert (Hshorter : forall s', (size s' < size s)%nat -> settled (TypeInfo_parse fuel s'))
    by (intros s' Hs'; apply IH; lia).
  destruct (special_cases _ Hspecial) as [E | [E | E]]; rewrite E.
  - change (Ty.of_char "a") with (Some Ty.Array). cbv iota.
    apply settled_bind; [| intros; apply settled_Ok].
    apply Hshorter. destruct s as [| c s]; [simpl in H0; lia |].
    rewrite substr_from_tail. unfold size. simpl. lia.
  - change (Ty.of_char "(") with (Some Ty.Struct). cbv iota.
    destruct (negb (Ascii.eqb (back s) ")")); [apply settled_Throw |].
    apply settled_bind; [| intros; apply settled_Ok].
    apply struct_loop_settled; [exact Hshorter | lia | lia].
  - change (Ty.of_char "{") with (Some Ty.Dict). cbv iota.
    apply parse_dict_settled; [exact Hshorter | lia].
Qed.

Lemma TypeInfo_of_string_settled (s : string) : settled (TypeInfo_of_string s).
Proof. apply TypeInfo_parse_settled. lia. Qed.

Lemma size_one (s : string) : size s = 1%nat -> s = String (str_at s 0) "".
Proof.
  destruct s as [| c [| c' s]]; intros H; try discriminate H. reflexivity.
Qed.

Lemma TypeInfo_parse_balanced (fuel : nat) (s : string) (t : TypeInfo) :
  TypeInfo_parse fuel s = Ok t ->
  str_forallb not_brace s = true ->
  forall d, paren_scan s d = Some d.
Proof.
  revert s t. induction fuel as [| fuel IH]; intros s t H Hnb d; [discriminate H |].
  cbn [TypeInfo_parse] in H.
  destruct (size s =? 0)%nat eqn:H0; [discriminate H |].
  apply Nat.eqb_neq in H0.
  destruct (negb (str_forallb (str_contains VALID_CHARS) s)); [discriminate H |].
  destruct (str_contains SINGLE_TYPES (str_at s 0)) eqn:Hsingle.
  { destruct (size s =? 1)%nat eqn:H1; cbn [negb] in H; [| discriminate H].
    apply Nat.eqb_eq in H1. rewrite (size_one s H1). cbn [paren_scan].
    now destruct (single_not_paren _ Hsingle) as [-> ->]. }
  destruct (str_contains SPECIAL_TYPES (str_at s 0)) eqn:Hspecial; cbn [negb] in H;
    [| discriminate H].
  destruct (size s =? 1)%nat eqn:H1; [discriminate H |].
  apply Nat.eqb_neq in H1.
  destruct s as [| c s]; [simpl in H0; lia |].
  change (str_at (String c s) 0) with c in *.
  destruct (special_cases _ Hspecial) as [E | [E | E]]; subst c.
  - change (Ty.of_char "a") with (Some Ty.Array) in H. cbv iota in H.
    rewrite substr_from_tail in H.
    destruct (TypeInfo_parse fuel s) as [a | |] eqn:Ha; cbn [bind] in H;
      try discriminate H.
    cbn [paren_scan]. simpl in Hnb.
    apply (IH s a Ha Hnb).
  - change (Ty.of_char "(") with (Some Ty.Struct) in H. cbv iota in H.
    destruct (Ascii.eqb (back (String "(" s)) ")") eqn:Hback; cbn [negb] in H;
      [| discriminate H].
    apply Ascii.eqb_eq in Hback.
    destruct (struct_loop (TypeInfo_parse fuel) (size (String "(" s))
                (String "(" s) 1 []) as [fields | |] eqn:Hloop;
      cbn [bind] in H; try discriminate H.
    pose proof (struct_loop_balanced (TypeInfo_parse fuel) (String "(" s)
                  _ 1 [] fields (fun s' t' => IH s' t') Hnb Hloop (le_n 1) (S d))
      as Hinner.
    assert (Hs : (0 < size s)%nat) by (unfold size in *; simpl in *; lia).
    assert (Hbs : back s = ")"%char).
    { unfold back, size in *. simpl in Hback.
      rewrite Nat.sub_0_r in Hback.
      destruct (String.length s) as [| m] eqn:Hm; [lia |].
      simpl. rewrite Nat.sub_0_r. exact Hback. }
    cbn [paren_scan]. change (Ascii.eqb "(" "(") with true. cbv iota.
    rewrite (string_last s Hs), paren_scan_app.
    replace (substr s 0 (size s - 1))
      with (substr (String "(" s) 1 (size (String "(" s) - 1 - 1)).
    2:{ unfold substr, size. simpl. now rewrite Nat.sub_0_r. }
    rewrite Hinner, Hbs. reflexivity.
  - simpl in Hnb. discriminate Hnb.
Qed.

(** *** What the constructor accepts is a signature *)

Lemma append_assoc (a b c : string) : (a ++ b) ++ c = a ++ (b ++ c).
Proof.
  induction a as [| x a IH]; [reflexivity |].
  rewrite !append_cons. now rewrite IH.
Qed.

Lemma append_nil_r (a : string) : a ++ "" = a.
Proof. induction a as [| c a IH]; [reflexivity |]. rewrite append_cons. now rewrite IH. Qed.

Lemma append_nil_l (a : string) : "" ++ a = a.
Proof. reflexivity. Qed.

Lemma append_one (c : ascii) (a : string) : String c "" ++ a = String c a.
Proof. reflexivity. Qed.

Lemma unchecked_valid (m r : string) :
  str_forallb (str_contains VALID_CHARS) m = true ->
  unchecked_tail (m ++ String "}" r) r.
Proof.
  induction m as [| c m IH]; intros H.
  - apply unchecked_end.
  - cbn [str_forallb] in H. apply andb_true_iff in H. destruct H as [Hc Hm].
    rewrite append_cons. apply unchecked_char; [exact Hc | exact (IH Hm)].
Qed.

Lemma substr_one (s : string) (i : nat) :
  (i < size s)%nat -> substr s i 1 = String (str_at s i) "".
Proof. intros H. rewrite substr_step by exact H. now rewrite substr_zero_len. Qed.

(** A text of at least two characters, cut at a position inside it. *)
Lemma string_cut (s : string) (i : nat) :
  (1 <= i <= size s - 1)%nat ->
  s = String (str_at s 0)
        (substr s 1 (i - 1) ++ substr s i (size s - 1 - i) ++ String (back s) "").
Proof.
  intros Hi.
  rewrite (string_last s) at 1 by lia.
  replace (size s - 1)%nat with (1 + ((i - 1) + (size s - 1 - i)))%nat at 1 by lia.
  rewrite substr_split, substr_split, substr_one by lia.
  replace (0 + 1 + (i - 1))%nat with i by lia.
  rewrite !append_assoc. reflexivity.
Qed.

Section StructFields.
Variable parse : string -> outcome TypeInfo.
Variable s : string.
Hypothesis parse_complete :
  forall s' t, parse s' = Ok t -> forall r, complete (s' ++ r) r.

Lemma struct_loop_complete (n i : nat) (acc fields_ : list TypeInfo) :
  struct_loop parse n s i acc = Ok fields_ ->
  (1 <= i)%nat ->
  forall r, struct_fields (substr s i (size s - 1 - i) ++ String ")" r) r.
Proof.
  revert i acc.
  induction n as [| n IH]; intros i acc H Hi r; cbn [struct_loop] in H.
  - destruct (size s - 1 <=? i)%nat eqn:Hlast; [| discriminate H].
    apply Nat.leb_le in Hlast.
    replace (size s - 1 - i)%nat with 0%nat by lia.
    rewrite substr_zero_len. apply fields_end.
  - destruct (size s - 1 <=? i)%nat eqn:Hlast.
    { apply Nat.leb_le in Hlast.
      replace (size s - 1 - i)%nat with 0%nat by lia.
      rewrite substr_zero_len. apply fields_end. }
    apply Nat.leb_gt in Hlast.
    destruct (str_contains SINGLE_TYPES (str_at s i)) eqn:Hsingle.
    { destruct (TypeInfo_of_char (str_at s i)) as [t | |]; cbn [bind] in H;
        try discriminate H.
      replace (size s - 1 - i)%nat with (S (size s - 1 - S i)) by lia.
      rewrite substr_step by lia. rewrite append_cons.
      eapply fields_more; [apply complete_primitive, Hsingle |].
      apply (IH (S i) _ H). lia. }
    destruct (str_contains SPECIAL_TYPES (str_at s i)) eqn:Hspecial;
      [| discriminate H].
    destruct (getSpecialEnd_settled s i Hlast Hspecial) as [_ Hlt].
    destruct (getSpecialEnd s i) as [e | |]; cbn [bind] in H; try discriminate H.
    specialize (Hlt e eq_refl).
    destruct (size s - 1 <=? e)%nat eqn:Hend; [discriminate H |].
    apply Nat.leb_gt in Hend.
    destruct (parse (substr s i (e - i + 1))) as [t | |] eqn:Htok;
      cbn [bind] in H; try discriminate H.
    replace (size s - 1 - i)%nat with ((e - i + 1) + (size s - 1 - S e))%nat by lia.
    rewrite substr_split, append_assoc.
    eapply fields_more; [apply (parse_complete _ t Htok) |].
    replace (i + (e - i + 1))%nat with (S e) by lia.
    apply (IH (S e) _ H). lia.
Qed.

Lemma parse_dict_complete (t : TypeInfo) :
  str_forallb (str_contains VALID_CHARS) s = true ->
  (2 <= size s)%nat ->
  str_at s 0 = "{"%char ->
  parse_dict parse s = Ok t ->
  forall r, complete (s ++ r) r.
Proof.
  intros Hvalid Hsize Hopen H r. unfold parse_dict in H.
  destruct (Ascii.eqb (back s) "}") eqn:Hback; cbn [negb] in H; [| discriminate H].
  apply Ascii.eqb_eq in Hback.
  match type of H with bind ?m _ = _ => destruct m as [[k vs] | |] eqn:Hkey end;
    cbn [bind fst snd] in H; try discriminate H.
  assert (Hk : (2 <= vs)%nat /\
               forall r', complete (substr s 1 (vs - 1) ++ r') r').
  { destruct (str_contains SINGLE_TYPES (str_at s 1)) eqn:Hsingle.
    - destruct (parse (substr s 1 1)) as [k0 | |] eqn:Hk0; cbn [bind] in Hkey;
        try discriminate Hkey.
      injection Hkey as _ <-. split; [lia |].
      intros r'. apply (parse_complete _ k0 Hk0).
    - destruct (str_contains SPECIAL_TYPES (str_at s 1)) eqn:Hspecial;
        [| discriminate Hkey].
      assert (H1 : (1 < size s - 1)%nat)
        by (apply (special_before_the_end s 1 "}"); auto; lia).
      pose proof (getSpecialEnd_settled s 1 H1 Hspecial) as [_ Hlt].
      destruct (getSpecialEnd s 1) as [e | |]; cbn [bind] in Hkey;
        try discriminate Hkey.
      specialize (Hlt e eq_refl).
      destruct (size s - 1 <=? e)%nat; [discriminate Hkey |].
      destruct (parse (substr s 1 e)) as [k0 | |] eqn:Hk0; cbn [bind] in Hkey;
        try discriminate Hkey.
      injection Hkey as _ <-. split; [lia |].
      intros r'. replace (e + 1 - 1)%nat with e by lia.
      apply (parse_complete _ k0 Hk0). }
  destruct Hk as [Hvs Hk].
  destruct (size s <=? vs)%nat eqn:Hv; [discriminate H |].
  apply Nat.leb_gt in Hv.
  assert (Hvs' : (vs < size s - 1)%nat).
  { destruct (Nat.eq_dec vs (size s - 1)) as [E | E]; [| lia].
    unfold back in Hback. rewrite <- E in Hback. rewrite Hback in H.
    discriminate H. }
  rewrite (string_cut s vs) by lia. rewrite Hopen, Hback.
  rewrite append_cons, !append_assoc, append_one.
  destruct (str_contains SINGLE_TYPES (str_at s vs)) eqn:Hsingle.
  - replace (size s - 1 - vs)%nat with (S (size s - 1 - S vs)) by lia.
    rewrite substr_step by lia. rewrite append_cons.
    eapply complete_dict_unchecked; [apply Hk | exact Hsingle |].
    apply unchecked_valid. now apply substr_forallb.
  - destruct (str_contains SPECIAL_TYPES (str_at s vs)) eqn:Hspecial;
      [| discriminate H].
    destruct (getSpecialEnd s vs) as [e | |]; cbn [bind] in H; try discriminate H.
    destruct (e =? size s - 2)%nat eqn:He; cbn [negb] in H; [| discriminate H].
    apply Nat.eqb_eq in He. subst e.
    destruct (parse (substr s vs (size s - 2 - vs + 1))) as [v0 | |] eqn:Hv0;
      cbn [bind] in H; try discriminate H.
    replace (size s - 2 - vs + 1)%nat with (size s - 1 - vs)%nat in Hv0 by lia.
    eapply complete_dict; [apply Hk |].
    apply (parse_complete _ v0 Hv0).
Qed.
End StructFields.

Lemma TypeInfo_parse_complete (fuel : nat) (s : string) (t : TypeInfo) :
  TypeInfo_parse fuel s = Ok t -> forall r, complete (s ++ r) r.
Proof.
  revert s t. induction fuel as [| fuel IH]; intros s t H r; [discriminate H |].
  cbn [TypeInfo_parse] in H.
  destruct (size s =? 0)%nat eqn:H0; [discriminate H |].
  apply Nat.eqb_neq in H0.
  destruct (str_forallb (str_contains VALID_CHARS) s) eqn:Hvalid; cbn [negb] in H;
    [| discriminate H].
  destruct (str_contains SINGLE_TYPES (str_at s 0)) eqn:Hsingle.
  { destruct (size s =? 1)%nat eqn:H1; cbn [negb] in H; [| discriminate H].
    apply Nat.eqb_eq in H1. rewrite (size_one s H1). rewrite append_cons.
    now apply complete_primitive. }
  destruct (str_contains SPECIAL_TYPES (str_at s 0)) eqn:Hspecial; cbn [negb] in H;
    [| discriminate H].
  destruct (size s =? 1)%nat eqn:H1; [discriminate H |].
  apply Nat.eqb_neq in H1.
  destruct (special_cases _ Hspecial) as [E | [E | E]].
  - destruct s as [| c s]; [simpl in H0; lia |].
    change (str_at (String c s) 0) with c in *. subst c.
    change (Ty.of_char "a") with (Some Ty.Array) in H. cbv iota in H.
    rewrite substr_from_tail in H.
    destruct (TypeInfo_parse fuel s) as [a | |] eqn:Ha; cbn [bind] in H;
      try discriminate H.
    rewrite append_cons. apply complete_array. apply (IH s a Ha).
  - rewrite E in H.
    change (Ty.of_char "(") with (Some Ty.Struct) in H. cbv iota in H.
    destruct (Ascii.eqb (back s) ")") eqn:Hback; cbn [negb] in H;
      [| discriminate H].
    apply Ascii.eqb_eq in Hback.
    destruct (struct_loop (TypeInfo_parse fuel) (size s) s 1 []) as [fs | |] eqn:Hloop;
      cbn [bind] in H; try discriminate H.
    pose proof (struct_loop_complete (TypeInfo_parse fuel) s IH
                  _ 1 [] fs Hloop (le_n 1) r) as Hinner.
    rewrite (string_cut s 1) by lia. rewrite E, Hback.
    replace (1 - 1)%nat with 0%nat by lia. rewrite substr_zero_len.
    rewrite append_cons, !append_assoc, append_nil_l, append_one.
    apply complete_struct. exact Hinner.
  - rewrite E in H.
    change (Ty.of_char "{") with (Some Ty.Dict) in H. cbv iota in H.
    apply (parse_dict_complete (TypeInfo_parse fuel) s IH t Hvalid); [lia | exact E | exact H].
Qed.

(** What the constructor accepts is a signature. *)
Lemma TypeInfo_of_string_complete (s : string) (t : TypeInfo) :
  TypeInfo_of_string s = Ok t -> signature s.
Proof.
  intros H. unfold signature.
  rewrite <- (append_nil_r s).
  exact (TypeInfo_parse_complete _ s t H "").
Qed.

(** Reading a given text against the grammar, constructor by constructor. *)
Ltac read_off :=
  repeat match goal with
         | H : complete (String _ _) _ |- _ => inversion H; clear H; subst
         | H : complete "" _ |- _ => inversion H
         | H : struct_fields (String _ _) _ |- _ => inversion H; clear H; subst
         | H : struct_fields "" _ |- _ => inversion H; clear H; subst
         | H : unchecked_tail (String _ _) _ |- _ => inversion H; clear H; subst
         | H : unchecked_tail "" _ |- _ => inversion H
         | H : str_contains SINGLE_TYPES _ = true |- _ =>
             first [discriminate H | clear H]
         | H : str_contains VALID_CHARS _ = true |- _ =>
             first [discriminate H | clear H]
         end.

Ltac not_a_signature :=
  let H := fresh "H" in unfold signature; intros H; read_off.




(** * Further properties *)

(** ** The signature parser *)

(** Taking a result apart along the binds and branches that produced it. *)
Ltac break H :=
  repeat match type of H with
         | (if ?c then _ else _) = _ =>
             let E := fresh "E" in destruct c eqn:E; try discriminate H
         | bind ?m _ = _ =>
             let E := fresh "E" in
             destruct m eqn:E; cbn [bind] in H; try discriminate H
         | match ?x with _ => _ end = _ =>
             let E := fresh "E" in destruct x eqn:E; try discriminate H
         end.

Lemma parse_dict_signature (parse : string -> outcome TypeInfo) (s : string)
    (t : TypeInfo) :
  parse_dict parse s = Ok t ->
  typeSignature t = s /\ primaryType t = Ty.Dict /\ pointers_set t = true.
Proof.
  unfold parse_dict. intros H. break H; injection H as <-; repeat split.
Qed.

Lemma TypeInfo_parse_signature (fuel : nat) (s : string) (t : TypeInfo) :
  TypeInfo_parse fuel s = Ok t ->
  typeSignature t = s /\
  Ty.of_char (str_at s 0) = Some (primaryType t) /\
  pointers_set t = true.
Proof.
  destruct fuel as [| fuel]; [discriminate |].
  cbn [TypeInfo_parse]. intros H.
  destruct (size s =? 0)%nat; [discriminate H |].
  destruct (negb (str_forallb (str_contains VALID_CHARS) s)); [discriminate H |].
  destruct (str_contains SINGLE_TYPES (str_at s 0)) eqn:Hsingle.
  { destruct (negb (size s =? 1)%nat); [discriminate H |].
    destruct (single_has_type _ Hsingle) as (k & Hk & Hseq & Hd).
    rewrite Hk in H. injection H as <-. repeat split; [exact Hk |].
    unfold pointers_set. simpl. destruct k; try reflexivity; try discriminate Hseq.
    congruence. }
  destruct (negb (str_contains SPECIAL_TYPES (str_at s 0))); [discriminate H |].
  destruct (size s =? 1)%nat; [discriminate H |].
  destruct (Ty.of_char (str_at s 0)) as [k |] eqn:Hk; [| discriminate H].
  destruct k; try discriminate H.
  - break H. injection H as <-. repeat split.
  - break H. injection H as <-. repeat split.
  - apply parse_dict_signature in H. destruct H as (H1 & H2 & H3).
    rewrite H2. repeat split; assumption.
Qed.

(** *** The bound on the nesting is never reached *)

Lemma getSpecialEnd_bound (s : string) (start e : nat) :
  (start < size s - 1)%nat ->
  str_contains SPECIAL_TYPES (str_at s start) = true ->
  getSpecialEnd s start = Ok e -> (start < e)%nat.
Proof.
  intros H1 H2 H3. now apply (proj2 (getSpecialEnd_settled s start H1 H2)).
Qed.

Lemma struct_loop_ext (p1 p2 : string -> outcome TypeInfo) (s : string)
    (n i : nat) (acc : list TypeInfo) :
  (forall s', (size s' < size s)%nat -> p1 s' = p2 s') ->
  (1 <= i)%nat ->
  struct_loop p1 n s i acc = struct_loop p2 n s i acc.
Proof.
  intros Hp. revert i acc. induction n as [| n IH]; intros i acc Hi;
    cbn [struct_loop]; [reflexivity |].
  destruct (size s - 1 <=? i)%nat eqn:Hlast; [reflexivity |].
  apply Nat.leb_gt in Hlast.
  destruct (str_contains SINGLE_TYPES (str_at s i)).
  { destruct (TypeInfo_of_char (str_at s i)); cbn [bind]; try reflexivity.
    apply IH. lia. }
  destruct (str_contains SPECIAL_TYPES (str_at s i)) eqn:Hspecial; [| reflexivity].
  destruct (getSpecialEnd s i) as [e | |] eqn:He; cbn [bind]; try reflexivity.
  pose proof (getSpecialEnd_bound s i e Hlast Hspecial He) as Hlt.
  destruct (size s - 1 <=? e)%nat eqn:Hend; [reflexivity |].
  apply Nat.leb_gt in Hend.
  rewrite Hp by (pose proof (substr_size s i (e - i + 1)); lia).
  destruct (p2 (substr s i (e - i + 1))); cbn [bind]; try reflexivity.
  apply IH. lia.
Qed.

Lemma parse_dict_ext (p1 p2 : string -> outcome TypeInfo) (s : string) :
  (forall s', (size s' < size s)%nat -> p1 s' = p2 s') ->
  (2 <= size s)%nat ->
  parse_dict p1 s = parse_dict p2 s.
Proof.
  intros Hp Hsize. unfold parse_dict.
  destruct (negb (Ascii.eqb (back s) "}")); [reflexivity |].
  assert (Hkey :
    (if str_contains SINGLE_TYPES (str_at s 1)
     then k <- p1 (substr s 1 1);; Ok (k, 2%nat)
     else if str_contains SPECIAL_TYPES (str_at s 1)
          then key_end <- getSpecialEnd s 1;;
               (if (size s - 1 <=? key_end)%nat then Throw (InvalidType1 s)
                else k <- p1 (substr s 1 key_end);; Ok (k, (key_end + 1)%nat))
          else Throw (InvalidType1 s))
    = (if str_contains SINGLE_TYPES (str_at s 1)
       then k <- p2 (substr s 1 1);; Ok (k, 2%nat)
       else if str_contains SPECIAL_TYPES (str_at s 1)
            then key_end <- getSpecialEnd s 1;;
                 (if (size s - 1 <=? key_end)%nat then Throw (InvalidType1 s)
                  else k <- p2 (substr s 1 key_end);; Ok (k, (key_end + 1)%nat))
            else Throw (InvalidType1 s))).
  { destruct (str_contains SINGLE_TYPES (str_at s 1)).
    - rewrite Hp by (pose proof (substr_size s 1 1); lia). reflexivity.
    - destruct (str_contains SPECIAL_TYPES (str_at s 1)); [| reflexivity].
      destruct (getSpecialEnd s 1) as [e | |]; cbn [bind]; try reflexivity.
      destruct (size s - 1 <=? e)%nat; [reflexivity |].
      rewrite Hp by (pose proof (substr_size s 1 e); lia). reflexivity. }
  rewrite Hkey. clear Hkey.
  match goal with |- bind ?m _ = bind ?m _ => destruct m as [[k vs] | |] eqn:Hm end;
    cbn [bind fst snd]; try reflexivity.
  assert (Hvs : (1 <= vs)%nat).
  { destruct (str_contains SINGLE_TYPES (str_at s 1)).
    - break Hm. injection Hm as _ <-. lia.
    - break Hm. injection Hm as _ <-. lia. }
  destruct (size s <=? vs)%nat; [reflexivity |].
  destruct (str_contains SINGLE_TYPES (str_at s vs)).
  { rewrite Hp by (pose proof (substr_size s vs 1); lia). reflexivity. }
  destruct (str_contains SPECIAL_TYPES (str_at s vs)); [| reflexivity].
  destruct (getSpecialEnd s vs) as [e | |]; cbn [bind]; try reflexivity.
  destruct (negb (e =? size s - 2)%nat); [reflexivity |].
  rewrite Hp by (pose proof (substr_size s vs (e - vs + 1)); lia). reflexivity.
Qed.

Lemma TypeInfo_parse_fuel (f1 f2 : nat) (s : string) :
  (size s < f1)%nat -> (size s < f2)%nat ->
  TypeInfo_parse f1 s = TypeInfo_parse f2 s.
Proof.
  revert f2 s. induction f1 as [| f1 IH]; intros f2 s H1 H2; [lia |].
  destruct f2 as [| f2]; [lia |].
  cbn [TypeInfo_parse].
  destruct (size s =? 0)%nat eqn:H0; [reflexivity |]. apply Nat.eqb_neq in H0.
  destruct (negb (str_forallb (str_contains VALID_CHARS) s)); [reflexivity |].
  destruct (str_contains SINGLE_TYPES (str_at s 0)); [reflexivity |].
  destruct (negb (str_contains SPECIAL_TYPES (str_at s 0))); [reflexivity |].
  destruct (size s =? 1)%nat eqn:Hs1; [reflexivity |]. apply Nat.eqb_neq in Hs1.
  assert (Hp : forall s', (size s' < size s)%nat ->
                          TypeInfo_parse f1 s' = TypeInfo_parse f2 s')
    by (intros s' Hs'; apply IH; lia).
  destruct (Ty.of_char (str_at s 0)) as [[] |]; try reflexivity.
  - rewrite Hp; [reflexivity |].
    destruct s as [| c s]; [simpl in H0; lia |].
    rewrite substr_from_tail. unfold size. simpl. lia.
  - destruct (negb (Ascii.eqb (back s) ")")); [reflexivity |].
    rewrite (struct_loop_ext _ _ s _ 1 [] Hp (le_n 1)). reflexivity.
  - apply parse_dict_ext; [exact Hp | lia].
Qed.

(** The constructor gives what any sufficient bound gives. *)
Lemma TypeInfo_of_string_fuel (fuel : nat) (s : string) :
  (size s < fuel)%nat -> TypeInfo_parse fuel s = TypeInfo_of_string s.
Proof. intros H. apply TypeInfo_parse_fuel; [exact H | lia]. Qed.


(** *** What a parsed type holds *)

Lemma TypeInfo_of_string_signature (s : string) (t : TypeInfo) :
  TypeInfo_of_string s = Ok t ->
  typeSignature t = s /\
  Ty.of_char (str_at s 0) = Some (primaryType t) /\
  pointers_set t = true.
Proof. apply TypeInfo_parse_signature. Qed.

(** X1: the constructor [TypeInfo(std::string)] comes to an end on every
    text: it returns a type or throws InvalidType, and on the way no
    assertion of [getSpecialEnd] fails.  It recurses only into strictly
    shorter texts, so that the result does not depend on the bound that the
    model puts on the nesting. *)
Theorem TypeInfo_constructor_is_total (s : string) :
  settled (TypeInfo_of_string s) /\
  forall fuel, (size s < fuel)%nat -> TypeInfo_parse fuel s = TypeInfo_of_string s.
Proof.
  split; [apply TypeInfo_of_string_settled |].
  intros fuel. apply TypeInfo_of_string_fuel.
Qed.

(** X2: a type that the constructor returns keeps the text it was parsed
    from: [typeSignature()] is that text, [primaryType()] is the kind named
    by its first character, parsing the signature again gives the same
    type, and the element, key and value types that [arrayType()] and
    [dictType()] dereference are set. *)
Theorem parsed_signature_round_trip (s : string) (t : TypeInfo) :
  TypeInfo_of_string s = Ok t ->
  typeSignature t = s /\
  Ty.to_char (primaryType t) = str_at s 0 /\
  TypeInfo_of_string (typeSignature t) = Ok t /\
  pointers_set t = true.
Proof.
  intros H. destruct (TypeInfo_of_string_signature s t H) as (Hsig & Hc & Hp).
  split; [exact Hsig |]. split.
  - unfold Ty.of_char in Hc. apply find_some in Hc. destruct Hc as [_ Hc].
    now apply Ascii.eqb_eq in Hc.
  - split; [now rewrite Hsig | exact Hp].
Qed.

(** An array of dicts from strings to structs. *)
Lemma parsed_signature_round_trip_witness :
  typeSignature (type_of_string "a{s(qb)}") = "a{s(qb)}" /\
  Ty.to_char (primaryType (type_of_string "a{s(qb)}")) = str_at "a{s(qb)}" 0 /\
  TypeInfo_of_string (typeSignature (type_of_string "a{s(qb)}"))
  = Ok (type_of_string "a{s(qb)}") /\
  pointers_set (type_of_string "a{s(qb)}") = true.
Proof.
  apply (parsed_signature_round_trip "a{s(qb)}" (type_of_string "a{s(qb)}")).
  vm_compute. reflexivity.
Defined.


(** X3: a parsed Array type is the letter [a] followed by the signature of
    its element type: [arrayType()] returns a type, never a null pointer, the
    signature is [a] and then the element's signature, and the element type
    is the one that the constructor gives for that text. *)
Theorem parsed_array_structure (s : string) (t : TypeInfo) :
  TypeInfo_of_string s = Ok t ->
  primaryType t = Ty.Array ->
  exists e, arrayType t = Ok e /\
            s = String "a" (typeSignature e) /\
            TypeInfo_of_string (typeSignature e) = Ok e.
Proof.
  intros H Hk.
  destruct (TypeInfo_of_string_signature s t H) as (Hsig & Hc & _).
  unfold TypeInfo_of_string in H. cbn [TypeInfo_parse] in H.
  destruct (size s =? 0)%nat eqn:H0; [discriminate H |]. apply Nat.eqb_neq in H0.
  destruct (negb (str_forallb (str_contains VALID_CHARS) s)); [discriminate H |].
  rewrite Hc, Hk in H.
  destruct (str_contains SINGLE_TYPES (str_at s 0)) eqn:Hsingle.
  { destruct (single_has_type _ Hsingle) as (k & Hk' & Hseq & _).
    rewrite Hc in Hk'. injection Hk' as <-. rewrite Hk in Hseq. discriminate Hseq. }
  break H. injection H as <-.
  destruct s as [| c s]; [simpl in H0; lia |].
  rewrite substr_from_tail in *.
  rename a into e. exists e.
  assert (He : TypeInfo_of_string s = Ok e).
  { rewrite <- (TypeInfo_of_string_fuel (size (String c s)) s); [assumption |].
    unfold size. simpl. lia. }
  destruct (TypeInfo_of_string_signature s e He) as (Hse & _).
  split; [reflexivity |]. rewrite Hse. split; [| exact He].
  f_equal. change (str_at (String c s) 0) with c in Hc.
  unfold Ty.of_char in Hc. apply find_some in Hc. destruct Hc as [_ Hc].
  apply Ascii.eqb_eq in Hc. exact (eq_sym Hc).
Qed.

(** The array of pairs that stands for a dict on the wire. *)
Lemma parsed_array_structure_witness :
  exists e, arrayType (type_of_string "a(su)") = Ok e /\
            "a(su)" = String "a" (typeSignature e) /\
            TypeInfo_of_string (typeSignature e) = Ok e.
Proof.
  apply (parsed_array_structure "a(su)" (type_of_string "a(su)"));
    vm_compute; reflexivity.
Defined.


Lemma single_is_valid (c : ascii) :
  str_contains SINGLE_TYPES c = true -> str_contains VALID_CHARS c = true.
Proof. intros H. char_cases H; reflexivity. Qed.

Lemma TypeInfo_of_char_string (c : ascii) (t : TypeInfo) :
  TypeInfo_of_char c = Ok t ->
  typeSignature t = string1 c /\ TypeInfo_of_string (string1 c) = Ok t.
Proof.
  unfold TypeInfo_of_char. intros H.
  destruct (str_contains SINGLE_TYPES c) eqn:Hs; [| discriminate H].
  destruct (Ty.of_char c) as [k |] eqn:Hk; [| discriminate H].
  injection H as <-. split; [reflexivity |].
  unfold TypeInfo_of_string.
  unfold string1. cbn [TypeInfo_parse]. 
  change (size (String c "")) with 1%nat. cbn [Nat.eqb str_forallb].
  rewrite (single_is_valid c Hs). cbn [andb negb].
  change (str_at (String c "") 0) with c. rewrite Hs, Hk. reflexivity.
Qed.

Lemma struct_loop_fields (parse : string -> outcome TypeInfo) (s : string)
    (n i : nat) (acc fields : list TypeInfo) :
  (forall s' t, (size s' < size s)%nat -> parse s' = Ok t ->
                typeSignature t = s' /\ TypeInfo_of_string s' = Ok t) ->
  struct_loop parse n s i acc = Ok fields ->
  (1 <= i)%nat ->
  exists new,
    fields = (acc ++ new)%list /\
    substr s i (size s - 1 - i) = signatures new /\
    Forall (fun f => TypeInfo_of_string (typeSignature f) = Ok f) new.
Proof.
  intros Hparse. revert i acc.
  induction n as [| n IH]; intros i acc H Hi; cbn [struct_loop] in H.
  - destruct (size s - 1 <=? i)%nat eqn:Hlast; [| discriminate H].
    apply Nat.leb_le in Hlast. injection H as <-. exists [].
    rewrite app_nil_r. replace (size s - 1 - i)%nat with 0%nat by lia.
    rewrite substr_zero_len. repeat split. constructor.
  - destruct (size s - 1 <=? i)%nat eqn:Hlast.
    { apply Nat.leb_le in Hlast. injection H as <-. exists [].
      rewrite app_nil_r. replace (size s - 1 - i)%nat with 0%nat by lia.
      rewrite substr_zero_len. repeat split. constructor. }
    apply Nat.leb_gt in Hlast.
    destruct (str_contains SINGLE_TYPES (str_at s i)) eqn:Hsingle.
    { destruct (TypeInfo_of_char (str_at s i)) as [t | |] eqn:Ht; cbn [bind] in H;
        try discriminate H.
      destruct (TypeInfo_of_char_string _ t Ht) as [Hsig Hre].
      destruct (IH (S i) _ H ltac:(lia)) as (new & -> & Hsub & Hall).
      exists (t :: new). rewrite <- app_assoc. split; [reflexivity |].
      split.
      - replace (size s - 1 - i)%nat with (S (size s - 1 - S i)) by lia.
        rewrite substr_step by lia. rewrite Hsub. cbn [signatures].
        rewrite Hsig. reflexivity.
      - constructor; [now rewrite Hsig | exact Hall]. }
    destruct (str_contains SPECIAL_TYPES (str_at s i)) eqn:Hspecial;
      [| discriminate H].
    destruct (getSpecialEnd s i) as [e | |] eqn:He; cbn [bind] in H;
      try discriminate H.
    pose proof (getSpecialEnd_bound s i e Hlast Hspecial He) as Hlt.
    destruct (size s - 1 <=? e)%nat eqn:Hend; [discriminate H |].
    apply Nat.leb_gt in Hend.
    destruct (parse (substr s i (e - i + 1))) as [t | |] eqn:Htok;
      cbn [bind] in H; try discriminate H.
    assert (Hshort : (size (substr s i (e - i + 1)) < size s)%nat)
      by (pose proof (substr_size s i (e - i + 1)); lia).
    destruct (Hparse _ t Hshort Htok) as [Hsig Hre].
    destruct (IH (S e) _ H ltac:(lia)) as (new & -> & Hsub & Hall).
    exists (t :: new). rewrite <- app_assoc. split; [reflexivity |].
    split.
    + replace (size s - 1 - i)%nat with ((e - i + 1) + (size s - 1 - S e))%nat by lia.
      rewrite substr_split.
      replace (i + (e - i + 1))%nat with (S e) by lia.
      rewrite Hsub. cbn [signatures]. now rewrite Hsig.
    + constructor; [now rewrite Hsig | exact Hall].
Qed.

(** X4: a parsed Struct type lists its fields in order: the signature is
    [(], the signatures of the fields of [structFormat()] one after the
    other, and [)], and each field is the type that the constructor gives
    for its own signature. *)
Theorem parsed_struct_structure (s : string) (t : TypeInfo) :
  TypeInfo_of_string s = Ok t ->
  primaryType t = Ty.Struct ->
  exists fields,
    structFormat t = Ok fields /\
    s = "(" ++ signatures fields ++ ")" /\
    Forall (fun f => TypeInfo_of_string (typeSignature f) = Ok f) fields.
Proof.
  intros H Hk.
  destruct (TypeInfo_of_string_signature s t H) as (Hsig & Hc & _).
  unfold TypeInfo_of_string in H. cbn [TypeInfo_parse] in H.
  destruct (size s =? 0)%nat eqn:H0; [discriminate H |]. apply Nat.eqb_neq in H0.
  destruct (negb (str_forallb (str_contains VALID_CHARS) s)); [discriminate H |].
  rewrite Hc, Hk in H.
  destruct (str_contains SINGLE_TYPES (str_at s 0)) eqn:Hsingle.
  { destruct (single_has_type _ Hsingle) as (k & Hk' & Hseq & _).
    rewrite Hc in Hk'. injection Hk' as <-. rewrite Hk in Hseq. discriminate Hseq. }
  destruct (negb (str_contains SPECIAL_TYPES (str_at s 0))); [discriminate H |].
  destruct (size s =? 1)%nat eqn:H1; [discriminate H |]. apply Nat.eqb_neq in H1.
  destruct (Ascii.eqb (back s) ")") eqn:Hback; cbn [negb] in H; [| discriminate H].
  apply Ascii.eqb_eq in Hback.
  destruct (struct_loop (TypeInfo_parse (size s)) (size s) s 1 []) as [fields | |]
    eqn:Hloop; cbn [bind] in H; try discriminate H.
  injection H as <-.
  destruct (struct_loop_fields (TypeInfo_parse (size s)) s (size s) 1 [] fields)
    as (new & Hnew & Hsub & Hall); [| exact Hloop | lia |].
  { intros s' t' Hs' Ht'.
    rewrite (TypeInfo_of_string_fuel (size s) s' Hs') in Ht'.
    split; [apply (TypeInfo_of_string_signature s' t' Ht') | exact Ht']. }
  simpl in Hnew. subst new.
  exists fields. split; [reflexivity |]. split; [| exact Hall].
  rewrite <- Hsub.
  destruct s as [| c s]; [simpl in H0; lia |].
  change (str_at (String c s) 0) with c in Hc.
  unfold Ty.of_char in Hc. apply find_some in Hc. destruct Hc as [_ Hc].
  apply Ascii.eqb_eq in Hc. simpl in Hc. subst c.
  assert (Hs : (0 < size s)%nat) by (unfold size in *; simpl in *; lia).
  assert (Hbs : back s = ")"%char).
  { unfold back, size in *. simpl in Hback. rewrite Nat.sub_0_r in Hback.
    destruct (String.length s) as [| m] eqn:Hm; [lia |].
    simpl. rewrite Nat.sub_0_r. exact Hback. }
  rewrite append_cons. change ("" ++ ?x) with x. f_equal.
  replace (substr (String "(" s) 1 (size (String "(" s) - 1 - 1))
    with (substr s 0 (size s - 1))
    by (unfold substr, size; simpl; now rewrite Nat.sub_0_r).
  rewrite <- Hbs. apply string_last, Hs.
Qed.

(** A struct of a string, a nested struct and an array. *)
Lemma parsed_struct_structure_witness :
  exists fields,
    structFormat (type_of_string "(s(qb)au)") = Ok fields /\
    "(s(qb)au)" = "(" ++ signatures fields ++ ")" /\
    Forall (fun f => TypeInfo_of_string (typeSignature f) = Ok f) fields.
Proof.
  apply (parsed_struct_structure "(s(qb)au)" (type_of_string "(s(qb)au)"));
    vm_compute; reflexivity.
Defined.


(** X5: [TypeInfo::operator==] compares the signatures only; on types that
    the constructor built this decides identity: two parsed types are equal
    by [==] exactly when they are the same type with the same element, key,
    value and field types, which is exactly when they were parsed from the
    same text; and [!=] is the negation of [==]. *)
Theorem parsed_types_equal_by_signature (s1 s2 : string) (t1 t2 : TypeInfo) :
  TypeInfo_of_string s1 = Ok t1 ->
  TypeInfo_of_string s2 = Ok t2 ->
  (TypeInfo_eqb t1 t2 = true <-> t1 = t2) /\ (t1 = t2 <-> s1 = s2) /\
  TypeInfo_neqb t1 t2 = negb (TypeInfo_eqb t1 t2).
Proof.
  intros H1 H2.
  destruct (TypeInfo_of_string_signature s1 t1 H1) as (Hs1 & _).
  destruct (TypeInfo_of_string_signature s2 t2 H2) as (Hs2 & _).
  assert (Heq : t1 = t2 <-> s1 = s2).
  { split; [intros ->; congruence |]. intros ->. congruence. }
  split; [| split; [exact Heq | reflexivity]].
  unfold TypeInfo_eqb. rewrite String.eqb_eq, Hs1, Hs2. rewrite Heq.
  split; congruence.
Qed.

(** The array of pairs and the dict that it stands for are different
    types. *)
Lemma parsed_types_equal_by_signature_witness :
  (TypeInfo_eqb (type_of_string "a(su)") (type_of_string "{su}") = true
   <-> type_of_string "a(su)" = type_of_string "{su}") /\
  (type_of_string "a(su)" = type_of_string "{su}" <-> "a(su)" = "{su}") /\
  TypeInfo_neqb (type_of_string "a(su)") (type_of_string "{su}")
  = negb (TypeInfo_eqb (type_of_string "a(su)") (type_of_string "{su}")).
Proof.
  apply (parsed_types_equal_by_signature "a(su)" "{su}");
    vm_compute; reflexivity.
Defined.


Lemma getSpecialEnd_loop_closer (n : nat) (s : string) (open c : ascii)
    (e : nat) (cnt : Z) (e' : nat) (cnt' : Z) :
  (1 <= cnt)%Z ->
  getSpecialEnd_loop n s open c e cnt = Ok (e', cnt') ->
  cnt' = 0%Z -> (e' < size s)%nat /\ str_at s e' = c.
Proof.
  revert e cnt. induction n as [| n IH]; intros e cnt Hcnt H Hz;
    cbn [getSpecialEnd_loop] in H.
  - destruct (size s <=? e)%nat; [| discriminate H].
    injection H as <- <-. exfalso. lia.
  - destruct (size s <=? e)%nat eqn:Hsz; [injection H as <- <-; exfalso; lia |].
    apply Nat.leb_gt in Hsz.
    destruct (Ascii.eqb (str_at s e) open) eqn:Ho.
    + destruct (cnt + 1 =? 0)%Z eqn:Hc; [apply Z.eqb_eq in Hc; exfalso; lia |].
      apply (IH (S e) (cnt + 1)%Z); [lia | exact H | exact Hz].
    + destruct (Ascii.eqb (str_at s e) c) eqn:Hcl.
      * destruct (cnt - 1 =? 0)%Z eqn:Hc.
        -- injection H as <- <-. apply Ascii.eqb_eq in Hcl. split; assumption.
        -- apply Z.eqb_neq in Hc.
           apply (IH (S e) (cnt - 1)%Z); [lia | exact H | exact Hz].
      * destruct (cnt =? 0)%Z eqn:Hc; [apply Z.eqb_eq in Hc; exfalso; lia |].
        apply (IH (S e) cnt); [lia | exact H | exact Hz].
Qed.

Lemma getSpecialEnd_rec_inside (n : nat) (s : string) (start e : nat) :
  getSpecialEnd_rec n s start = Ok e ->
  (e < size s)%nat /\
  (str_at s start = "("%char -> str_at s e = ")"%char) /\
  (str_at s start = "{"%char -> str_at s e = "}"%char).
Proof.
  revert start. induction n as [| n IH]; intros start H; [discriminate H |].
  cbn [getSpecialEnd_rec] in H.
  destruct (start <? size s - 1)%nat eqn:Hs; cbn [negb] in H; [| discriminate H].
  apply Nat.ltb_lt in Hs.
  destruct (str_contains SPECIAL_TYPES (str_at s start)) eqn:Hsp; cbn [negb] in H;
    [| discriminate H].
  destruct (Ascii.eqb (str_at s start) (Ty.to_char Ty.Array)) eqn:Ha.
  - apply Ascii.eqb_eq in Ha.
    assert (Hno : (str_at s start = "("%char -> str_at s e = ")"%char) /\
                  (str_at s start = "{"%char -> str_at s e = "}"%char)).
    { rewrite Ha. split; discriminate. }
    destruct (str_contains SINGLE_TYPES (str_at s (start + 1))).
    { injection H as <-. split; [lia | exact Hno]. }
    destruct (str_contains SPECIAL_TYPES (str_at s (start + 1))); [| discriminate H].
    destruct (size s - 2 <=? start)%nat; [discriminate H |].
    split; [apply (IH _ H) | exact Hno].
  - apply Ascii.eqb_neq in Ha.
    destruct (getSpecialEnd_loop _ _ _ _ _ _) as [[e' cnt'] | |] eqn:Hloop;
      cbn [bind fst snd] in H; try discriminate H.
    destruct (cnt' =? 0)%Z eqn:Hc; cbn [negb] in H; [| discriminate H].
    injection H as <-. apply Z.eqb_eq in Hc.
    destruct (getSpecialEnd_loop_closer _ _ _ _ _ 1%Z _ _ ltac:(lia) Hloop Hc)
      as [Hlt Hch].
    split; [exact Hlt |]. rewrite Hch. split; intros ->; reflexivity.
Qed.

(** X6: [getSpecialEnd], called as its two assertions require (the start
    is before the last character and holds [a], [(] or [{]), fails no
    assertion: it throws InvalidType or returns a position after the start
    and inside the text, and for a start at [(] or [{] that position holds
    the matching [)] or [}]. *)
Theorem getSpecialEnd_stays_inside (s : string) (start : nat) :
  (start < size s - 1)%nat ->
  str_contains SPECIAL_TYPES (str_at s start) = true ->
  settled (getSpecialEnd s start) /\
  forall e, getSpecialEnd s start = Ok e ->
            (start < e < size s)%nat /\
            (str_at s start = "("%char -> str_at s e = ")"%char) /\
            (str_at s start = "{"%char -> str_at s e = "}"%char).
Proof.
  intros Hs Hsp. destruct (getSpecialEnd_settled s start Hs Hsp) as [Hset Hlt].
  split; [exact Hset |]. intros e He.
  destruct (getSpecialEnd_rec_inside _ s start e He) as (Hin & Hp & Hb).
  specialize (Hlt e He). repeat split; assumption || lia.
Qed.

(** The struct inside [a(s(ub))]: it starts at 1 and its closing
    parenthesis is found at 7. *)
Lemma getSpecialEnd_stays_inside_witness :
  settled (getSpecialEnd "a(s(ub))" 1) /\
  forall e, getSpecialEnd "a(s(ub))" 1 = Ok e ->
            (1 < e < size "a(s(ub))")%nat /\
            (str_at "a(s(ub))" 1 = "("%char -> str_at "a(s(ub))" e = ")"%char) /\
            (str_at "a(s(ub))" 1 = "{"%char -> str_at "a(s(ub))" e = "}"%char).
Proof.
  apply (getSpecialEnd_stays_inside "a(s(ub))" 1); [vm_compute; lia | reflexivity].
Defined.


(** *** Every well-formed signature is parsed *)

Lemma size_app (a b : string) : size (a ++ b) = (size a + size b)%nat.
Proof.
  induction a as [| c a IH]; [reflexivity |].
  rewrite append_cons. unfold size in *. simpl. now rewrite IH.
Qed.

Lemma size_cons (c : ascii) (s : string) : size (String c s) = S (size s).
Proof. reflexivity. Qed.

Lemma str_at_app (pre rest : string) (i : nat) :
  str_at (pre ++ rest) (size pre + i) = str_at rest i.
Proof.
  induction pre as [| c pre IH]; [reflexivity |].
  rewrite append_cons. unfold str_at, size in *. simpl. exact IH.
Qed.

Lemma str_at_app_0 (pre rest : string) :
  str_at (pre ++ rest) (size pre) = str_at rest 0.
Proof. rewrite <- (Nat.add_0_r (size pre)). apply str_at_app. Qed.

Lemma substr_app_l (t post : string) : substr (t ++ post) 0 (size t) = t.
Proof.
  induction t as [| c t IH]; [apply substr_zero_len |].
  rewrite append_cons. unfold substr, size in *. simpl. now rewrite IH.
Qed.

Lemma substr_app_r (pre rest : string) (n : nat) :
  substr (pre ++ rest) (size pre) n = substr rest 0 n.
Proof.
  induction pre as [| c pre IH]; [reflexivity |].
  rewrite append_cons. unfold substr, size in *. simpl. exact IH.
Qed.

Lemma substr_mid (pre t post : string) :
  substr (pre ++ t ++ post) (size pre) (size t) = t.
Proof. rewrite substr_app_r. apply substr_app_l. Qed.

Lemma back_app (a : string) (c : ascii) : back (a ++ String c "") = c.
Proof.
  unfold back. rewrite size_app. cbn [size String.length].
  replace (size a + 1 - 1)%nat with (size a) by lia.
  now rewrite str_at_app_0.
Qed.

Lemma str_forallb_app (p : ascii -> bool) (a b : string) :
  str_forallb p (a ++ b) = str_forallb p a && str_forallb p b.
Proof.
  induction a as [| c a IH]; [reflexivity |].
  rewrite append_cons. cbn [str_forallb]. rewrite IH. apply andb_assoc.
Qed.

Lemma single_is_valid_char (c : ascii) :
  str_contains SINGLE_TYPES c = true -> str_contains VALID_CHARS c = true.
Proof. intros H. char_cases H; reflexivity. Qed.

Lemma single_not_special (c : ascii) :
  str_contains SINGLE_TYPES c = true -> str_contains SPECIAL_TYPES c = false.
Proof. intros H. char_cases H; reflexivity. Qed.

Lemma single_no_bracket (c : ascii) :
  str_contains SINGLE_TYPES c = true ->
  Ascii.eqb c "(" = false /\ Ascii.eqb c ")" = false /\
  Ascii.eqb c "{" = false /\ Ascii.eqb c "}" = false.
Proof. intros H. char_cases H; repeat split. Qed.

(** What a well-formed signature looks like from outside: its characters
    are of the alphabet, it is not empty, and it is one primitive character
    or opens with a container mark and is longer. *)
Lemma wellformed_shape (t : string) :
  wellformed t ->
  str_forallb (str_contains VALID_CHARS) t = true /\
  ((exists c, t = String c "" /\ str_contains SINGLE_TYPES c = true) \/
   (str_contains SINGLE_TYPES (str_at t 0) = false /\
    str_contains SPECIAL_TYPES (str_at t 0) = true /\ (2 <= size t)%nat)).
Proof.
  intros H.
  induction H using wellformed_mut
    with (P0 := fun body => str_forallb (str_contains VALID_CHARS) body = true).
  - split; [cbn [str_forallb]; now rewrite (single_is_valid_char c H) |].
    left. now exists c.
  - destruct IHwellformed as [Hv Hs]. split; [cbn [str_forallb]; now rewrite Hv |].
    right. repeat split.
    destruct Hs as [(c & -> & _) | (_ & _ & Hn)]; unfold size in *; simpl in *; lia.
  - split.
    + cbn [str_forallb]. rewrite str_forallb_app, IHwellformed. reflexivity.
    + right. repeat split. rewrite size_cons, size_app. cbn [size String.length]. lia.
  - destruct IHwellformed1 as [Hk _], IHwellformed2 as [Hv _]. split.
    + cbn [str_forallb]. rewrite !str_forallb_app, Hk, Hv. reflexivity.
    + right. repeat split. rewrite size_cons, !size_app. cbn [size String.length]. lia.
  - reflexivity.
  - rewrite str_forallb_app. destruct IHwellformed as [-> _]. exact IHwellformed0.
Qed.

(** *** The bracket count over a well-formed signature *)

Lemma bracket_count_app (open close : ascii) (a b : string) (cnt : Z) :
  bracket_count open close (a ++ b) cnt
  = match bracket_count open close a cnt with
    | Some k => bracket_count open close b k
    | None => None
    end.
Proof.
  revert cnt. induction a as [| x a IH]; intros cnt; [reflexivity |].
  rewrite append_cons. cbn [bracket_count].
  match goal with |- context [(?k =? 0)%Z] => destruct (k =? 0)%Z end;
    [reflexivity | apply IH].
Qed.

(** The two pairs of brackets that [getSpecialEnd] counts. *)
Lemma wellformed_neutral (t : string) (open close : ascii) :
  wellformed t ->
  (open = "("%char /\ close = ")"%char) \/ (open = "{"%char /\ close = "}"%char) ->
  forall cnt, (1 <= cnt)%Z -> bracket_count open close t cnt = Some cnt.
Proof.
  intros H Hpair.
  induction H using wellformed_mut
    with (P0 := fun body => forall cnt, (1 <= cnt)%Z ->
                                        bracket_count open close body cnt = Some cnt);
    intros cnt Hcnt.
  - destruct (single_no_bracket c H) as (H1 & H2 & H3 & H4).
    cbn [bracket_count].
    destruct Hpair as [[-> ->] | [-> ->]]; rewrite ?H1, ?H2, ?H3, ?H4;
      (destruct (cnt =? 0)%Z eqn:E; [apply Z.eqb_eq in E; lia | reflexivity]).
  - cbn [bracket_count].
    destruct Hpair as [[-> ->] | [-> ->]]; cbn [Ascii.eqb Bool.eqb];
      (destruct (cnt =? 0)%Z eqn:E; [apply Z.eqb_eq in E; lia |]);
      now apply IHwellformed.
  - cbn [bracket_count]. rewrite bracket_count_app.
    destruct Hpair as [[-> ->] | [-> ->]]; cbn [Ascii.eqb Bool.eqb].
    + destruct (cnt + 1 =? 0)%Z eqn:E; [apply Z.eqb_eq in E; lia |].
      rewrite IHwellformed by lia. cbn [bracket_count Ascii.eqb Bool.eqb].
      replace (cnt + 1 - 1)%Z with cnt by lia.
      destruct (cnt =? 0)%Z eqn:E'; [apply Z.eqb_eq in E'; lia | reflexivity].
    + destruct (cnt =? 0)%Z eqn:E; [apply Z.eqb_eq in E; lia |].
      rewrite IHwellformed by lia. cbn [bracket_count Ascii.eqb Bool.eqb].
      now rewrite E.
  - cbn [bracket_count].
    destruct Hpair as [[-> ->] | [-> ->]]; cbn [Ascii.eqb Bool.eqb].
    + destruct (cnt =? 0)%Z eqn:E; [apply Z.eqb_eq in E; lia |].
      rewrite bracket_count_app, IHwellformed1 by lia.
      rewrite bracket_count_app, IHwellformed2 by lia.
      cbn [bracket_count Ascii.eqb Bool.eqb]. now rewrite E.
    + destruct (cnt + 1 =? 0)%Z eqn:E; [apply Z.eqb_eq in E; lia |].
      rewrite bracket_count_app, IHwellformed1 by lia.
      rewrite bracket_count_app, IHwellformed2 by lia.
      cbn [bracket_count Ascii.eqb Bool.eqb].
      replace (cnt + 1 - 1)%Z with cnt by lia.
      destruct (cnt =? 0)%Z eqn:E'; [apply Z.eqb_eq in E'; lia | reflexivity].
  - reflexivity.
  - rewrite bracket_count_app, IHwellformed by exact Hcnt. now apply IHwellformed0.
Qed.

Lemma wellformed_row_neutral (body : string) (open close : ascii) :
  wellformed_row body ->
  (open = "("%char /\ close = ")"%char) \/ (open = "{"%char /\ close = "}"%char) ->
  forall cnt, (1 <= cnt)%Z -> bracket_count open close body cnt = Some cnt.
Proof.
  intros H Hpair. induction H as [| t ts Ht _ IH]; intros cnt Hcnt; [reflexivity |].
  rewrite bracket_count_app, (wellformed_neutral t open close Ht Hpair cnt Hcnt).
  now apply IH.
Qed.

(** The loop of [getSpecialEnd] passes over a stretch of text on which the
    count does not come to 0. *)
Lemma getSpecialEnd_loop_skip (mid pre post : string) (n : nat) (open c : ascii)
    (cnt cnt' : Z) :
  bracket_count open c mid cnt = Some cnt' ->
  (size (pre ++ mid ++ post) <= n + size pre)%nat ->
  getSpecialEnd_loop n (pre ++ mid ++ post) open c (size pre) cnt
  = getSpecialEnd_loop (n - size mid) (pre ++ mid ++ post) open c
      (size pre + size mid) cnt'.
Proof.
  revert pre n cnt. induction mid as [| x mid IH]; intros pre n cnt Hcount Hn.
  - injection Hcount as <-. cbn [size String.length].
    now rewrite Nat.sub_0_r, Nat.add_0_r.
  - cbn [bracket_count] in Hcount.
    rewrite !size_app, size_cons in Hn.
    destruct n as [| n]; [lia |].
    cbn [getSpecialEnd_loop].
    replace (size (pre ++ String x mid ++ post) <=? size pre)%nat with false
      by (symmetry; apply Nat.leb_gt; rewrite !size_app, size_cons; lia).
    rewrite str_at_app_0. rewrite append_cons.
    change (str_at (String x (mid ++ post)) 0) with x.
    match type of Hcount with
    | (if (?k =? 0)%Z then _ else _) = _ =>
        destruct (k =? 0)%Z; [discriminate Hcount |]
    end.
    rewrite <- append_cons.
    replace (pre ++ String x mid ++ post) with ((pre ++ String x "") ++ mid ++ post)
      by (now rewrite append_assoc, append_one, append_cons).
    replace (S (size pre)) with (size (pre ++ String x ""))
      by (rewrite size_app; cbn [size String.length]; lia).
    rewrite (IH (pre ++ String x "") n _ Hcount)
      by (rewrite !size_app in *; cbn [size String.length] in *; lia).
    f_equal; rewrite ?size_app, ?size_cons; cbn [size String.length]; lia.
Qed.

(** At the closing bracket that brings the count to 0 the loop stops. *)
Lemma getSpecialEnd_loop_close (pre post : string) (n : nat) (open c : ascii) :
  Ascii.eqb c open = false ->
  (1 <= n)%nat ->
  getSpecialEnd_loop n (pre ++ String c post) open c (size pre) 1
  = Ok (size pre, 0%Z).
Proof.
  intros Hne Hn. destruct n as [| n]; [lia |]. cbn [getSpecialEnd_loop].
  replace (size (pre ++ String c post) <=? size pre)%nat with false
    by (symmetry; apply Nat.leb_gt; rewrite size_app, size_cons; lia).
  rewrite str_at_app_0. change (str_at (String c post) 0) with c.
  rewrite Hne, Ascii.eqb_refl. reflexivity.
Qed.

Lemma str_at_app_l (t post : string) (i : nat) :
  (i < size t)%nat -> str_at (t ++ post) i = str_at t i.
Proof.
  revert i. induction t as [| c t IH]; intros i Hi; [cbn in Hi; lia |].
  rewrite append_cons. destruct i as [| i]; [reflexivity |].
  unfold str_at in *. simpl. apply IH. rewrite size_cons in Hi. lia.
Qed.

Ltac sizes :=
  repeat first [rewrite size_app | rewrite size_cons];
  change (size "") with 0%nat.

Ltac sizes_in H :=
  repeat first [rewrite size_app in H | rewrite size_cons in H];
  change (size "") with 0%nat in H.

Lemma size_post (post : string) : post <> "" -> (1 <= size post)%nat.
Proof. destruct post; [congruence | rewrite size_cons; lia]. Qed.

(** [getSpecialEnd] finds the end of a well-formed composite signature
    wherever it stands in a text, provided something follows it. *)
Lemma getSpecialEnd_rec_token (t : string) :
  wellformed t -> (2 <= size t)%nat ->
  forall pre post n, post <> "" ->
    (size (pre ++ t ++ post) <= n + size pre)%nat ->
    getSpecialEnd_rec n (pre ++ t ++ post) (size pre)
    = Ok (size pre + size t - 1)%nat.
Proof.
  intros H.
  induction H using wellformed_mut with (P0 := fun _ => True);
    try exact I; intros Hsize pre post n Hpost Hn.
  - sizes_in Hsize. lia.
  - (* array *)
    pose proof (size_post post Hpost) as Hp.
    pose proof (wellformed_shape t H) as [_ Hshape].
    sizes_in Hn.
    destruct n as [| n]; [lia |].
    cbn [getSpecialEnd_rec].
    replace (size pre <? size (pre ++ String "a" t ++ post) - 1)%nat with true
      by (symmetry; apply Nat.ltb_lt; sizes; lia).
    rewrite str_at_app_0, append_cons.
    change (str_at (String "a" (t ++ post)) 0) with "a"%char.
    change (str_contains SPECIAL_TYPES "a") with true.
    change (Ascii.eqb "a" (Ty.to_char Ty.Array)) with true.
    cbn [negb].
    rewrite str_at_app.
    change (str_at (String "a" (t ++ post)) 1) with (str_at (t ++ post) 0).
    destruct Hshape as [(c & -> & Hc) | (Hns & Hsp & Ht)].
    + change (str_at (String c "" ++ post) 0) with c. rewrite Hc.
      f_equal. sizes. lia.
    + rewrite str_at_app_l by lia. rewrite Hns, Hsp.
      replace (size (pre ++ String "a" (t ++ post)) - 2 <=? size pre)%nat with false
        by (symmetry; apply Nat.leb_gt; sizes; lia).
      rewrite <- append_cons.
      replace (pre ++ String "a" t ++ post) with ((pre ++ String "a" "") ++ t ++ post)
        by (now rewrite append_assoc, append_one, append_cons).
      replace (size pre + 1)%nat with (size (pre ++ String "a" ""))
        by (sizes; lia).
      rewrite (IHwellformed Ht (pre ++ String "a" "") post n Hpost)
        by (sizes; lia).
      f_equal. sizes. lia.
  - (* struct *)
    pose proof (size_post post Hpost) as Hp.
    sizes_in Hn.
    destruct n as [| n]; [lia |].
    cbn [getSpecialEnd_rec].
    replace (size pre <? size (pre ++ String "(" (body ++ ")") ++ post) - 1)%nat
      with true
      by (symmetry; apply Nat.ltb_lt; sizes; lia).
    rewrite str_at_app_0, append_cons.
    change (str_at (String "(" ((body ++ ")") ++ post)) 0) with "("%char.
    change (str_contains SPECIAL_TYPES "(") with true.
    change (Ascii.eqb "(" (Ty.to_char Ty.Array)) with false.
    change (Ascii.eqb "(" "{") with false.
    cbn [negb].
    replace (pre ++ String "(" ((body ++ ")") ++ post))
      with ((pre ++ String "(" "") ++ body ++ String ")" post)
      by (now rewrite !append_assoc, append_one).
    replace (size pre + 1)%nat with (size (pre ++ String "(" ""))
      by (sizes; lia).
    rewrite (getSpecialEnd_loop_skip body _ _ _ "(" ")" 1 1
               (wellformed_row_neutral body "(" ")" H (or_introl (conj eq_refl eq_refl))
                  1%Z ltac:(lia)))
      by (sizes; lia).
    replace ((pre ++ String "(" "") ++ body ++ String ")" post)
      with (((pre ++ String "(" "") ++ body) ++ String ")" post)
      by (now rewrite !append_assoc).
    rewrite <- size_app.
    rewrite getSpecialEnd_loop_close
      by (first [reflexivity | sizes; lia]).
    cbn [bind fst snd negb Z.eqb]. f_equal.
    sizes. lia.
  - (* dict *)
    pose proof (size_post post Hpost) as Hp.
    sizes_in Hn.
    destruct n as [| n]; [lia |].
    cbn [getSpecialEnd_rec].
    replace (size pre <? size (pre ++ String "{" (k ++ v ++ "}") ++ post) - 1)%nat
      with true
      by (symmetry; apply Nat.ltb_lt; sizes; lia).
    rewrite str_at_app_0, append_cons.
    change (str_at (String "{" ((k ++ v ++ "}") ++ post)) 0) with "{"%char.
    change (str_contains SPECIAL_TYPES "{") with true.
    change (Ascii.eqb "{" (Ty.to_char Ty.Array)) with false.
    change (Ascii.eqb "{" "{") with true.
    cbn [negb].
    replace (pre ++ String "{" ((k ++ v ++ "}") ++ post))
      with ((pre ++ String "{" "") ++ (k ++ v) ++ String "}" post)
      by (now rewrite !append_assoc, append_one).
    replace (size pre + 1)%nat with (size (pre ++ String "{" ""))
      by (sizes; lia).
    assert (Hkv : bracket_count "{" "}" (k ++ v) 1 = Some 1%Z).
    { rewrite bracket_count_app.
      rewrite (wellformed_neutral k "{" "}" H (or_intror (conj eq_refl eq_refl)) 1%Z)
        by lia.
      apply (wellformed_neutral v "{" "}" H0 (or_intror (conj eq_refl eq_refl)) 1%Z).
      lia. }
    rewrite (getSpecialEnd_loop_skip (k ++ v) _ _ _ "{" "}" 1 1 Hkv)
      by (sizes; lia).
    replace ((pre ++ String "{" "") ++ (k ++ v) ++ String "}" post)
      with (((pre ++ String "{" "") ++ (k ++ v)) ++ String "}" post)
      by (now rewrite !append_assoc).
    rewrite <- size_app.
    rewrite getSpecialEnd_loop_close
      by (first [reflexivity | sizes; lia]).
    cbn [bind fst snd negb Z.eqb]. f_equal.
    sizes. lia.
Qed.

Lemma wellformed_not_empty (t : string) : wellformed t -> (1 <= size t)%nat.
Proof.
  intros H. destruct (wellformed_shape t H) as [_ [(c & -> & _) | (_ & _ & ?)]];
    [sizes |]; lia.
Qed.

(** The constructor returns a type for every well-formed signature; the
    loop over the fields of a struct does so for every row of them. *)
Lemma wellformed_parsed (t : string) :
  wellformed t ->
  forall fuel, (size t < fuel)%nat -> returns (TypeInfo_parse fuel t).
Proof.
  intros H.
  induction H using wellformed_mut
    with (P0 := fun body =>
                  forall fuel pre acc n,
                    (1 <= size pre)%nat ->
                    (size (pre ++ body ++ ")") <= fuel)%nat ->
                    (size (pre ++ body ++ ")") <= n + size pre)%nat ->
                    returns (struct_loop (TypeInfo_parse fuel) n
                               (pre ++ body ++ ")") (size pre) acc)).
  - (* primitive *)
    intros fuel Hfuel. destruct fuel as [| fuel]; [lia |].
    cbn [TypeInfo_parse size String.length Nat.eqb str_forallb negb].
    rewrite (single_is_valid_char c H). cbn [andb negb].
    change (str_at (String c "") 0) with c. rewrite H.
    destruct (single_has_type c H) as (k & -> & _). now eexists.
  - (* array *)
    intros fuel Hfuel. destruct fuel as [| fuel]; [lia |].
    pose proof (wellformed_shape _ (wellformed_array t H)) as [Hvalid _].
    pose proof (wellformed_not_empty t H) as Hne.
    sizes_in Hfuel.
    cbn [TypeInfo_parse].
    replace (size (String "a" t) =? 0)%nat with false by reflexivity.
    rewrite Hvalid. cbn [negb].
    change (str_at (String "a" t) 0) with "a"%char.
    change (str_contains SINGLE_TYPES "a") with false.
    change (str_contains SPECIAL_TYPES "a") with true. cbn [negb].
    replace (size (String "a" t) =? 1)%nat with false
      by (symmetry; apply Nat.eqb_neq; sizes; lia).
    change (Ty.of_char "a") with (Some Ty.Array). cbv iota.
    rewrite substr_from_tail.
    destruct (IHwellformed fuel ltac:(lia)) as [a ->]. now eexists.
  - (* struct *)
    intros fuel Hfuel. destruct fuel as [| fuel]; [lia |].
    pose proof (wellformed_shape _ (wellformed_struct body H)) as [Hvalid _].
    sizes_in Hfuel.
    cbn [TypeInfo_parse].
    replace (size (String "(" (body ++ ")")) =? 0)%nat with false by reflexivity.
    rewrite Hvalid. cbn [negb].
    change (str_at (String "(" (body ++ ")")) 0) with "("%char.
    change (str_contains SINGLE_TYPES "(") with false.
    change (str_contains SPECIAL_TYPES "(") with true. cbn [negb].
    replace (size (String "(" (body ++ ")")) =? 1)%nat with false
      by (symmetry; apply Nat.eqb_neq; sizes; lia).
    change (Ty.of_char "(") with (Some Ty.Struct). cbv iota.
    replace (back (String "(" (body ++ ")"))) with ")"%char
      by (rewrite <- append_cons; symmetry; apply back_app).
    change (Ascii.eqb ")" ")") with true. cbn [negb].
    replace (String "(" (body ++ ")")) with (String "(" "" ++ body ++ ")")
      by reflexivity.
    destruct (IHwellformed fuel (String "(" "") [] (size (String "(" "" ++ body ++ ")")))
      as [fs Hfs]; [sizes; lia | sizes; lia | sizes; lia |].
    change (size (String "(" "")) with 1%nat in Hfs. rewrite Hfs. now eexists.
  - (* dict *)
    intros fuel Hfuel. destruct fuel as [| fuel]; [lia |].
    pose proof (wellformed_shape _ (wellformed_dict k v H H0)) as [Hvalid _].
    pose proof (wellformed_shape k H) as [_ Hk].
    pose proof (wellformed_shape v H0) as [_ Hv].
    pose proof (wellformed_not_empty k H) as Hkn.
    pose proof (wellformed_not_empty v H0) as Hvn.
    sizes_in Hfuel.
    cbn [TypeInfo_parse].
    replace (size (String "{" (k ++ v ++ "}")) =? 0)%nat with false by reflexivity.
    rewrite Hvalid. cbn [negb].
    change (str_at (String "{" (k ++ v ++ "}")) 0) with "{"%char.
    change (str_contains SINGLE_TYPES "{") with false.
    change (str_contains SPECIAL_TYPES "{") with true. cbn [negb].
    replace (size (String "{" (k ++ v ++ "}")) =? 1)%nat with false
      by (symmetry; apply Nat.eqb_neq; sizes; lia).
    change (Ty.of_char "{") with (Some Ty.Dict). cbv iota.
    set (s := String "{" (k ++ v ++ "}")).
    assert (Hs : size s = (size k + size v + 2)%nat) by (unfold s; sizes; lia).
    assert (Hs1 : s = String "{" "" ++ k ++ (v ++ "}")) by reflexivity.
    assert (Hs2 : s = (String "{" "" ++ k) ++ v ++ "}")
      by (unfold s; now rewrite append_one).
    assert (Hback : back s = "}"%char).
    { unfold s. rewrite <- append_cons, <- append_assoc. apply back_app. }
    assert (Hkey : substr s 1 (size k) = k).
    { rewrite Hs1. change 1%nat with (size (String "{" "")). apply substr_mid. }
    assert (Hval : substr s (size k + 1) (size v) = v).
    { rewrite Hs2. replace (size k + 1)%nat with (size (String "{" "" ++ k))
        by (sizes; lia). apply substr_mid. }
    assert (Hk0 : str_at s 1 = str_at k 0).
    { unfold s. change (str_at (String "{" (k ++ v ++ "}")) 1)
        with (str_at (k ++ v ++ "}") 0). apply str_at_app_l. lia. }
    assert (Hv0 : str_at s (size k + 1) = str_at v 0).
    { rewrite Hs2. replace (size k + 1)%nat with (size (String "{" "" ++ k))
        by (sizes; lia). rewrite str_at_app_0. apply str_at_app_l. lia. }
    destruct (IHwellformed1 fuel ltac:(lia)) as [tk Htk].
    destruct (IHwellformed2 fuel ltac:(lia)) as [tv Htv].
    unfold parse_dict. rewrite Hback.
    change (Ascii.eqb "}" "}") with true. cbn [negb].
    assert (Hkeypart :
      (if str_contains SINGLE_TYPES (str_at s 1)
       then k0 <- TypeInfo_parse fuel (substr s 1 1);; Ok (k0, 2%nat)
       else if str_contains SPECIAL_TYPES (str_at s 1)
            then key_end <- getSpecialEnd s 1;;
                 (if (size s - 1 <=? key_end)%nat then Throw (InvalidType1 s)
                  else k0 <- TypeInfo_parse fuel (substr s 1 key_end);;
                       Ok (k0, (key_end + 1)%nat))
            else Throw (InvalidType1 s))
      = Ok (tk, (size k + 1)%nat)).
    { rewrite Hk0.
      destruct Hk as [(c & Ek & Hc) | (Hns & Hsp & Hk2)].
      - rewrite Ek in *. change (str_at (String c "") 0) with c. rewrite Hc.
        change (size (String c "")) with 1%nat in Hkey. rewrite Hkey, Htk.
        reflexivity.
      - rewrite Hns, Hsp. unfold getSpecialEnd.
        rewrite Hs1 at 1 2. change 1%nat with (size (String "{" "")) at 1.
        rewrite (getSpecialEnd_rec_token k H Hk2 (String "{" "") (v ++ "}"))
          by (first [ destruct v; discriminate | sizes; lia ]).
        cbn [bind]. change (size (String "{" "")) with 1%nat.
        replace (1 + size k - 1)%nat with (size k) by lia.
        replace (size s - 1 <=? size k)%nat with false
          by (symmetry; apply Nat.leb_gt; lia).
        rewrite Hkey, Htk. reflexivity. }
    rewrite Hkeypart. cbn [bind fst snd].
    replace (size s <=? size k + 1)%nat with false
      by (symmetry; apply Nat.leb_gt; lia).
    rewrite Hv0.
    destruct Hv as [(c & Ev & Hc) | (Hns & Hsp & Hv2)].
    + rewrite Ev in *. change (str_at (String c "") 0) with c. rewrite Hc.
      change (size (String c "")) with 1%nat in Hval. rewrite Hval, Htv.
      now eexists.
    + rewrite Hns, Hsp. unfold getSpecialEnd.
      rewrite Hs2 at 1 2.
      replace (size k + 1)%nat with (size (String "{" "" ++ k)) at 1 by (sizes; lia).
      rewrite (getSpecialEnd_rec_token v H0 Hv2 (String "{" "" ++ k) "}")
        by (first [ discriminate | sizes; lia ]).
      cbn [bind].
      replace (size (String "{" "" ++ k) + size v - 1 =? size s - 2)%nat with true
        by (symmetry; apply Nat.eqb_eq; sizes; lia).
      cbn [negb].
      replace (size (String "{" "" ++ k) + size v - 1 - (size k + 1) + 1)%nat
        with (size v) by (sizes; lia).
      rewrite Hval, Htv. now eexists.
  - (* no field left *)
    intros fuel pre acc n Hpre Hfuel Hn.
    rewrite append_nil_l in *.
    destruct n as [| n]; cbn [struct_loop];
      replace (size (pre ++ ")") - 1 <=? size pre)%nat with true
        by (symmetry; apply Nat.leb_le; sizes; lia);
      now eexists.
  - (* a field and the rest *)
    intros fuel pre acc n Hpre Hfuel Hn.
    pose proof (wellformed_shape t H) as [_ Ht].
    pose proof (wellformed_not_empty t H) as Htn.
    set (s := pre ++ (t ++ ts) ++ ")") in *.
    assert (Hs : size s = (size pre + size t + size ts + 1)%nat)
      by (unfold s; sizes; lia).
    assert (Hs1 : s = pre ++ t ++ (ts ++ ")"))
      by (unfold s; now rewrite !append_assoc).
    assert (Hs2 : s = (pre ++ t) ++ ts ++ ")")
      by (unfold s; now rewrite !append_assoc).
    assert (Ht0 : str_at s (size pre) = str_at t 0).
    { rewrite Hs1, str_at_app_0. apply str_at_app_l. lia. }
    destruct n as [| n]; [lia |].
    cbn [struct_loop].
    replace (size s - 1 <=? size pre)%nat with false
      by (symmetry; apply Nat.leb_gt; lia).
    rewrite Ht0.
    destruct Ht as [(c & Et & Hc) | (Hns & Hsp & Ht2)].
    + rewrite Et in *. change (str_at (String c "") 0) with c. rewrite Hc.
      unfold TypeInfo_of_char. rewrite Hc.
      destruct (single_has_type c Hc) as (kd & -> & _). cbn [bind].
      replace (S (size pre)) with (size (pre ++ String c "")) by (sizes; lia).
      rewrite Hs2.
      apply IHwellformed0; rewrite <- ?Hs2; sizes; sizes_in Hs; lia.
    + rewrite Hns, Hsp. unfold getSpecialEnd.
      rewrite Hs1 at 1 2.
      rewrite (getSpecialEnd_rec_token t H Ht2 pre (ts ++ ")"))
        by (first [ destruct ts; discriminate | sizes; lia ]).
      cbn [bind].
      replace (size s - 1 <=? size pre + size t - 1)%nat with false
        by (symmetry; apply Nat.leb_gt; lia).
      replace (size pre + size t - 1 - size pre + 1)%nat with (size t) by lia.
      rewrite Hs1 at 1. rewrite substr_mid.
      destruct (IHwellformed fuel ltac:(lia)) as [ty ->]. cbn [bind].
      replace (S (size pre + size t - 1)) with (size (pre ++ t)) by (sizes; lia).
      rewrite Hs2.
      apply IHwellformed0; rewrite <- ?Hs2; sizes; lia.
Qed.

(** X31: every well-formed signature is parsed.  For a text built by the
    grammar (a primitive character; ['a'] and a signature; ['('], a row of
    signatures, possibly empty, and [')']; ['{'], a signature for the key,
    one for the value and ['}']) the constructor returns a type, and the
    signature of that type is the text. *)
Theorem wellformed_signatures_are_parsed (s : string) :
  wellformed s ->
  exists t, TypeInfo_of_string s = Ok t /\ typeSignature t = s.
Proof.
  intros H.
  destruct (wellformed_parsed s H (S (size s)) ltac:(lia)) as [t Ht].
  exists t. split; [exact Ht |].
  exact (proj1 (TypeInfo_of_string_signature s t Ht)).
Qed.

(** An array of dicts from strings to structs of a uint16 and a boolean. *)
Lemma wellformed_signatures_are_parsed_witness :
  wellformed "a{s(qb)}" /\
  exists t, TypeInfo_of_string "a{s(qb)}" = Ok t /\ typeSignature t = "a{s(qb)}".
Proof.
  assert (H : wellformed "a{s(qb)}").
  { apply wellformed_array.
    apply (wellformed_dict "s" "(qb)").
    - now apply wellformed_primitive.
    - apply (wellformed_struct "qb").
      apply (wellformed_more "q" "b"); [now apply wellformed_primitive |].
      apply (wellformed_more "b" ""); [now apply wellformed_primitive |].
      apply wellformed_none. }
  split; [exact H |].
  exact (wellformed_signatures_are_parsed "a{s(qb)}" H).
Defined.

(** ** Typed access to a Variant *)

Lemma Ty_eqb_sym (a b : Ty.Type_) : Ty.eqb a b = Ty.eqb b a.
Proof. destruct a, b; reflexivity. Qed.

(** The low 16 bits of an [int32_t] are those of the number itself. *)
Lemma int16_of_int32 (z : Z) : int16_t (int32_t z) = int16_t z.
Proof.
  unfold int16_t, int32_t, sint_cast.
  replace ((if (z mod 2 ^ 32 <? 2 ^ (32 - 1))%Z then (z mod 2 ^ 32)%Z
            else (z mod 2 ^ 32 - 2 ^ 32)%Z) mod 2 ^ 16)%Z with (z mod 2 ^ 16)%Z;
    [reflexivity |].
  change (2 ^ 32)%Z with (2 ^ 16 * 2 ^ 16)%Z.
  destruct (z mod (2 ^ 16 * 2 ^ 16) <? 2 ^ (32 - 1))%Z.
  - rewrite Z.rem_mul_r by lia. rewrite Z.mul_comm, Z.mod_add by lia.
    now rewrite Z.mod_mod by lia.
  - rewrite Z.rem_mul_r by lia.
    replace (z mod 2 ^ 16 + 2 ^ 16 * ((z / 2 ^ 16) mod 2 ^ 16) - 2 ^ 16 * 2 ^ 16)%Z
      with (z mod 2 ^ 16 + ((z / 2 ^ 16) mod 2 ^ 16 - 2 ^ 16) * 2 ^ 16)%Z by ring.
    rewrite Z.mod_add by lia. now rewrite Z.mod_mod by lia.
Qed.

Lemma NUM_TYPE_assigns_and_reads (t : Ty.Type_) (cast : Z -> Z) (v : IPCVariant)
    (x : Z) :
  (forall z, cast (uint64_t (cast z)) = cast z) ->
  assigns_and_reads (Ty.eqb t)
    (fun v x => NUM_TYPE_assign t v (cast x)) (NUM_TYPE_get t cast)
    (fun v x => NUM_TYPE_eq t cast Z.eqb v (cast x)) v x (cast x).
Proof.
  intros Hcast.
  unfold assigns_and_reads, NUM_TYPE_assign, NUM_TYPE_get, NUM_TYPE_eq, type.
  rewrite (Ty_eqb_sym t).
  destruct (Ty.eqb (primaryType (_type v)) t) eqn:Hk; cbn [negb]; [| reflexivity].
  eexists. split; [reflexivity |]. cbn [set_num_data _type _num_data _array _dict].
  rewrite Hk. cbn [negb]. rewrite Hcast, Z.eqb_refl. repeat split.
Qed.

(** X7: typed assignment and typed read agree.  For each of the C types
    int16, uint16, int32, uint32, int64, uint64, byte, bool and string, the
    assignment [v = x] to a Variant of the matching kind succeeds, the
    accessor of that type then returns [x], [v == x] holds, and the
    Variant's type and children are unchanged; on a Variant of any other
    kind the assignment throws InvalidType (a string may be assigned to
    the kinds String, Signature and ObjectPath). *)
Theorem typed_assignment_then_read (v : IPCVariant) (x : Z) (b : bool) (s : string) :
  assigns_and_reads (Ty.eqb Ty.Int16) assign_int16 as_int16 eq_int16 v x (int16_t x) /\
  assigns_and_reads (Ty.eqb Ty.UInt16) assign_uint16 as_uint16 eq_uint16 v x (uint16_t x) /\
  assigns_and_reads (Ty.eqb Ty.Int32) assign_int32 as_int32 eq_int32 v x (int32_t x) /\
  assigns_and_reads (Ty.eqb Ty.UInt32) assign_uint32 as_uint32 eq_uint32 v x (uint32_t x) /\
  assigns_and_reads (Ty.eqb Ty.Int64) assign_int64 as_int64 eq_int64 v x (int64_t x) /\
  assigns_and_reads (Ty.eqb Ty.UInt64) assign_uint64 as_uint64 eq_uint64 v x (uint64_t x) /\
  assigns_and_reads (Ty.eqb Ty.Byte) assign_uint8 as_uint8 eq_uint8 v x (uint8_t x) /\
  assigns_and_reads (Ty.eqb Ty.Boolean) assign_bool as_bool eq_bool v b b /\
  assigns_and_reads is_string_kind assign_string as_string eq_string v s s.
Proof.
  repeat match goal with |- _ /\ _ => split end.
  1-7: apply NUM_TYPE_assigns_and_reads; intros z; casts.
  - unfold assigns_and_reads, assign_bool, as_bool, eq_bool, NUM_TYPE_assign,
      NUM_TYPE_eq, type.
    rewrite (Ty_eqb_sym Ty.Boolean).
    destruct (Ty.eqb (primaryType (_type v)) Ty.Boolean) eqn:Hk; cbn [negb];
      [| reflexivity].
    eexists. split; [reflexivity |]. cbn [set_num_data _type _num_data _array _dict].
    rewrite Hk. cbn [negb]. destruct b; repeat split.
  - unfold assigns_and_reads, assign_string, as_string, eq_string, type.
    destruct (is_string_kind (primaryType (_type v))) eqn:Hk; cbn [negb];
      [| reflexivity].
    eexists. split; [reflexivity |]. cbn [_type _string_data _array _dict].
    rewrite Hk. cbn [negb]. rewrite String.eqb_refl. repeat split.
Qed.

Lemma NUM_TYPE_compares_as_read (t : Ty.Type_) (cast : Z -> Z) (v : IPCVariant)
    (x : Z) :
  compares_as_read (fun v x => NUM_TYPE_eq t cast Z.eqb v (cast x))
    (fun v x => NUM_TYPE_ne t cast Z.eqb v (cast x)) (NUM_TYPE_get t cast) v x (cast x).
Proof.
  unfold compares_as_read, NUM_TYPE_eq, NUM_TYPE_ne, NUM_TYPE_get.
  destruct (Ty.eqb (primaryType (_type v)) t); cbn [negb].
  - split; [| reflexivity]. rewrite Z.eqb_eq. split; [now intros -> | congruence].
  - split; [| reflexivity]. split; discriminate.
Qed.

(** X8: comparing a Variant with a C value never throws and agrees with
    the typed read: for the integer types, byte and string, [v == x] is true
    exactly when the accessor of that type returns [x] (so it is false on a
    Variant of another kind, where the accessor throws), and [v != x] is
    the negation of [v == x], also for double and bool.  For bool the two
    disagree on a Variant that is not a Boolean: the accessor returns
    [false], yet [v == false] is false and [v != false] is true. *)
Theorem typed_comparison_agrees_with_read (v : IPCVariant) (x : Z) (b : bool)
    (s : string) (d : double) :
  compares_as_read eq_int16 ne_int16 as_int16 v x (int16_t x) /\
  compares_as_read eq_uint16 ne_uint16 as_uint16 v x (uint16_t x) /\
  compares_as_read eq_int32 ne_int32 as_int32 v x (int32_t x) /\
  compares_as_read eq_uint32 ne_uint32 as_uint32 v x (uint32_t x) /\
  compares_as_read eq_int64 ne_int64 as_int64 v x (int64_t x) /\
  compares_as_read eq_uint64 ne_uint64 as_uint64 v x (uint64_t x) /\
  compares_as_read eq_uint8 ne_uint8 as_uint8 v x (uint8_t x) /\
  compares_as_read eq_string ne_string as_string v s s /\
  ne_double v d = negb (eq_double v d) /\
  ne_bool v b = negb (eq_bool v b) /\
  (eq_bool v b = true <->
   primaryType (type v) = Ty.Boolean /\ as_bool v = Ok b) /\
  (primaryType (type v) <> Ty.Boolean ->
   as_bool v = Ok false /\ eq_bool v false = false /\ ne_bool v false = true).
Proof.
  repeat match goal with |- _ /\ _ => split end.
  1-7: apply NUM_TYPE_compares_as_read.
  - unfold compares_as_read, eq_string, ne_string, as_string.
    destruct (is_string_kind (primaryType (_type v))); cbn [negb].
    + split; [| reflexivity]. rewrite String.eqb_eq.
      split; [now intros -> | congruence].
    + split; [| reflexivity]. split; discriminate.
  - unfold ne_double, eq_double, NUM_TYPE_ne, NUM_TYPE_eq.
    now destruct (Ty.eqb (primaryType (_type v)) Ty.Double).
  - unfold ne_bool, eq_bool, NUM_TYPE_ne, NUM_TYPE_eq.
    now destruct (Ty.eqb (primaryType (_type v)) Ty.Boolean).
  - unfold eq_bool, NUM_TYPE_eq, as_bool, type.
    destruct (Ty.eqb (primaryType (_type v)) Ty.Boolean) eqn:Hk; cbn [negb].
    + apply Ty_eqb_eq in Hk. rewrite Bool.eqb_true_iff.
      split; [now intros -> | intros [_ H]; congruence].
    + apply Ty_eqb_neq in Hk. split; [discriminate | intros [H _]; contradiction].
  - intros Hk. apply Ty_eqb_neq in Hk.
    unfold as_bool, eq_bool, ne_bool, NUM_TYPE_eq, NUM_TYPE_ne, type in *.
    rewrite Hk. repeat split.
Qed.

(** X9: what a freshly constructed Variant reads back as.  A Variant built
    from an int16, uint16, uint32, int64, uint64, byte or bool returns that
    value through the accessor of the same type; one built from a string
    with a kind returns the string when the kind is String, Signature or
    ObjectPath, and the construction throws InvalidType for every other
    kind; one built from a double holds the integral part of it.  A Variant
    built from an [int32_t] is an Int16 Variant: its signature is [n], the
    int32 accessor throws InvalidType and the int16 accessor returns the
    low 16 bits. *)
Theorem constructed_Variant_reads_back (x : Z) (b : bool) (s : string)
    (d : double) (k : Ty.Type_) :
  (v <- IPCVariant_int16 x ;; as_int16 v) = Ok (int16_t x) /\
  (v <- IPCVariant_uint16 x ;; as_uint16 v) = Ok (uint16_t x) /\
  (v <- IPCVariant_uint32 x ;; as_uint32 v) = Ok (uint32_t x) /\
  (v <- IPCVariant_int64 x ;; as_int64 v) = Ok (int64_t x) /\
  (v <- IPCVariant_uint64 x ;; as_uint64 v) = Ok (uint64_t x) /\
  (v <- IPCVariant_uint8 x ;; as_uint8 v) = Ok (uint8_t x) /\
  (v <- IPCVariant_bool b ;; as_bool v) = Ok b /\
  (v <- IPCVariant_string s k ;; as_string v)
  = (if is_string_kind k then Ok s else Throw InvalidType0) /\
  (v <- IPCVariant_double d ;; as_double v)
  = (n <- uint64_of_double d ;; Ok (double_of_Z n)) /\
  (v <- IPCVariant_int32 x ;; as_int32 v) = Throw InvalidType0 /\
  (v <- IPCVariant_int32 x ;; as_int16 v) = Ok (int16_t x) /\
  (v <- IPCVariant_int32 x ;; Ok (typeSignature (type v))) = Ok "n".
Proof.
  repeat match goal with |- _ /\ _ => split end.
  1-6: cbn -[int16_t uint16_t int32_t uint32_t int64_t uint64_t uint8_t];
       f_equal; casts.
  - now destruct b.
  - destruct k; reflexivity.
  - unfold IPCVariant_double, uint64_of_double.
    destruct (trunc_double d) as [z |]; [| reflexivity].
    destruct ((0 <=? z)%Z && (z <? 2 ^ 64)%Z) eqn:Hr; [| reflexivity].
    cbn -[uint64_t double_of_Z]. do 2 f_equal.
    apply andb_true_iff in Hr. destruct Hr as [H0 H1].
    apply Z.leb_le in H0. apply Z.ltb_lt in H1.
    unfold uint64_t, uint_cast. apply Z.mod_small. lia.
  - reflexivity.
  - cbn -[int16_t int32_t uint64_t]. f_equal.
    unfold int16_t at 1. rewrite sint_cast_uint64 by lia. apply int16_of_int32.
  - reflexivity.
Qed.

(** ** Keyed access to a Dict *)

(** X10: keyed access to a Dict that holds one entry, under the map's
    ordering [std::equal_to].  Looking up a key that compares equal to the
    stored key finds nothing: the const [operator[]] dereferences [end()],
    and the mutable one inserts a second entry for the key, which the
    search tree of libstdc++ places in front of the stored one, and returns
    the new entry.  Looking up a key that compares unequal to the stored
    key finds the stored entry: both return the value stored under the
    other key, and nothing is inserted. *)
Theorem keyed_access_on_one_entry (this k1 v1 k : IPCVariant) :
  primaryType (type this) = Ty.Dict ->
  _dict this = [(k1, v1)] ->
  (IPCVariant_eqb k1 k = Ok true -> IPCVariant_eqb k k1 = Ok true ->
   subscript_key_const this k = Fault OutOfBounds /\
   subscript_key this k
   = Ok (with_dict this [(k, IPCVariant_default); (k1, v1)], 0%nat)) /\
  (IPCVariant_eqb k1 k = Ok false -> IPCVariant_eqb k k1 = Ok false ->
   subscript_key_const this k = Ok v1 /\
   subscript_key this k = Ok (this, 0%nat)).
Proof.
  intros Hk Hd. unfold subscript_key_const, subscript_key, map_find, map_subscript,
    key_comp, type in *.
  rewrite Hk, Hd. cbn [Ty.eqb negb map_lower_bound].
  change (Ty.eqb Ty.Dict Ty.Dict) with true. cbn [negb].
  split.
  - intros He He'. unfold key_comp. rewrite He.
    cbn [bind nth_error map_lower_bound rev app]. rewrite He'.
    split; reflexivity.
  - intros He He'. unfold key_comp. rewrite He. cbn [bind nth_error]. rewrite He'.
    cbn [bind nth_error fst snd].
    split; [reflexivity |]. destruct this; cbn in *. now subst.
Qed.

(** The Dict that maps ["dpi"] to 800: asking for ["dpi"] runs off the
    end or, where an entry may be made, makes a second one for ["dpi"] in
    front of the first; asking for ["rate"] returns 800. *)
Lemma keyed_access_on_one_entry_witness :
  subscript_key_const (sample_dict [(sample_key, sample_value)]) sample_key
  = Fault OutOfBounds /\
  subscript_key (sample_dict [(sample_key, sample_value)]) sample_key
  = Ok (sample_dict [(sample_key, IPCVariant_default); (sample_key, sample_value)],
        0%nat) /\
  subscript_key_const (sample_dict [(sample_key, sample_value)]) sample_other_key
  = Ok sample_value.
Proof.
  split; [| split].
  - apply (keyed_access_on_one_entry (sample_dict [(sample_key, sample_value)])
             sample_key sample_value sample_key); reflexivity.
  - apply (keyed_access_on_one_entry (sample_dict [(sample_key, sample_value)])
             sample_key sample_value sample_key); reflexivity.
  - apply (keyed_access_on_one_entry (sample_dict [(sample_key, sample_value)])
             sample_key sample_value sample_other_key); reflexivity.
Defined.

(** ** Translation from and to the wire format, continued *)

(** Taking a scalar from the wire is the constructor of its kind. *)
Lemma translate_scalar (z : Z) (b : bool) :
  translateGVariant (GV_int16 z) = IPCVariant_int16 z /\
  translateGVariant (GV_uint16 z) = IPCVariant_uint16 z /\
  translateGVariant (GV_int32 z) = IPCVariant_int32 z /\
  translateGVariant (GV_uint32 z) = IPCVariant_uint32 z /\
  translateGVariant (GV_int64 z) = IPCVariant_int64 z /\
  translateGVariant (GV_uint64 z) = IPCVariant_uint64 z /\
  translateGVariant (GV_byte z) = IPCVariant_uint8 z /\
  translateGVariant (GV_boolean b) = IPCVariant_bool b.
Proof. repeat split; reflexivity. Qed.

(** X11: scalars that arrive from the wire go back unchanged.  An int16,
    uint16, uint32, int64, uint64, byte or boolean GVariant that is
    translated to a Variant and back to the wire is the value it was.  A
    32-bit signed integer is not: it becomes a Variant of signature [n],
    through the int32 constructor, and goes back to the wire as the int16
    of its low 16 bits.  A GVariant of a type that the signature alphabet
    does not have, such as a handle, is rejected with InvalidType. *)
Theorem wire_scalars_come_back (glib : GLib) (z : Z) (b : bool) :
  back_to_wire glib (GV_int16 (int16_t z)) = Ok (GV_int16 (int16_t z)) /\
  back_to_wire glib (GV_uint16 (uint16_t z)) = Ok (GV_uint16 (uint16_t z)) /\
  back_to_wire glib (GV_uint32 (uint32_t z)) = Ok (GV_uint32 (uint32_t z)) /\
  back_to_wire glib (GV_int64 (int64_t z)) = Ok (GV_int64 (int64_t z)) /\
  back_to_wire glib (GV_uint64 (uint64_t z)) = Ok (GV_uint64 (uint64_t z)) /\
  back_to_wire glib (GV_byte (uint8_t z)) = Ok (GV_byte (uint8_t z)) /\
  back_to_wire glib (GV_boolean b) = Ok (GV_boolean b) /\
  back_to_wire glib (GV_int32 (int32_t z)) = Ok (GV_int16 (int16_t z)) /\
  (v <- translateGVariant (GV_int32 (int32_t z)) ;; Ok (typeSignature (type v)))
  = Ok "n" /\
  translateGVariant (GV_handle z) = Throw (InvalidType1 "h").
Proof.
  unfold back_to_wire.
  repeat match goal with |- _ /\ _ => split end.
  1-6: match goal with
       | |- bind (translateGVariant ?g) _ = _ =>
           replace (translateGVariant g) with
             (ltac:(match g with
                    | GV_int16 ?x => exact (IPCVariant_int16 x)
                    | GV_uint16 ?x => exact (IPCVariant_uint16 x)
                    | GV_uint32 ?x => exact (IPCVariant_uint32 x)
                    | GV_int64 ?x => exact (IPCVariant_int64 x)
                    | GV_uint64 ?x => exact (IPCVariant_uint64 x)
                    | GV_byte ?x => exact (IPCVariant_uint8 x)
                    end)) by reflexivity
       end;
       cbn -[int16_t uint16_t int32_t uint32_t int64_t uint64_t uint8_t];
       do 2 f_equal; casts.
  - replace (translateGVariant (GV_boolean b)) with (IPCVariant_bool b) by reflexivity.
    destruct b; reflexivity.
  - replace (translateGVariant (GV_int32 (int32_t z)))
      with (IPCVariant_int32 (int32_t z)) by reflexivity.
    cbn -[int16_t uint16_t int32_t uint32_t int64_t uint64_t uint8_t].
    do 2 f_equal. unfold int32_t. rewrite sint_cast_sint_cast by lia.
    fold int32_t. unfold int16_t at 1. rewrite sint_cast_uint64 by lia.
    apply int16_of_int32.
  - reflexivity.
  - reflexivity.
Qed.

(** [translateGVariant] with its recursive calls by name. *)
Lemma translateGVariant_eq (variant : GVariant) :
  translateGVariant variant =
  (t0 <- TypeInfo_of_string (g_variant_get_type_string variant) ;;
  t <- (if Ty.eqb (primaryType t0) Ty.Array then
          array_type <- arrayType t0 ;;
          if Ty.eqb (primaryType array_type) Ty.Struct then
            format <- structFormat array_type ;;
            if (length format =? 2)%nat then
              TypeInfo_of_string (array_of_pairs_as_dict (typeSignature t0))
            else Ok t0
          else Ok t0
        else Ok t0) ;;
  match primaryType t with
  | Ty.None => Throw (runtime_error "invalid none typeinfo")
  | Ty.Int16 => x <- g_variant_get_int16 variant ;; IPCVariant_int16 x
  | Ty.UInt16 => x <- g_variant_get_uint16 variant ;; IPCVariant_uint16 x
  | Ty.Int32 => x <- g_variant_get_int32 variant ;; IPCVariant_int32 x
  | Ty.UInt32 => x <- g_variant_get_uint32 variant ;; IPCVariant_uint32 x
  | Ty.Int64 => x <- g_variant_get_int64 variant ;; IPCVariant_int64 x
  | Ty.UInt64 => x <- g_variant_get_uint64 variant ;; IPCVariant_uint64 x
  | Ty.Double => x <- g_variant_get_double variant ;; IPCVariant_double x
  | Ty.Byte => x <- g_variant_get_byte variant ;; IPCVariant_uint8 x
  | Ty.String | Ty.Signature | Ty.ObjectPath =>
      (* std::string(g_variant_get_string(variant, &length), length): the
         two arguments are not sequenced and [length] has no initializer,
         so the count is read without having been written *)
      _ <- g_variant_get_string variant ;; Fault UninitializedRead
  | Ty.Boolean => x <- g_variant_get_boolean variant ;; IPCVariant_bool x
  | Ty.Array | Ty.Struct =>
      match variant with
      | GV_array _ children | GV_tuple children =>
          array <- (fix each (l : list GVariant) : outcome (list IPCVariant) :=
                      match l with
                      | [] => Ok []
                      | c :: l' =>
                          x <- translateGVariant c ;;
                          xs <- each l' ;;
                          Ok (x :: xs)
                      end) children ;;
          IPCVariant_vector array t
      | _ => Fault GLibCritical
      end
  | Ty.Dict =>
      match variant with
      | GV_array _ children | GV_tuple children =>
          dict <- (fix each (l : list GVariant) (dict : IPCVariantDict)
                     : outcome IPCVariantDict :=
                     match l with
                     | [] => Ok dict
                     | element :: l' =>
                         match element with
                         | GV_array _ (key :: val :: _)
                         | GV_tuple (key :: val :: _) =>
                             v <- translateGVariant val ;;
                             k <- translateGVariant key ;;
                             dict' <- map_store dict k v ;;
                             each l' dict'
                         | _ => Fault GLibCritical
                         end
                     end) children [] ;;
          IPCVariant_dict dict t
      | _ => Fault GLibCritical
      end
  end).
Proof. destruct variant; reflexivity. Qed.


Ltac compute_closed t := let x := eval vm_compute in t in change t with x.

Lemma uint32_Variants_compare (a1 a2 : Z) (k1 k2 : IPCVariant) :
  IPCVariant_uint32 a1 = Ok k1 ->
  IPCVariant_uint32 a2 = Ok k2 ->
  IPCVariant_eqb k1 k2 = Ok (uint32_t a1 =? uint32_t a2)%Z.
Proof.
  intros [= <-] [= <-].
  cbn -[int16_t uint16_t int32_t uint32_t int64_t uint64_t uint8_t Z.eqb].
  do 2 f_equal; unfold uint32_t; rewrite uint_cast_uint64 by lia;
    apply uint_cast_uint_cast; lia.
Qed.

(** X12: what becomes of a dict that arrives from the wire as an array of
    two pairs with uint32 keys, because the map orders its keys by
    [std::equal_to].  When the two keys differ, one entry is kept:
    [dict[k2] = v2] finds the entry of [k1], and the result maps the first
    key to the second value.  When the two keys are equal, both entries are
    kept: [dict[k2]] does not find the entry of [k1] and makes another one
    in front of it, and the result holds the same key twice. *)
Theorem wire_dict_of_two_keys_keeps_one (a1 a2 n1 n2 : Z) :
  (uint32_t a1 <> uint32_t a2 ->
   translateGVariant
     (GV_array "(uu)" [GV_tuple [GV_uint32 a1; GV_uint32 n1];
                       GV_tuple [GV_uint32 a2; GV_uint32 n2]])
   = (k1 <- IPCVariant_uint32 a1 ;;
      v2 <- IPCVariant_uint32 n2 ;;
      t <- TypeInfo_of_string "{uu}" ;;
      Ok (mkIPCVariant [] [(k1, v2)] 0 "" t))) /\
  (uint32_t a1 = uint32_t a2 ->
   translateGVariant
     (GV_array "(uu)" [GV_tuple [GV_uint32 a1; GV_uint32 n1];
                       GV_tuple [GV_uint32 a2; GV_uint32 n2]])
   = (k1 <- IPCVariant_uint32 a1 ;;
      v1 <- IPCVariant_uint32 n1 ;;
      k2 <- IPCVariant_uint32 a2 ;;
      v2 <- IPCVariant_uint32 n2 ;;
      t <- TypeInfo_of_string "{uu}" ;;
      Ok (mkIPCVariant [] [(k2, v2); (k1, v1)] 0 "" t))).
Proof.
  assert (Hwire :
    translateGVariant
      (GV_array "(uu)" [GV_tuple [GV_uint32 a1; GV_uint32 n1];
                        GV_tuple [GV_uint32 a2; GV_uint32 n2]])
    = (v1 <- IPCVariant_uint32 n1 ;;
       k1 <- IPCVariant_uint32 a1 ;;
       d1 <- map_store [] k1 v1 ;;
       v2 <- IPCVariant_uint32 n2 ;;
       k2 <- IPCVariant_uint32 a2 ;;
       d2 <- map_store d1 k2 v2 ;;
       t <- TypeInfo_of_string "{uu}" ;;
       IPCVariant_dict d2 t)).
  { rewrite translateGVariant_eq. cbn [g_variant_get_type_string].
    compute_closed (TypeInfo_of_string ("a" ++ "(uu)")). cbn [bind].
    lazymatch goal with
    | |- bind ?m _ = _ => compute_closed m
    end.
    cbn [bind primaryType ti_type].
    compute_closed (TypeInfo_of_string "{uu}"). cbn [bind].
    change (translateGVariant (GV_uint32 a1)) with (IPCVariant_uint32 a1).
    change (translateGVariant (GV_uint32 a2)) with (IPCVariant_uint32 a2).
    change (translateGVariant (GV_uint32 n1)) with (IPCVariant_uint32 n1).
    change (translateGVariant (GV_uint32 n2)) with (IPCVariant_uint32 n2).
    destruct (IPCVariant_uint32 n1) as [v1 | |]; [| reflexivity..].
    destruct (IPCVariant_uint32 a1) as [k1 | |]; [| reflexivity..].
    cbn [bind].
    destruct (map_store [] k1 v1) as [d1 | |]; [| reflexivity..].
    cbn [bind].
    destruct (IPCVariant_uint32 n2) as [v2 | |]; [| reflexivity..].
    destruct (IPCVariant_uint32 a2) as [k2 | |]; [| reflexivity..].
    cbn [bind].
    destruct (map_store d1 k2 v2) as [d2 | |]; reflexivity. }
  rewrite Hwire. clear Hwire.
  destruct (IPCVariant_uint32 a1) as [k1 | |] eqn:Hk1; try discriminate Hk1.
  destruct (IPCVariant_uint32 a2) as [k2 | |] eqn:Hk2; try discriminate Hk2.
  destruct (IPCVariant_uint32 n1) as [v1 | |] eqn:Hv1; try discriminate Hv1.
  destruct (IPCVariant_uint32 n2) as [v2 | |] eqn:Hv2; try discriminate Hv2.
  cbn [bind].
  assert (Hty : type k1 = TypeInfo_plain Ty.UInt32 "u" /\
                type k2 = TypeInfo_plain Ty.UInt32 "u" /\
                type v1 = TypeInfo_plain Ty.UInt32 "u" /\
                type v2 = TypeInfo_plain Ty.UInt32 "u").
  { injection Hk1 as <-. injection Hk2 as <-. injection Hv1 as <-.
    injection Hv2 as <-. repeat split. }
  destruct Hty as (Tk1 & Tk2 & Tv1 & Tv2).
  unfold map_store, map_subscript, key_comp.
  cbn [map_lower_bound bind nth_error rev app fst snd firstn skipn length
         removelast Nat.sub].
  rewrite !IPCVariant_assign_eq. unfold key_comp.
  rewrite (uint32_Variants_compare a1 a2 k1 k2 Hk1 Hk2).
  compute_closed (TypeInfo_of_string "{uu}").
  split; intros Ha.
  - apply Z.eqb_neq in Ha. rewrite Ha.
    cbn [bind nth_error]. unfold key_comp.
    rewrite (uint32_Variants_compare a2 a1 k2 k1 Hk2 Hk1).
    rewrite Z.eqb_sym in Ha. rewrite Ha.
    cbn [bind nth_error rev app fst snd firstn skipn length removelast Nat.sub].
    rewrite !IPCVariant_assign_eq.
    unfold IPCVariant_dict, dictType, check_dict_entries, TypeInfo_neqb.
    cbn [primaryType ti_type ti_dict_key ti_dict_value bind fst snd].
    rewrite Tk1, Tv2. reflexivity.
  - rewrite Ha, !Z.eqb_refl.
    cbn [bind nth_error map_lower_bound rev app fst snd firstn skipn length
           removelast Nat.sub].
    unfold key_comp.
    rewrite (uint32_Variants_compare a2 a1 k2 k1 Hk2 Hk1).
    rewrite Ha, !Z.eqb_refl.
    cbn [bind nth_error map_lower_bound rev app fst snd firstn skipn length
           removelast Nat.sub]. 
    rewrite !IPCVariant_assign_eq.
    unfold IPCVariant_dict, dictType, check_dict_entries, TypeInfo_neqb.
    cbn [primaryType ti_type ti_dict_key ti_dict_value bind fst snd].
    rewrite Tk1, Tv1, Tk2, Tv2. reflexivity.
Qed.

(** Two pairs with the keys 1 and 2, and two pairs with the key 1. *)
Lemma wire_dict_of_two_keys_keeps_one_witness :
  translateGVariant
    (GV_array "(uu)" [GV_tuple [GV_uint32 1; GV_uint32 800];
                      GV_tuple [GV_uint32 2; GV_uint32 1600]])
  = Ok (mkIPCVariant [] [(sample_one, sample_other_value)] 0 ""
          (type_of_string "{uu}")) /\
  translateGVariant
    (GV_array "(uu)" [GV_tuple [GV_uint32 1; GV_uint32 800];
                      GV_tuple [GV_uint32 1; GV_uint32 1600]])
  = Ok (mkIPCVariant [] [(sample_one, sample_other_value); (sample_one, sample_value)]
          0 "" (type_of_string "{uu}")).
Proof.
  split.
  - etransitivity;
      [apply (proj1 (wire_dict_of_two_keys_keeps_one 1 2 800 1600)); discriminate
      | reflexivity].
  - etransitivity;
      [apply (proj2 (wire_dict_of_two_keys_keeps_one 1 1 800 1600)); reflexivity
      | reflexivity].
Defined.

(** ** Properties of an interface *)

Lemma TypeInfo_neqb_differ (a b : TypeInfo) :
  typeSignature a <> typeSignature b -> TypeInfo_neqb a b = true.
Proof.
  intros H. unfold TypeInfo_neqb. apply negb_true_iff, String.eqb_neq. congruence.
Qed.

Lemma TypeInfo_neqb_same (a b : TypeInfo) :
  typeSignature a = typeSignature b -> TypeInfo_neqb a b = false.
Proof. intros H. unfold TypeInfo_neqb. rewrite H, String.eqb_refl. reflexivity. Qed.

(** What [setProperty] leaves behind when the name is known and the type
    fits. *)
Lemma setProperty_stores (glib : GLib) (w : World glib) (this : nat)
    (i : IPCInterface) (name : string) (p : IPCProperty) (value : IPCVariant) :
  interfaces w !! this = Some i ->
  _properties i !! name = Some p ->
  typeSignature (type value) = typeSignature (ptype p) ->
  IPCInterface_setProperty glib this name value w
  = ({| interfaces :=
          <[this := set_properties i (<[name := set_property p value]>
                                        (_properties i))]> (interfaces w);
        server := server w; log := log w |}, Ok tt).
Proof.
  intros Hi Hp Hty.
  unfold IPCInterface_setProperty, mbind, load, store.
  rewrite Hi, Hp. rewrite (TypeInfo_neqb_same _ _ (eq_sym Hty)).
  now rewrite IPCVariant_assign_eq.
Qed.

(** X15: a property that was set reads back.  When the interface has a
    property of that name and the value has the declared signature,
    [setProperty] returns normally and [getProperty] of the same name then
    returns the value; the declared type and the access flags of the
    property, every other property, every other interface object, the
    server and the log are as before. *)
Theorem setProperty_then_getProperty (glib : GLib) (w : World glib) (this : nat)
    (i : IPCInterface) (name : string) (p : IPCProperty) (value : IPCVariant) :
  interfaces w !! this = Some i ->
  _properties i !! name = Some p ->
  typeSignature (type value) = typeSignature (ptype p) ->
  exists w',
    IPCInterface_setProperty glib this name value w = (w', Ok tt) /\
    IPCInterface_getProperty glib this name w' = (w', Ok value) /\
    stored_property w' this name = Some (set_property p value) /\
    (forall other, other <> name ->
                   stored_property w' this other = stored_property w this other) /\
    (forall that, that <> this -> interfaces w' !! that = interfaces w !! that) /\
    server w' = server w /\ log w' = log w.
Proof.
  intros Hi Hp Hty. eexists.
  split; [exact (setProperty_stores glib w this i name p value Hi Hp Hty) |].
  unfold IPCInterface_getProperty, mbind, load, ret. cbn [interfaces].
  rewrite lookup_insert_eq. cbn [_properties set_properties].
  rewrite lookup_insert_eq. split; [reflexivity |].
  unfold stored_property. cbn [interfaces]. rewrite lookup_insert_eq.
  simpl. rewrite lookup_insert_eq.
  split; [reflexivity |]. split.
  - intros other Hne. rewrite lookup_insert_ne by congruence.
    rewrite Hi. reflexivity.
  - split; [| split; reflexivity].
    intros that Hne. apply lookup_insert_ne. congruence.
Qed.

(** The name of the sample device, set to another string. *)
Lemma setProperty_then_getProperty_witness :
  exists w',
    IPCInterface_setProperty open_bus 1 "name" sample_renamed
      world_device_unregistered = (w', Ok tt) /\
    IPCInterface_getProperty open_bus 1 "name" w' = (w', Ok sample_renamed).
Proof.
  destruct (setProperty_then_getProperty open_bus world_device_unregistered 1
              sample_device "name"
              {| property := sample_name; ptype := type_of_string "s";
                 readable := true; writable := false |}
              sample_renamed)
    as (w' & Hset & Hget & _); [reflexivity.. |].
  exists w'. split; assumption.
Defined.

(** X16: what [setProperty] and [getProperty] reject.  For a name that the
    interface does not have, both throw [std::invalid_argument] with the
    name.  For a value whose signature differs from the declared one,
    [setProperty] throws without storing anything; the exception is built
    from the value itself, so it is [std::invalid_argument] carrying the
    text of a string value, and InvalidType (from the conversion to
    [std::string]) for a value of any other kind.  The world is unchanged
    in each case. *)
Theorem setProperty_rejects (glib : GLib) (w : World glib) (this : nat)
    (i : IPCInterface) (name : string) (value : IPCVariant) :
  interfaces w !! this = Some i ->
  (_properties i !! name = None ->
   IPCInterface_setProperty glib this name value w
   = (w, Throw (invalid_argument name)) /\
   IPCInterface_getProperty glib this name w
   = (w, Throw (invalid_argument name))) /\
  (forall p, _properties i !! name = Some p ->
             typeSignature (type value) <> typeSignature (ptype p) ->
             IPCInterface_setProperty glib this name value w
             = (w, if is_string_kind (primaryType (type value))
                   then Throw (invalid_argument (_string_data value))
                   else Throw InvalidType0)).
Proof.
  intros Hi. unfold IPCInterface_setProperty, IPCInterface_getProperty, mbind, load,
    lift. rewrite Hi. split.
  - intros ->. split; reflexivity.
  - intros p -> Hne. rewrite TypeInfo_neqb_differ by congruence.
    unfold as_string, type.
    destruct (is_string_kind (primaryType (_type value))); reflexivity.
Qed.

(** An unknown name, a number for the name, and a string for the product
    id. *)
Lemma setProperty_rejects_witness :
  IPCInterface_setProperty open_bus 1 "nosuch" sample_renamed
    world_device_unregistered
  = (world_device_unregistered, Throw (invalid_argument "nosuch")) /\
  IPCInterface_setProperty open_bus 1 "name" sample_pid world_device_unregistered
  = (world_device_unregistered, Throw InvalidType0) /\
  IPCInterface_setProperty open_bus 1 "pid" sample_renamed world_device_unregistered
  = (world_device_unregistered, Throw (invalid_argument "renamed")).
Proof.
  split; [| split].
  - apply (setProperty_rejects open_bus world_device_unregistered 1 sample_device
             "nosuch" sample_renamed); reflexivity.
  - apply (proj2 (setProperty_rejects open_bus world_device_unregistered 1
                    sample_device "name" sample_pid eq_refl)
             {| property := sample_name; ptype := type_of_string "s";
                readable := true; writable := false |});
      [reflexivity | vm_compute; discriminate].
  - apply (proj2 (setProperty_rejects open_bus world_device_unregistered 1
                    sample_device "pid" sample_renamed eq_refl)
             {| property := sample_pid; ptype := type_of_string "q";
                readable := true; writable := false |});
      [reflexivity | vm_compute; discriminate].
Defined.

(** X17: [setProperty] keeps every stored value at its declared type.  On
    an interface whose property values all have the signatures that the
    properties declare, a call of [setProperty] with any name and any
    value, whether it returns or throws, leaves an interface with the same
    property names of which that still holds, and with the same
    functions, signals, node, name and server. *)
Theorem setProperty_keeps_properties_typed (glib : GLib) (w : World glib)
    (this : nat) (i : IPCInterface) (name : string) (value : IPCVariant) :
  interfaces w !! this = Some i ->
  properties_typed i ->
  exists i', interfaces (fst (IPCInterface_setProperty glib this name value w)) !! this
             = Some i' /\
             properties_typed i' /\
             _signals i' = _signals i /\ _functions i' = _functions i /\
             _node i' = _node i /\ _name i' = _name i /\ _server i' = _server i /\
             dom (_properties i') = dom (_properties i).
Proof.
  intros Hi Hinv.
  unfold IPCInterface_setProperty, mbind, load, lift, store. rewrite Hi.
  destruct (_properties i !! name) as [p |] eqn:Hp.
  - destruct (TypeInfo_neqb (ptype p) (type value)) eqn:Hty.
    + destruct (as_string value); cbn [fst]; exists i; rewrite Hi; repeat split;
        assumption.
    + cbn [fst interfaces]. rewrite lookup_insert_eq. eexists. split; [reflexivity |].
      repeat split.
      * intros n q. cbn [_properties set_properties]. rewrite lookup_insert.
        destruct (decide (name = n)) as [<- | Hne].
        -- intros [= <-]. cbn [property ptype]. rewrite IPCVariant_assign_eq.
           unfold TypeInfo_neqb in Hty. apply negb_false_iff, String.eqb_eq in Hty.
           exact Hty.
        -- apply Hinv.
      * cbn [_properties set_properties]. apply set_eq. intros n.
        rewrite dom_insert. rewrite elem_of_union, elem_of_singleton.
        split; [| tauto]. intros [-> | H]; [| exact H].
        apply elem_of_dom. now exists p.
  - cbn [fst]. exists i. rewrite Hi. repeat split; assumption.
Qed.

Lemma sample_device_typed : properties_typed sample_device.
Proof.
  intros name p H. unfold sample_device, IPCInterface_new in H.
  cbn [_properties] in H.
  repeat (rewrite lookup_insert in H;
          destruct (decide _);
          [injection H as <-; vm_compute; reflexivity |]).
  rewrite lookup_singleton in H.
  destruct (decide _); [| discriminate H].
  injection H as <-. vm_compute. reflexivity.
Qed.

(** The sample device after its name was set. *)
Lemma setProperty_keeps_properties_typed_witness :
  exists i',
    interfaces (fst (IPCInterface_setProperty open_bus 1 "name" sample_renamed
                       world_device_unregistered)) !! 1%nat = Some i' /\
    properties_typed i' /\
    _signals i' = _signals sample_device /\
    _functions i' = _functions sample_device /\
    _node i' = _node sample_device /\ _name i' = _name sample_device /\
    _server i' = _server sample_device /\
    dom (_properties i') = dom (_properties sample_device).
Proof.
  apply (setProperty_keeps_properties_typed open_bus world_device_unregistered 1
           sample_device "name" sample_renamed);
    [reflexivity | exact sample_device_typed].
Defined.

(** ** Signals *)

Lemma check_signal_args_spec (args_ : IPCFunctionArgs) (declared : IPCArgsInfo) :
  length declared = length args_ ->
  check_signal_args args_ declared
  = if signal_args_match args_ declared then Ok tt
    else Throw (invalid_argument "type").
Proof.
  revert declared. induction args_ as [| a args_ IH]; intros [| d declared] Hlen;
    try discriminate Hlen; [reflexivity |].
  cbn [check_signal_args signal_args_match].
  unfold TypeInfo_neqb, TypeInfo_eqb.
  destruct (String.eqb (typeSignature (snd d)) (typeSignature (type a)));
    cbn [negb andb]; [| reflexivity].
  apply IH. now injection Hlen.
Qed.

(** X18: [emitSignal] on an interface that is bound to a server checks
    the call before anything reaches the transport, in this order: an
    undeclared signal throws [std::invalid_argument] with the signal's
    name, a wrong number of arguments throws it with ["args"], an argument
    whose signature differs from the declared one throws it with ["type"];
    the world is unchanged in each case.  Only a call that passes all three
    is handed to the server. *)
Theorem emitSignal_checks_before_sending (glib : GLib) (w : World glib)
    (this : nat) (i : IPCInterface) (srv : IPCServer_ptr) (signal : string)
    (args_ : IPCFunctionArgs) :
  interfaces w !! this = Some i ->
  _server i = Some srv ->
  IPCInterface_emitSignal glib this signal args_ w
  = match _signals i !! signal with
    | None => (w, Throw (invalid_argument signal))
    | Some declared =>
        if negb (length declared =? length args_)%nat
        then (w, Throw (invalid_argument "args"))
        else if signal_args_match args_ declared
        then IPCServer_emitSignal glib this signal args_ w
        else (w, Throw (invalid_argument "type"))
    end.
Proof.
  intros Hi Hs. unfold IPCInterface_emitSignal, mbind at 1, load.
  rewrite Hi, Hs.
  destruct (_signals i !! signal) as [declared |]; [| reflexivity].
  destruct (length declared =? length args_)%nat eqn:Hlen; cbn [negb];
    [| reflexivity].
  apply Nat.eqb_eq in Hlen. unfold mbind at 1, lift.
  rewrite (check_signal_args_spec _ _ Hlen).
  destruct (signal_args_match args_ declared); reflexivity.
Qed.

(** The [status] signal of the registered sample takes one boolean: a
    number is refused, and so are no argument at all and a signal that was
    never declared. *)
Lemma emitSignal_checks_before_sending_witness :
  IPCInterface_emitSignal open_bus 1 "status" [sample_pid] world_open
  = (world_open, Throw (invalid_argument "type")) /\
  IPCInterface_emitSignal open_bus 1 "status" [] world_open
  = (world_open, Throw (invalid_argument "args")) /\
  IPCInterface_emitSignal open_bus 1 "nosuch" [] world_open
  = (world_open, Throw (invalid_argument "nosuch")).
Proof.
  split; [| split];
    (etransitivity;
     [ apply (emitSignal_checks_before_sending open_bus world_open 1
                (set_server sample_interface (Some the_server)) the_server);
       reflexivity
     | reflexivity ]).
Defined.

(** ** The registry *)

(** X19: the registry never holds a node without interfaces.  If no node
    of the registry is empty, none is after [registerInterface] of any
    interface object and none is after [unregisterInterface] of any node
    and name: registering puts an entry into the node it touches, and
    unregistering erases a node whose last entry it removed. *)
Theorem registry_has_no_empty_node (glib : GLib) (w : World glib) (this : nat)
    (node name : string) :
  no_empty_node (server w) ->
  no_empty_node (server (fst (IPCServer_registerInterface glib this w))) /\
  no_empty_node (server (fst (IPCServer_unregisterInterface glib node name w))).
Proof.
  intros Hinv. split.
  - unfold IPCServer_registerInterface, mbind, load, get_server, put_server.
    destruct (interfaces w !! this) as [i |]; cbn [fst server]; [| exact Hinv].
    intros n names. cbn [_nodes]. rewrite lookup_insert.
    destruct (decide (_node i = n)) as [_ | _]; [| apply Hinv].
    intros [= <-]. apply insert_non_empty.
  - unfold IPCServer_unregisterInterface, mbind, get_server, put_server, ret.
    destruct (_nodes (server w) !! node) as [node_it |] eqn:Hn; [| exact Hinv].
    destruct (node_it !! name) as [interface_it |] eqn:Hi; [| exact Hinv].
    cbn [fst server _nodes]. intros n names.
    destruct (decide (delete name node_it = ∅)) as [He | He].
    + cbn [_nodes]. rewrite lookup_delete.
      destruct (decide (node = n)); [discriminate |]. apply Hinv.
    + cbn [_nodes]. rewrite lookup_insert.
      destruct (decide (node = n)); [| apply Hinv]. now intros [= <-].
Qed.

Lemma sample_world_no_empty_node (glib : GLib) (c : GDBusConnection glib)
    (i : IPCInterface) :
  no_empty_node (server (sample_world glib c i)).
Proof. intros node names H. cbn in H. rewrite lookup_empty in H. discriminate H. Qed.

(** The empty registry of the sample world. *)
Lemma registry_has_no_empty_node_witness :
  no_empty_node
    (server (fst (IPCServer_registerInterface open_bus 1
                    world_device_unregistered))) /\
  no_empty_node
    (server (fst (IPCServer_unregisterInterface open_bus
                    "/pizza/pixl/logiops/device/0" "pizza.pixl.logiops.Device"
                    world_device_unregistered))).
Proof.
  apply (registry_has_no_empty_node open_bus world_device_unregistered 1).
  apply sample_world_no_empty_node.
Defined.

Lemma makeInterfaceInfo_set_server (i : IPCInterface) (s : option IPCServer_ptr) :
  _makeInterfaceInfo (set_server i s) = _makeInterfaceInfo i.
Proof. reflexivity. Qed.

(** X20: registering an interface and unregistering it again restores the
    registry.  For an interface whose node and name are not registered, on
    a registry without empty nodes, [registerInterface] followed by
    [unregisterInterface] returns normally, leaves the registry as it was
    and the interface bound to no server, with its properties untouched;
    the transport was asked to unregister exactly the id that the
    registration returned; and a second [unregisterInterface] does
    nothing. *)
Theorem register_then_unregister (glib : GLib) (w : World glib) (this : nat)
    (i : IPCInterface) :
  interfaces w !! this = Some i ->
  registered w (_node i) (_name i) = None ->
  no_empty_node (server w) ->
  exists w1 w2,
    IPCInterface_registerInterface glib this the_server w = (w1, Ok tt) /\
    IPCInterface_unregisterInterface glib this w1 = (w2, Ok tt) /\
    (forall name, stored_property w1 this name = stored_property w this name) /\
    _nodes (server w2) = _nodes (server w) /\
    interfaces w2 = <[this := set_server i None]> (interfaces w) /\
    _connection (server w2)
    = (let r := g_dbus_connection_register_object glib (_connection (server w))
                  (c_str (_node i)) (_makeInterfaceInfo i) in
       fst (g_dbus_connection_unregister_object glib (fst r) (snd r))) /\
    IPCInterface_unregisterInterface glib this w2 = (w2, Ok tt).
Proof.
  intros Hi Hreg Hinv.
  unfold IPCInterface_registerInterface, IPCServer_registerInterface,
    mbind, load, store, get_server, put_server, ret.
  rewrite Hi. cbn [interfaces server log fst snd].
  rewrite lookup_insert_eq. cbn [_node _name set_server _server].
  rewrite makeInterfaceInfo_set_server.
  do 2 eexists. split; [reflexivity |].
  unfold IPCInterface_unregisterInterface, IPCServer_unregisterInterface,
    mbind, load, store, get_server, put_server, ret.
  cbn [interfaces server log _nodes _connection].
  rewrite !lookup_insert_eq. cbn [_node _name set_server _server].
  cbn [interfaces server log _nodes _connection].
  rewrite !lookup_insert_eq.
  cbn [interfaces server log _nodes _connection fst snd registrationId].
  split; [reflexivity |].
  cbn [interfaces server log _nodes _connection fst snd].
  split.
  { intros name. unfold stored_property. cbn [interfaces].
    rewrite lookup_insert_eq, Hi. reflexivity. }
  split.
  { rewrite delete_insert_eq.
    unfold registered in Hreg.
    destruct (_nodes (server w) !! _node i) as [names |] eqn:Hn; simpl in Hreg |- *.
    - rewrite (delete_id _ _ Hreg).
      rewrite decide_False by (eapply Hinv; eassumption).
      rewrite insert_insert_eq. now apply insert_id.
    - rewrite delete_empty. rewrite decide_True by reflexivity.
      rewrite delete_insert_eq. now apply delete_id. }
  split; [now rewrite insert_insert_eq |].
  split; [reflexivity |].
  rewrite lookup_insert_eq. reflexivity.
Qed.

(** The sample device on the open bus. *)
Lemma register_then_unregister_witness :
  exists w1 w2,
    IPCInterface_registerInterface open_bus 1 the_server world_device_unregistered
    = (w1, Ok tt) /\
    IPCInterface_unregisterInterface open_bus 1 w1 = (w2, Ok tt) /\
    _nodes (server w2) = _nodes (server world_device_unregistered) /\
    IPCInterface_unregisterInterface open_bus 1 w2 = (w2, Ok tt).
Proof.
  destruct (register_then_unregister open_bus world_device_unregistered 1
              sample_device)
    as (w1 & w2 & H1 & H2 & _ & H3 & _ & _ & H4).
  - reflexivity.
  - reflexivity.
  - apply sample_world_no_empty_node.
  - exists w1, w2. repeat split; assumption.
Defined.

(** ** The property callbacks *)

Lemma registered_lookup {glib : GLib} (w : World glib) (path iname : string)
    (entry : Interface) (error : option GError) :
  registered w path iname = Some entry ->
  lookup_interface glib (server w) error path iname = inr entry.
Proof.
  unfold registered, lookup_interface. intros H.
  destruct (_nodes (server w) !! path) as [names |]; [| discriminate H].
  simpl in H. now rewrite H.
Qed.

(** X21: [gdbus_get_property] returns the value of every property it
    finds, readable or not.  For a property of a registered interface
    whose value has a wire form, the callback returns that wire form and
    changes nothing; when the property is not readable it also sets the
    error AccessDenied (unless an error is already set), and still returns
    the value, because no [return] follows the [g_set_error]. *)
Theorem gdbus_get_property_returns_the_value (glib : GLib) (w : World glib)
    (path iname pname : string) (entry : Interface) (i : IPCInterface)
    (p : IPCProperty) (g : GVariant) (error : option GError) :
  registered w path iname = Some entry ->
  interfaces w !! interface entry = Some i ->
  _properties i !! pname = Some p ->
  toGVariant glib (property p) = Ok g ->
  gdbus_get_property glib path iname pname error (Some the_server) w
  = (w, Ok (Some g,
            if readable p then error
            else g_set_error error G_DBUS_ERROR_ACCESS_DENIED
                   "Property not readable")).
Proof.
  intros Hreg Hi Hp Hg.
  unfold gdbus_get_property, mbind, get_server, load, ret, lift.
  rewrite (registered_lookup w path iname entry error Hreg).
  rewrite Hi, Hp. unfold IPCInterface_getProperty, mbind, load, ret.
  rewrite Hi, Hp, Hg. now destruct (readable p).
Qed.

(** The name of the registered sample. *)
Lemma gdbus_get_property_returns_the_value_witness :
  gdbus_get_property open_bus "/pizza/pixl/logiops/device/0"
    "pizza.pixl.logiops.Device" "name" None (Some the_server) world_open
  = (world_open, Ok (Some (GV_string "MX Master"), None)).
Proof.
  apply (gdbus_get_property_returns_the_value open_bus world_open
           "/pizza/pixl/logiops/device/0" "pizza.pixl.logiops.Device" "name"
           {| interface := 1; registrationId := 1;
              info := _makeInterfaceInfo sample_interface |}
           (set_server sample_interface (Some the_server))
           {| property := sample_name; ptype := type_of_string "s";
              readable := true; writable := false |}
           (GV_string "MX Master") None); vm_compute; reflexivity.
Defined.

(** X22: what the property callbacks answer when the lookup fails.  With a
    null server both log a line and fail with Failed; for an object path
    that is not registered they fail with UnknownObject, for an interface
    name that is not registered at the path with UnknownInterface, for a
    property that the interface does not have with UnknownProperty, and
    [gdbus_set_property] fails with InvalidArgs for a value whose
    translation has another signature than the property declares.  In all
    these cases [get] returns null and [set] returns false, and apart from
    the log line nothing changes. *)
Theorem gdbus_property_lookup_failures (glib : GLib) (w : World glib)
    (path iname pname : string) (value : GVariant) (error : option GError) :
  (gdbus_get_property glib path iname pname error None w
   = ({| interfaces := interfaces w; server := server w;
         log := (log w ++ [(DEBUG, "Ignoring gdbus_get_property on null IPCServer.")])%list |},
      Ok (None, g_set_error error G_DBUS_ERROR_FAILED "null IPCServer")) /\
   gdbus_set_property glib path iname pname value error None w
   = ({| interfaces := interfaces w; server := server w;
         log := (log w ++ [(DEBUG, "Ignoring gdbus_get_property on null IPCServer.")])%list |},
      Ok (false, g_set_error error G_DBUS_ERROR_FAILED "null IPCServer"))) /\
  (_nodes (server w) !! path = None ->
   gdbus_get_property glib path iname pname error (Some the_server) w
   = (w, Ok (None, g_set_error error G_DBUS_ERROR_UNKNOWN_OBJECT "Unknown object")) /\
   gdbus_set_property glib path iname pname value error (Some the_server) w
   = (w, Ok (false, g_set_error error G_DBUS_ERROR_UNKNOWN_OBJECT "Unknown object"))) /\
  (forall names, _nodes (server w) !! path = Some names -> names !! iname = None ->
   gdbus_get_property glib path iname pname error (Some the_server) w
   = (w, Ok (None, g_set_error error G_DBUS_ERROR_UNKNOWN_INTERFACE
                     "Unknown interface")) /\
   gdbus_set_property glib path iname pname value error (Some the_server) w
   = (w, Ok (false, g_set_error error G_DBUS_ERROR_UNKNOWN_INTERFACE
                      "Unknown interface"))) /\
  (forall entry i, registered w path iname = Some entry ->
   interfaces w !! interface entry = Some i ->
   _properties i !! pname = None ->
   gdbus_get_property glib path iname pname error (Some the_server) w
   = (w, Ok (None, g_set_error error G_DBUS_ERROR_UNKNOWN_PROPERTY
                     "Unknown property")) /\
   gdbus_set_property glib path iname pname value error (Some the_server) w
   = (w, Ok (false, g_set_error error G_DBUS_ERROR_UNKNOWN_PROPERTY
                      "Unknown property"))) /\
  (forall entry i p v, registered w path iname = Some entry ->
   interfaces w !! interface entry = Some i ->
   _properties i !! pname = Some p ->
   translateGVariant value = Ok v ->
   typeSignature (type v) <> typeSignature (ptype p) ->
   gdbus_set_property glib path iname pname value error (Some the_server) w
   = (w, Ok (false, g_set_error error G_DBUS_ERROR_INVALID_ARGS
                      "Invalid argument"))).
Proof.
  unfold gdbus_get_property, gdbus_set_property, mbind, get_server, load, ret, lift,
    logPrintf.
  split; [split; reflexivity |]. split.
  { intros Hn. unfold lookup_interface. rewrite Hn. split; reflexivity. }
  split.
  { intros names Hn Hi. unfold lookup_interface. rewrite Hn, Hi. split; reflexivity. }
  split.
  { intros entry i Hreg Hi Hp.
    rewrite (registered_lookup w path iname entry error Hreg), Hi, Hp.
    split; reflexivity. }
  intros entry i p v Hreg Hi Hp Hv Hne.
  rewrite (registered_lookup w path iname entry error Hreg), Hi, Hp, Hv.
  rewrite TypeInfo_neqb_differ by exact Hne. reflexivity.
Qed.

(** X23: a property written over the bus reads back over the bus.  For a
    property of a registered interface and a wire value that translates to
    a Variant of the declared signature (and that Variant back to the wire
    value), [gdbus_set_property] stores the value and returns true, and
    [gdbus_get_property] then returns the wire value; the access flags are
    only reported, as AccessDenied beside the result, and neither stops the
    write or the read.  The registry and the log are unchanged. *)
Theorem property_written_over_the_bus_reads_back (glib : GLib) (w : World glib)
    (path iname pname : string) (entry : Interface) (i : IPCInterface)
    (p : IPCProperty) (g : GVariant) (v : IPCVariant) :
  registered w path iname = Some entry ->
  interfaces w !! interface entry = Some i ->
  _properties i !! pname = Some p ->
  translateGVariant g = Ok v ->
  typeSignature (type v) = typeSignature (ptype p) ->
  toGVariant glib v = Ok g ->
  exists w',
    gdbus_set_property glib path iname pname g None (Some the_server) w
    = (w', Ok (true, if writable p then None
                     else Some (G_DBUS_ERROR_ACCESS_DENIED, "Property not writable"))) /\
    gdbus_get_property glib path iname pname None (Some the_server) w'
    = (w', Ok (Some g, if readable p then None
                       else Some (G_DBUS_ERROR_ACCESS_DENIED,
                                  "Property not readable"))) /\
    stored_property w' (interface entry) pname = Some (set_property p v) /\
    server w' = server w /\ log w' = log w.
Proof.
  intros Hreg Hi Hp Hv Hty Hg.
  pose proof (setProperty_stores glib w (interface entry) i pname p v Hi Hp Hty)
    as Hset.
  eexists. split.
  { unfold gdbus_set_property, mbind at 1, get_server.
    rewrite (registered_lookup w path iname entry None Hreg).
    unfold mbind at 1, load. rewrite Hi, Hp.
    unfold mbind at 1, lift. rewrite Hv.
    rewrite (TypeInfo_neqb_same _ _ Hty).
    unfold mbind, ret. rewrite Hset. now destruct (writable p). }
  split.
  { unfold gdbus_get_property, mbind, get_server, load, ret, lift.
    cbn [server interfaces].
    rewrite (registered_lookup w path iname entry None Hreg).
    cbn [server interfaces].
    rewrite lookup_insert_eq. cbn [_properties set_properties].
    rewrite lookup_insert_eq.
    unfold IPCInterface_getProperty, mbind, load, ret. cbn [interfaces].
    rewrite lookup_insert_eq. cbn [_properties set_properties].
    rewrite lookup_insert_eq. cbn [property set_property readable].
    rewrite Hg. now destruct (readable p). }
  split; [| split; reflexivity].
  unfold stored_property. cbn [interfaces]. rewrite lookup_insert_eq. simpl.
  now rewrite lookup_insert_eq.
Qed.

(** The read-only [pid] of the registered device, written and read over
    the bus. *)
Lemma property_written_over_the_bus_reads_back_witness :
  exists w',
    gdbus_set_property open_bus "/pizza/pixl/logiops/device/0"
      "pizza.pixl.logiops.Device" "pid" (GV_uint16 5) None
      (Some the_server) world_device
    = (w', Ok (true, Some (G_DBUS_ERROR_ACCESS_DENIED, "Property not writable"))) /\
    gdbus_get_property open_bus "/pizza/pixl/logiops/device/0"
      "pizza.pixl.logiops.Device" "pid" None (Some the_server) w'
    = (w', Ok (Some (GV_uint16 5), None)).
Proof.
  destruct (property_written_over_the_bus_reads_back open_bus world_device
              "/pizza/pixl/logiops/device/0" "pizza.pixl.logiops.Device" "pid"
              {| interface := 1; registrationId := 1;
                 info := _makeInterfaceInfo sample_device |}
              (set_server sample_device (Some the_server))
              {| property := sample_pid; ptype := type_of_string "q";
                 readable := true; writable := false |}
              (GV_uint16 5) (value_of (IPCVariant_uint16 5) IPCVariant_default))
    as (w' & Hset & Hget & _); [reflexivity.. |].
  exists w'. split; assumption.
Defined.

(** ** Method calls *)

(** X24: what [gdbus_method_call] answers when the call cannot be
    dispatched.  With a null server it logs a line and answers Failed; for
    an object path that is not registered it answers UnknownObject, for an
    interface name that is not registered at the path UnknownInterface, for
    a method that the interface does not have UnknownMethod, and for
    parameters that are not as many as the method declares InvalidArgs.
    Apart from the log line nothing changes, and no handler is invoked. *)
Theorem method_call_lookup_failures (glib : GLib)
    (check : GVariant -> string -> bool) (w : World glib)
    (path iname mname : string) (parameters : GVariant) :
  gdbus_method_call glib check path iname mname parameters None w
  = (logged w DEBUG "Ignoring gdbus_method_call on null IPCServer.",
     Ok (return_error G_DBUS_ERROR_FAILED "null IPCServer")) /\
  (_nodes (server w) !! path = None ->
   gdbus_method_call glib check path iname mname parameters (Some the_server) w
   = (w, Ok (return_error G_DBUS_ERROR_UNKNOWN_OBJECT "Unknown object"))) /\
  (forall entry i, registered w path iname = Some entry ->
   interfaces w !! interface entry = Some i ->
   (_functions i !! mname = None ->
    gdbus_method_call glib check path iname mname parameters (Some the_server) w
    = (w, Ok (return_error G_DBUS_ERROR_UNKNOWN_METHOD "Unknown method"))) /\
   (forall f n, _functions i !! mname = Some f ->
    g_variant_n_children parameters = Ok n ->
    n <> length (args f) ->
    gdbus_method_call glib check path iname mname parameters (Some the_server) w
    = (w, Ok (return_error G_DBUS_ERROR_INVALID_ARGS "Invalid argument")))) /\
  (forall names, _nodes (server w) !! path = Some names -> names !! iname = None ->
   gdbus_method_call glib check path iname mname parameters (Some the_server) w
   = (w, Ok (return_error G_DBUS_ERROR_UNKNOWN_INTERFACE "Unknown interface"))).
Proof.
  unfold gdbus_method_call, mbind, get_server, load, ret, lift, logPrintf, logged.
  split; [reflexivity |]. split.
  { now intros ->. }
  split.
  - intros entry i Hreg Hi. unfold registered in Hreg.
    destruct (_nodes (server w) !! path) as [names |]; [| discriminate Hreg].
    simpl in Hreg. rewrite Hreg, Hi. split.
    + now intros ->.
    + intros f n -> -> Hn. apply Nat.eqb_neq in Hn. now rewrite Hn.
  - intros names -> ->. reflexivity.
Qed.

(** The arguments of a well-formed call, translated in order. *)
Lemma translate_args_ok (check : GVariant -> string -> bool) (gs : list GVariant)
    (declared : IPCArgsInfo) (i : nat) (acc args_ : IPCFunctionArgs) :
  Forall (fun d => check (GV_tuple gs) (c_str (typeSignature (snd d))) = false)
    declared ->
  length (skipn i gs) = length declared ->
  Forall2 (fun g a => translateGVariant g = Ok a) (skipn i gs) args_ ->
  translate_args check (GV_tuple gs) declared i acc = Ok (Some (acc ++ args_)%list).
Proof.
  revert i acc args_. induction declared as [| d declared IH];
    intros i acc args_ Hcheck Hlen Htr.
  - destruct (skipn i gs); [| discriminate Hlen].
    inversion Htr; subst. now rewrite app_nil_r.
  - destruct (skipn i gs) as [| g rest] eqn:Hskip; [discriminate Hlen |].
    inversion Htr as [| ? a ? args' Hg Hrest]; subst.
    inversion Hcheck as [| ? ? Hd Hcheck']; subst.
    cbn [translate_args g_variant_get_child_value].
    assert (Hnth : nth_error gs i = Some g).
    { rewrite <- (firstn_skipn i gs) at 1. rewrite Hskip.
      rewrite nth_error_app2 by (rewrite length_firstn; lia).
      rewrite length_firstn.
      assert (i < length gs)%nat.
      { destruct (le_lt_dec (length gs) i) as [Hle |]; [| assumption].
        rewrite skipn_all2 in Hskip by exact Hle. discriminate Hskip. }
      replace (i - Nat.min i (length gs))%nat with 0%nat by lia. reflexivity. }
    rewrite Hnth. cbn [bind]. rewrite Hd, Hg. cbn [bind].
    assert (Hskip' : skipn (S i) gs = rest).
    { replace (S i) with (1 + i)%nat by reflexivity.
      rewrite <- skipn_skipn, Hskip. reflexivity. }
    rewrite (IH (S i) (acc ++ [a])%list args').
    + now rewrite <- app_assoc.
    + exact Hcheck'.
    + rewrite Hskip'. now injection Hlen.
    + now rewrite Hskip'.
Qed.

(** X25: [gdbus_method_call] answers for the handler and contains what it
    throws.  For a method of a registered interface, called with as many
    parameters as it declares, each of which translates to a Variant (and
    with the format check answering false for every declared argument), the
    handler is invoked on the translated arguments.  An empty response is
    answered with no value, a non-empty one with the tuple of its wire
    forms.  An exception of the handler does not leave the callback: it
    is logged as an error and answered with Failed and the text
    ["Internal error: "] followed by [what()]. *)
Theorem method_call_answers_for_the_handler (glib : GLib)
    (check : GVariant -> string -> bool) (w : World glib)
    (path iname mname : string) (entry : Interface) (i : IPCInterface)
    (f : IPCFunction) (gs : list GVariant) (args_ : IPCFunctionArgs) :
  registered w path iname = Some entry ->
  interfaces w !! interface entry = Some i ->
  _functions i !! mname = Some f ->
  length gs = length (args f) ->
  Forall (fun d => check (GV_tuple gs) (c_str (typeSignature (snd d))) = false)
    (args f) ->
  Forall2 (fun g a => translateGVariant g = Ok a) gs args_ ->
  gdbus_method_call glib check path iname mname (GV_tuple gs) (Some the_server) w
  = match function f args_ with
    | Ok [] => (w, Ok (return_value None))
    | Ok response =>
        (w, gstruct <- toGVariant_each glib response ;;
            Ok (return_value (Some (GV_tuple gstruct))))
    | Throw e =>
        (logged w ERROR
           ("Error calling IPC function " ++ path ++ ":" ++ iname ++ ":" ++ mname
            ++ " - " ++ c_str (what e)),
         Ok (return_error G_DBUS_ERROR_FAILED ("Internal error: " ++ c_str (what e))))
    | Fault fault_ => (w, Fault fault_)
    end.
Proof.
  intros Hreg Hi Hf Hlen Hcheck Htr.
  unfold gdbus_method_call, mbind at 1, get_server.
  unfold registered in Hreg.
  destruct (_nodes (server w) !! path) as [names |]; [| discriminate Hreg].
  simpl in Hreg. rewrite Hreg. unfold mbind at 1, load. rewrite Hi, Hf.
  unfold mbind at 1, lift. cbn [g_variant_n_children]. rewrite Hlen, Nat.eqb_refl.
  cbn [negb].
  rewrite (translate_args_ok check gs (args f) 0 [] args_ Hcheck Hlen Htr).
  cbn [app].
  destruct (function f args_) as [[| r response] | e | fault_]; try reflexivity.
  unfold mbind, lift, ret.
  destruct (toGVariant_each glib (r :: response)); reflexivity.
Qed.

(** [setDPI] of the sample device reads its uint16 argument as a uint32:
    the InvalidType that this throws is logged and answered; and
    [reconfigure], which takes nothing and returns nothing. *)
Lemma method_call_answers_for_the_handler_witness :
  gdbus_method_call open_bus sample_check "/pizza/pixl/logiops/device/0"
    "pizza.pixl.logiops.Device" "setDPI" (GV_tuple [GV_uint16 800])
    (Some the_server) world_device
  = (logged world_device ERROR
       "Error calling IPC function /pizza/pixl/logiops/device/0:pizza.pixl.logiops.Device:setDPI - Invalid type",
     Ok (return_error G_DBUS_ERROR_FAILED "Internal error: Invalid type")) /\
  gdbus_method_call open_bus sample_check "/pizza/pixl/logiops/device/0"
    "pizza.pixl.logiops.Device" "reconfigure" (GV_tuple [])
    (Some the_server) world_device
  = (world_device, Ok (return_value None)).
Proof.
  split.
  - rewrite (method_call_answers_for_the_handler open_bus sample_check world_device
               "/pizza/pixl/logiops/device/0" "pizza.pixl.logiops.Device" "setDPI"
               {| interface := 1; registrationId := 1;
                  info := _makeInterfaceInfo sample_device |}
               (set_server sample_device (Some the_server)) sample_setDPI
               [GV_uint16 800] [sample_dpi]);
      [reflexivity | reflexivity | reflexivity | reflexivity | reflexivity
      | repeat constructor | repeat constructor].
  - rewrite (method_call_answers_for_the_handler open_bus sample_check world_device
               "/pizza/pixl/logiops/device/0" "pizza.pixl.logiops.Device"
               "reconfigure"
               {| interface := 1; registrationId := 1;
                  info := _makeInterfaceInfo sample_device |}
               (set_server sample_device (Some the_server)) sample_reconfigure
               [] []);
      [reflexivity | reflexivity | reflexivity | reflexivity | reflexivity
      | constructor | constructor].
Defined.

(** X26: [gdbus_method_call] rejects parameters that do not fit.  For a
    method of a registered interface called with the declared number of
    parameters, each of which either translates or makes the translation
    throw InvalidType: if the format check answers true for some declared
    argument, or the translation of some parameter throws InvalidType, the
    call is answered with InvalidArgs, the handler is not invoked and
    nothing changes. *)
Theorem method_call_rejects_arguments (glib : GLib)
    (check : GVariant -> string -> bool) (w : World glib)
    (path iname mname : string) (entry : Interface) (i : IPCInterface)
    (f : IPCFunction) (gs : list GVariant) :
  registered w path iname = Some entry ->
  interfaces w !! interface entry = Some i ->
  _functions i !! mname = Some f ->
  length gs = length (args f) ->
  Forall (fun g => settled (translateGVariant g)) gs ->
  Exists (fun d => check (GV_tuple gs) (c_str (typeSignature (snd d))) = true)
    (args f) \/
  Exists (fun g => raises_InvalidType (translateGVariant g)) gs ->
  gdbus_method_call glib check path iname mname (GV_tuple gs) (Some the_server) w
  = (w, Ok (return_error G_DBUS_ERROR_INVALID_ARGS "Invalid argument")).
Proof.
  intros Hreg Hi Hf Hlen Hset Hbad.
  unfold gdbus_method_call, mbind at 1, get_server.
  unfold registered in Hreg.
  destruct (_nodes (server w) !! path) as [names |]; [| discriminate Hreg].
  simpl in Hreg. rewrite Hreg. unfold mbind at 1, load. rewrite Hi, Hf.
  unfold mbind at 1, lift. cbn [g_variant_n_children]. rewrite Hlen, Nat.eqb_refl.
  cbn [negb].
  assert (Hargs : translate_args check (GV_tuple gs) (args f) 0 [] = Ok None \/
                  raises_InvalidType (translate_args check (GV_tuple gs) (args f) 0 [])).
  { assert (Hgen : forall declared k acc,
              length (skipn k gs) = length declared ->
              Exists (fun d => check (GV_tuple gs) (c_str (typeSignature (snd d)))
                               = true) declared \/
              Exists (fun g => raises_InvalidType (translateGVariant g)) (skipn k gs) ->
              translate_args check (GV_tuple gs) declared k acc = Ok None \/
              raises_InvalidType (translate_args check (GV_tuple gs) declared k acc)).
    { induction declared as [| d declared IH]; intros k acc Hl Hex.
      - destruct (skipn k gs); [| discriminate Hl].
        destruct Hex as [Hex | Hex]; inversion Hex.
      - destruct (skipn k gs) as [| g rest] eqn:Hskip; [discriminate Hl |].
        assert (Hnth : nth_error gs k = Some g).
        { rewrite <- (firstn_skipn k gs) at 1. rewrite Hskip.
          rewrite nth_error_app2 by (rewrite length_firstn; lia).
          rewrite length_firstn.
          assert (k < length gs)%nat.
          { destruct (le_lt_dec (length gs) k) as [Hle |]; [| assumption].
            rewrite skipn_all2 in Hskip by exact Hle. discriminate Hskip. }
          replace (k - Nat.min k (length gs))%nat with 0%nat by lia. reflexivity. }
        assert (Hskip' : skipn (S k) gs = rest).
        { replace (S k) with (1 + k)%nat by reflexivity.
          rewrite <- skipn_skipn, Hskip. reflexivity. }
        cbn [translate_args g_variant_get_child_value]. rewrite Hnth. cbn [bind].
        destruct (check (GV_tuple gs) (c_str (typeSignature (snd d)))) eqn:Hd;
          [now left |].
        assert (Hg : settled (translateGVariant g)).
        { rewrite Forall_forall in Hset. apply Hset, list_elem_of_In.
          eapply nth_error_In. exact Hnth. }
        destruct Hg as [[a Ha] | [what_ Ha]]; rewrite Ha; cbn [bind].
        + apply IH.
          * rewrite Hskip'. now injection Hl.
          * rewrite Hskip'. destruct Hex as [Hex | Hex].
            -- left. inversion Hex as [? ? Hc | ? ? Hc]; subst; [congruence | exact Hc].
            -- right. inversion Hex as [? ? Hc | ? ? Hc]; subst; [| exact Hc].
               destruct Hc as [x Hx]. congruence.
        + right. now exists what_. }
    apply Hgen; assumption. }
  destruct Hargs as [-> | [what_ ->]]; reflexivity.
Qed.

(** [setDPI] called with a file handle, which has no Variant. *)
Lemma method_call_rejects_arguments_witness :
  gdbus_method_call open_bus sample_check "/pizza/pixl/logiops/device/0"
    "pizza.pixl.logiops.Device" "setDPI" (GV_tuple [GV_handle 3])
    (Some the_server) world_device
  = (world_device, Ok (return_error G_DBUS_ERROR_INVALID_ARGS "Invalid argument")).
Proof.
  apply (method_call_rejects_arguments open_bus sample_check world_device
           "/pizza/pixl/logiops/device/0" "pizza.pixl.logiops.Device" "setDPI"
           {| interface := 1; registrationId := 1;
              info := _makeInterfaceInfo sample_device |}
           (set_server sample_device (Some the_server)) sample_setDPI
           [GV_handle 3]);
    [reflexivity | reflexivity | reflexivity | reflexivity | |].
  - constructor; [right; eexists; reflexivity | constructor].
  - right. constructor. eexists. reflexivity.
Defined.

(** ** The device interface *)

(** [emitSignal] touches neither the interface objects nor the log nor the
    registry. *)
Lemma emitSignal_keeps_interfaces (glib : GLib) (w : World glib) (this : nat)
    (signal : string) (args_ : IPCFunctionArgs) :
  interfaces (fst (IPCInterface_emitSignal glib this signal args_ w)) = interfaces w /\
  log (fst (IPCInterface_emitSignal glib this signal args_ w)) = log w /\
  _nodes (server (fst (IPCInterface_emitSignal glib this signal args_ w)))
  = _nodes (server w).
Proof.
  unfold IPCInterface_emitSignal, IPCServer_emitSignal, mbind, load, get_server,
    put_server, ret, lift.
  repeat first
    [ progress cbn [fst snd interfaces log server _nodes]
    | match goal with
      | |- context [match ?x with _ => _ end] => destruct x
      end ];
  repeat split.
Qed.

(** X27: [Device::IPC::sleep] and [wakeup] set the [asleep] property
    whatever becomes of the signal.  On an interface whose [asleep]
    property holds a Boolean, [sleep] leaves the property at true and a
    following [wakeup] leaves it at false, with its type, its declared type
    and its flags unchanged and every other property untouched; this holds
    also when the signal is refused or the broadcast fails, since the
    assignment comes first.  Unbound to a server both return normally and
    leave server and log alone; bound to one, with [sleep] declared without
    arguments, [sleep] returns normally when the transport accepts the
    broadcast and throws [std::runtime_error] when it does not.  On an
    interface without the property, [sleep] creates a default entry for
    it and throws InvalidType. *)
Theorem sleep_and_wakeup_set_the_asleep_property (glib : GLib) (w : World glib)
    (this : nat) (i : IPCInterface) :
  interfaces w !! this = Some i ->
  let w1 := fst (Device_IPC_sleep glib this w) in
  let w2 := fst (Device_IPC_wakeup glib this w1) in
  (forall p, _properties i !! "asleep" = Some p ->
             primaryType (type (property p)) = Ty.Boolean ->
   (exists v1, stored_property w1 this "asleep" = Some (set_property p v1) /\
               as_bool v1 = Ok true /\ type v1 = type (property p)) /\
   (exists v2, stored_property w2 this "asleep" = Some (set_property p v2) /\
               as_bool v2 = Ok false /\ type v2 = type (property p)) /\
   (forall other, other <> "asleep" ->
                  stored_property w2 this other = stored_property w this other) /\
   (_server i = None ->
    Device_IPC_sleep glib this w = (w1, Ok tt) /\
    Device_IPC_wakeup glib this w1 = (w2, Ok tt) /\
    server w2 = server w /\ log w2 = log w) /\
   (forall srv, _server i = Some srv -> _signals i !! "sleep" = Some [] ->
    snd (Device_IPC_sleep glib this w)
    = if snd (g_dbus_connection_emit_signal glib (_connection (server w))
                (c_str (_node i)) (c_str (_name i)) "sleep" None)
      then Ok tt else Throw (runtime_error "signal broadcast failed"))) /\
  (_properties i !! "asleep" = None ->
   snd (Device_IPC_sleep glib this w) = Throw InvalidType0 /\
   stored_property w1 this "asleep" = Some IPCProperty_default).
Proof.
  intros Hi w1 w2. split.
  - intros p Hp Hk.
    assert (Hk' : Ty.eqb (primaryType (_type (property p))) Ty.Boolean = true).
    { apply Ty_eqb_eq. exact Hk. }
    set (i1 := set_properties
                 (set_properties i (<["asleep" := p]> (_properties i)))
                 (<["asleep" := set_property p (set_num_data (property p) (uint64_t 1))]>
                    (_properties (set_properties i (<["asleep" := p]> (_properties i)))))).
    set (wa := {| interfaces := <[this := i1]>
                    (<[this := set_properties i (<["asleep" := p]> (_properties i))]>
                       (interfaces w));
                  server := server w; log := log w |}).
    assert (Hs : Device_IPC_sleep glib this w
                 = IPCInterface_emitSignal glib this "sleep" [] wa).
    { unfold Device_IPC_sleep, mbind, load, store, lift. rewrite Hi, Hp.
      change (default IPCProperty_default (Some p)) with p.
      unfold assign_bool, NUM_TYPE_assign. rewrite Hk'. reflexivity. }
    assert (Hw1 : interfaces w1 = interfaces wa).
    { unfold w1. rewrite Hs. apply emitSignal_keeps_interfaces. }
    assert (Hi1 : interfaces w1 !! this = Some i1).
    { rewrite Hw1. cbn [interfaces wa]. apply lookup_insert_eq. }
    assert (Hp1 : _properties i1 !! "asleep"
                  = Some (set_property p (set_num_data (property p) (uint64_t 1)))).
    { cbn [i1 _properties set_properties]. apply lookup_insert_eq. }
    set (p1 := set_property p (set_num_data (property p) (uint64_t 1))) in *.
    set (i2 := set_properties
                 (set_properties i1 (<["asleep" := p1]> (_properties i1)))
                 (<["asleep" := set_property p1 (set_num_data (property p1) (uint64_t 0))]>
                    (_properties (set_properties i1 (<["asleep" := p1]> (_properties i1)))))).
    set (wb := {| interfaces := <[this := i2]>
                    (<[this := set_properties i1 (<["asleep" := p1]> (_properties i1))]>
                       (interfaces w1));
                  server := server w1; log := log w1 |}).
    assert (Hwk : Device_IPC_wakeup glib this w1
                  = IPCInterface_emitSignal glib this "wakeup" [] wb).
    { unfold Device_IPC_wakeup, mbind, load, store, lift. rewrite Hi1, Hp1.
      change (default IPCProperty_default (Some p1)) with p1.
      unfold assign_bool, NUM_TYPE_assign.
      cbn [p1 property set_property set_num_data _type]. rewrite Hk'. reflexivity. }
    assert (Hw2 : interfaces w2 = interfaces wb).
    { unfold w2. rewrite Hwk. apply emitSignal_keeps_interfaces. }
    split.
    { exists (set_num_data (property p) (uint64_t 1)).
      unfold stored_property. rewrite Hi1. simpl. rewrite lookup_insert_eq.
      split; [reflexivity |]. split; [| reflexivity].
      unfold as_bool. cbn [set_num_data _type _num_data]. rewrite Hk'. reflexivity. }
    split.
    { exists (set_num_data (property p) (uint64_t 0)).
      unfold stored_property. rewrite Hw2. cbn [interfaces wb].
      rewrite lookup_insert_eq. simpl. rewrite lookup_insert_eq.
      split; [reflexivity |]. split; [| reflexivity].
      unfold as_bool. cbn [set_num_data _type _num_data]. rewrite Hk'. reflexivity. }
    split.
    { intros other Hne. unfold stored_property. rewrite Hw2. cbn [interfaces wb].
      rewrite lookup_insert_eq, Hi. simpl.
      rewrite !lookup_insert_ne by congruence. reflexivity. }
    split.
    { intros Hsrv.
    assert (Ha : IPCInterface_emitSignal glib this "sleep" [] wa = (wa, Ok tt)).
    { unfold IPCInterface_emitSignal, mbind, load. cbn [interfaces wa].
      rewrite lookup_insert_eq. cbn [i1 _server set_properties]. now rewrite Hsrv. }
    assert (Hw1' : w1 = wa) by (unfold w1; now rewrite Hs, Ha).
    assert (Hb : IPCInterface_emitSignal glib this "wakeup" [] wb = (wb, Ok tt)).
    { unfold IPCInterface_emitSignal, mbind, load. cbn [interfaces wb].
      rewrite lookup_insert_eq. cbn [i2 i1 _server set_properties]. now rewrite Hsrv. }
    assert (Hw2' : w2 = wb) by (unfold w2; now rewrite Hwk, Hb).
    split; [now rewrite Hs, Ha, Hw1' |].
    split; [now rewrite Hwk, Hb, Hw2' |].
    rewrite Hw2'. cbn [server log wb]. rewrite Hw1'. split; reflexivity. }
    intros srv Hsrv Hsig. rewrite Hs.
    unfold IPCInterface_emitSignal, mbind at 1, load. cbn [interfaces wa].
    rewrite lookup_insert_eq. cbn [i1 _server _signals set_properties].
    rewrite Hsrv, Hsig. cbn [length Nat.eqb negb check_signal_args].
    unfold mbind at 1, lift.
    unfold IPCServer_emitSignal, mbind, lift, load, get_server, put_server, ret.
    cbn [interfaces wa server]. rewrite lookup_insert_eq.
    unfold i1. cbn [_node _name set_properties _connection].
    change (c_str "sleep") with "sleep".
    match goal with |- context [negb ?b] => destruct b end; reflexivity.
  - intros Hp. subst w1.
    unfold Device_IPC_sleep, mbind, load, store, lift. rewrite Hi, Hp.
    change (default IPCProperty_default None) with IPCProperty_default.
    change (assign_bool (property IPCProperty_default) true)
      with (@Throw IPCVariant InvalidType0).
    split; [reflexivity |].
    unfold stored_property. cbn [fst interfaces]. rewrite lookup_insert_eq. simpl.
    now rewrite lookup_insert_eq.
Qed.

(** The sample device, asleep. *)
Lemma sleep_and_wakeup_set_the_asleep_property_witness :
  exists v1,
    stored_property (fst (Device_IPC_sleep open_bus 1 world_device_unregistered))
      1 "asleep"
    = Some {| property := v1; ptype := type_of_string "b";
              readable := true; writable := false |} /\
    as_bool v1 = Ok true.
Proof.
  destruct (proj1 (sleep_and_wakeup_set_the_asleep_property open_bus
                     world_device_unregistered 1 sample_device eq_refl)
              {| property := value_of (IPCVariant_bool false) IPCVariant_default;
                 ptype := type_of_string "b";
                 readable := true; writable := false |} eq_refl eq_refl)
    as ((v1 & H1 & H2 & _) & _).
  exists v1. split; assumption.
Defined.

(** ** The closest DPI *)

Lemma max_element_from_spec (l : list Z) (a : Z) :
  is_largest (max_element_from a l) (a :: l).
Proof.
  revert a. induction l as [| x l IH]; intros a; cbn [max_element_from].
  - split; [now left |]. intros y [<- | []]. lia.
  - destruct (IH (if (a <? x)%Z then x else a)) as [Hin Hmax]. split.
    + destruct Hin as [Hin | Hin]; [| now right; right].
      rewrite <- Hin. destruct (a <? x)%Z; [right; now left | now left].
    + intros y Hy.
      assert (Hm : ((if (a <? x)%Z then x else a) <= max_element_from
                      (if (a <? x)%Z then x else a) l)%Z) by (apply Hmax; now left).
      destruct Hy as [<- | [<- | Hy]].
      * destruct (a <? x)%Z eqn:E; [apply Z.ltb_lt in E |]; lia.
      * destruct (a <? x)%Z eqn:E; [| apply Z.ltb_ge in E]; lia.
      * apply Hmax. now right.
Qed.

Lemma min_element_from_spec (l : list Z) (a : Z) :
  is_smallest (min_element_from Z.ltb a l) (a :: l).
Proof.
  revert a. induction l as [| x l IH]; intros a; cbn [min_element_from].
  - split; [now left |]. intros y [<- | []]. lia.
  - destruct (IH (if (x <? a)%Z then x else a)) as [Hin Hmin]. split.
    + destruct Hin as [Hin | Hin]; [| now right; right].
      rewrite <- Hin. destruct (x <? a)%Z; [right; now left | now left].
    + intros y Hy.
      assert (Hm : (min_element_from Z.ltb (if (x <? a)%Z then x else a) l
                    <= (if (x <? a)%Z then x else a))%Z) by (apply Hmin; now left).
      destruct Hy as [<- | [<- | Hy]].
      * destruct (x <? a)%Z eqn:E; [apply Z.ltb_lt in E |]; lia.
      * destruct (x <? a)%Z eqn:E; [| apply Z.ltb_ge in E]; lia.
      * apply Hmin. now right.
Qed.

Lemma min_element_by_distance (dpi : Z) (l : list Z) (a : Z) :
  min_element_from (fun a b => (dpi - a <? dpi - b)%Z) a l = max_element_from a l.
Proof.
  revert a. induction l as [| x l IH]; intros a; [reflexivity |].
  cbn [min_element_from max_element_from].
  replace (dpi - x <? dpi - a)%Z with (a <? x)%Z; [apply IH |].
  destruct (a <? x)%Z eqn:E; symmetry.
  - apply Z.ltb_lt in E. apply Z.ltb_lt. lia.
  - apply Z.ltb_ge in E. apply Z.ltb_ge. lia.
Qed.

Lemma largest_unique (l : list Z) (a b : Z) :
  is_largest a l -> is_largest b l -> a = b.
Proof. intros [Ha Ha'] [Hb Hb']. specialize (Ha' b Hb). specialize (Hb' a Ha). lia. Qed.

Lemma smallest_unique (l : list Z) (a b : Z) :
  is_smallest a l -> is_smallest b l -> a = b.
Proof. intros [Ha Ha'] [Hb Hb']. specialize (Ha' b Hb). specialize (Hb' a Ha). lia. Qed.

Lemma existsb_eqb_In (x : Z) (l : list Z) : existsb (Z.eqb x) l = true <-> In x l.
Proof.
  rewrite existsb_exists. split.
  - intros (y & Hy & E). apply Z.eqb_eq in E. now subst.
  - intros H. exists x. split; [exact H | apply Z.eqb_refl].
Qed.

(** X28: for a sensor that lists its DPI values, [getClosestDPI] returns
    the requested value when the list has it, 0 when the list is empty, and
    otherwise the largest value of the list, however far it is from the
    request: the comparison [(dpi - a) < (dpi - b)] that the search
    minimises is smallest for the largest element. *)
Theorem getClosestDPI_of_a_list (dpi_list : SensorDPIList) (dpi : Z) :
  isRange dpi_list = false ->
  (In dpi (dpis dpi_list) -> getClosestDPI dpi_list dpi = Some dpi) /\
  (dpis dpi_list = [] -> getClosestDPI dpi_list dpi = Some 0%Z) /\
  (forall m, ~ In dpi (dpis dpi_list) -> is_largest m (dpis dpi_list) ->
             getClosestDPI dpi_list dpi = Some m).
Proof.
  intros Hr. unfold getClosestDPI. rewrite Hr.
  repeat match goal with |- _ /\ _ => split end.
  - intros Hin. apply existsb_eqb_In in Hin. now rewrite Hin.
  - intros ->. reflexivity.
  - intros m Hnot Hm.
    destruct (existsb (Z.eqb dpi) (dpis dpi_list)) eqn:E.
    { apply existsb_eqb_In in E. contradiction. }
    destruct (dpis dpi_list) as [| a l]; [destruct Hm as [[] _] |].
    cbn [min_element]. rewrite min_element_by_distance. f_equal.
    apply (largest_unique (a :: l)); [apply max_element_from_spec | exact Hm].
Qed.

(** Of 400, 800 and 1600 the value chosen for a request of 500 is 1600. *)
Lemma getClosestDPI_of_a_list_witness :
  getClosestDPI sample_dpi_list 800 = Some 800%Z /\
  getClosestDPI sample_dpi_list 500 = Some 1600%Z.
Proof.
  split.
  - destruct (getClosestDPI_of_a_list sample_dpi_list 800 eq_refl)
      as (Hin & _ & _).
    apply Hin. right. left. reflexivity.
  - destruct (getClosestDPI_of_a_list sample_dpi_list 500 eq_refl)
      as (_ & _ & Hfar).
    apply Hfar.
    + intros [H | [H | [H | []]]]; discriminate H.
    + split; [right; right; left; reflexivity |].
      intros x [<- | [<- | [<- | []]]]; lia.
Defined.

(** X29: for a sensor that gives a range with a step, [getClosestDPI]
    returns the requested value when it lies in the range and is a whole
    number of steps above the lower end, the upper end for a request above
    the range and the lower end for one below it; here the lower and upper
    end are the smallest and the largest listed value, and the step is not
    0. *)
Theorem getClosestDPI_of_a_range (dpi_list : SensorDPIList) (dpi lo hi : Z) :
  isRange dpi_list = true ->
  is_smallest lo (dpis dpi_list) ->
  is_largest hi (dpis dpi_list) ->
  dpiStep dpi_list <> 0%Z ->
  ((lo <= dpi <= hi)%Z -> (dpiStep dpi_list | dpi - lo)%Z ->
   getClosestDPI dpi_list dpi = Some dpi) /\
  ((hi < dpi)%Z -> getClosestDPI dpi_list dpi = Some hi) /\
  ((dpi < lo)%Z -> getClosestDPI dpi_list dpi = Some lo).
Proof.
  intros Hr Hlo Hhi Hstep. unfold getClosestDPI. rewrite Hr.
  assert (Hle : (lo <= hi)%Z) by (apply Hhi, Hlo).
  destruct (dpis dpi_list) as [| a l] eqn:Hd; [destruct Hlo as [[] _] |].
  cbn [min_element max_element].
  rewrite (smallest_unique (a :: l) _ lo (min_element_from_spec l a) Hlo).
  rewrite (largest_unique (a :: l) _ hi (max_element_from_spec l a) Hhi).
  apply Z.eqb_neq in Hstep. rewrite Hstep.
  repeat match goal with |- _ /\ _ => split end.
  - intros [H1 H2] Hdiv.
    apply Z.leb_le in H1, H2. rewrite H1, H2.
    assert (Hrem : Z.rem (dpi - lo) (dpiStep dpi_list) = 0%Z).
    { apply Z.rem_divide; [now apply Z.eqb_neq | exact Hdiv]. }
    rewrite Hrem. reflexivity.
  - intros H. 
    replace (dpi <=? hi)%Z with false by (symmetry; apply Z.leb_gt; lia).
    rewrite andb_false_r.
    replace (hi <? dpi)%Z with true by (symmetry; apply Z.ltb_lt; lia).
    reflexivity.
  - intros H.
    replace (lo <=? dpi)%Z with false by (symmetry; apply Z.leb_gt; lia).
    rewrite andb_false_r. cbn [andb].
    replace (hi <? dpi)%Z with false by (symmetry; apply Z.ltb_ge; lia).
    replace (dpi <? lo)%Z with true by (symmetry; apply Z.ltb_lt; lia).
    reflexivity.
Qed.

(** The range from 200 to 4000 in steps of 50. *)
Lemma getClosestDPI_of_a_range_witness :
  getClosestDPI sample_dpi_range 1000 = Some 1000%Z /\
  getClosestDPI sample_dpi_range 5000 = Some 4000%Z /\
  getClosestDPI sample_dpi_range 3 = Some 200%Z.
Proof.
  assert (Hlo : is_smallest 200 (dpis sample_dpi_range)).
  { split; [cbn; tauto |]. cbn. intros x [<- | [<- | []]]; lia. }
  assert (Hhi : is_largest 4000 (dpis sample_dpi_range)).
  { split; [cbn; tauto |]. cbn. intros x [<- | [<- | []]]; lia. }
  assert (Hstep : dpiStep sample_dpi_range <> 0%Z) by discriminate.
  split; [| split].
  - destruct (getClosestDPI_of_a_range sample_dpi_range 1000 200 4000 eq_refl
                Hlo Hhi Hstep) as (Hin & _ & _).
    apply Hin; [lia |]. exists 16%Z. reflexivity.
  - destruct (getClosestDPI_of_a_range sample_dpi_range 5000 200 4000 eq_refl
                Hlo Hhi Hstep) as (_ & Habove & _).
    apply Habove. lia.
  - destruct (getClosestDPI_of_a_range sample_dpi_range 3 200 4000 eq_refl
                Hlo Hhi Hstep) as (_ & _ & Hbelow).
    apply Hbelow. lia.
Defined.

(** ** Device ids *)

Lemma increasing_tail (a : Z) (l : list Z) :
  increasing (a :: l) = true -> increasing l = true.
Proof.
  destruct l as [| b l]; [reflexivity |].
  change (increasing (a :: b :: l)) with ((a <? b)%Z && increasing (b :: l)).
  intros H. now apply andb_true_iff in H.
Qed.

Lemma increasing_head (a : Z) (l : list Z) :
  increasing (a :: l) = true -> forall x, In x l -> (a < x)%Z.
Proof.
  revert a. induction l as [| b l IH]; intros a H x Hx; [destruct Hx |].
  change (increasing (a :: b :: l)) with ((a <? b)%Z && increasing (b :: l)) in H.
  apply andb_true_iff in H. destruct H as [Hab Hl].
  apply Z.ltb_lt in Hab. destruct Hx as [<- | Hx]; [exact Hab |].
  specialize (IH b Hl x Hx). lia.
Qed.

Lemma set_insert_spec (x : Z) (s : list Z) :
  increasing s = true ->
  increasing (set_insert x s) = true /\
  forall y, In y (set_insert x s) <-> y = x \/ In y s.
Proof.
  induction s as [| a s IH]; intros Hs.
  - split; [reflexivity |]. intros y. cbn. intuition congruence.
  - cbn [set_insert]. destruct (x <? a)%Z eqn:Hxa.
    + split.
      * change (increasing (x :: a :: s)) with ((x <? a)%Z && increasing (a :: s)).
        rewrite Hxa. exact Hs.
      * intros y. cbn. intuition congruence.
    + destruct (x =? a)%Z eqn:Hxa'.
      * apply Z.eqb_eq in Hxa'. subst a. split; [exact Hs |].
        intros y. cbn. intuition congruence.
      * apply Z.ltb_ge in Hxa. apply Z.eqb_neq in Hxa'.
        destruct (IH (increasing_tail a s Hs)) as [Hinc Hin]. split.
        -- destruct (set_insert x s) as [| b t] eqn:Hins; [reflexivity |].
           change (increasing (a :: b :: t))
             with ((a <? b)%Z && increasing (b :: t)).
           rewrite Hinc, andb_true_r. apply Z.ltb_lt.
           assert (Hb : In b (b :: t)) by now left.
           apply Hin in Hb. destruct Hb as [-> | Hb]; [lia |].
           exact (increasing_head a s Hs b Hb).
        -- intros y. cbn [In]. rewrite Hin. intuition congruence.
Qed.

Lemma set_erase_insert (x : Z) (s : list Z) :
  increasing s = true -> ~ In x s -> set_erase x (set_insert x s) = s.
Proof.
  induction s as [| a s IH]; intros Hs Hx.
  - cbn. now rewrite Z.eqb_refl.
  - cbn [set_insert]. destruct (x <? a)%Z eqn:Hxa.
    + cbn [set_erase]. now rewrite Z.eqb_refl.
    + destruct (x =? a)%Z eqn:Hxa'.
      * apply Z.eqb_eq in Hxa'. subst a. exfalso. apply Hx. now left.
      * cbn [set_erase]. rewrite Hxa'. f_equal.
        apply IH; [exact (increasing_tail a s Hs) |].
        intros H. apply Hx. now right.
Qed.

Lemma adjacent_find_gap (a0 : Z) (l : list Z) :
  increasing (a0 :: l) = true ->
  match adjacent_find (fun a b => negb (a + 1 =? b)%Z) (a0 :: l) with
  | Some a =>
      In a (a0 :: l) /\ ~ In (a + 1)%Z (a0 :: l) /\
      forall j, (a0 <= j <= a)%Z -> In j (a0 :: l)
  | None =>
      (forall x, In x (a0 :: l) -> (x <= List.last (a0 :: l) 0)%Z) /\
      forall j, (a0 <= j <= List.last (a0 :: l) 0)%Z -> In j (a0 :: l)
  end.
Proof.
  revert a0. induction l as [| b l IH]; intros a0 Hs.
  - cbn. split; [intros x [<- | []]; lia |]. intros j Hj. left. lia.
  - pose proof (increasing_head a0 (b :: l) Hs) as Hhead.
    pose proof (increasing_tail a0 (b :: l) Hs) as Htail.
    match goal with
    | |- context [adjacent_find ?p (a0 :: b :: l)] =>
        change (adjacent_find p (a0 :: b :: l))
          with (if p a0 b then Some a0 else adjacent_find p (b :: l))
    end.
    cbv beta. destruct (a0 + 1 =? b)%Z eqn:Hab; cbn [negb].
    + apply Z.eqb_eq in Hab. specialize (IH b Htail).
      destruct (adjacent_find _ (b :: l)) as [a |].
      * destruct IH as (Hin & Hnot & Hall). split; [now right |]. split.
        -- intros H. destruct H as [H | H]; [| contradiction].
           assert (b <= a)%Z.
           { destruct Hin as [<- | Hin]; [lia |].
             pose proof (increasing_head b l Htail a Hin). lia. }
           lia.
        -- intros j Hj. destruct (Z.eq_dec j a0) as [-> | Hne]; [now left |].
           right. apply Hall. lia.
      * destruct IH as (Hmax & Hall).
        change (List.last (a0 :: b :: l) 0%Z) with (List.last (b :: l) 0%Z).
        split.
        -- intros x [<- | Hx]; [| now apply Hmax].
           assert (b <= List.last (b :: l) 0)%Z by (apply Hmax; now left). lia.
        -- intros j Hj. destruct (Z.eq_dec j a0) as [-> | Hne]; [now left |].
           right. apply Hall. lia.
    + apply Z.eqb_neq in Hab. split; [now left |]. split.
      * intros H. destruct H as [H | H]; [lia |].
        assert (a0 < b)%Z by (apply Hhead; now left).
        destruct H as [H | H]; [lia |].
        pose proof (increasing_head b l Htail _ H). lia.
      * intros j Hj. left. lia.
Qed.

(** X30: [newDeviceId] hands out the least free id.  On a set of ids, the
    id chosen is not in the set and the set afterwards is the old one with
    the id added; when no id in the set is negative, the id chosen is not
    negative either and every smaller non-negative number is in use, so an
    id that was dropped is the next one to be reused; and [dropDeviceId] of
    the id restores the set. *)
Theorem newDeviceId_is_the_least_free_id (_device_ids : list Z) :
  increasing _device_ids = true ->
  let id := fst (newDeviceId _device_ids) in
  let ids := snd (newDeviceId _device_ids) in
  ~ In id _device_ids /\
  increasing ids = true /\
  (forall x, In x ids <-> x = id \/ In x _device_ids) /\
  ((forall x, In x _device_ids -> (0 <= x)%Z) ->
   (0 <= id)%Z /\ forall j, (0 <= j < id)%Z -> In j _device_ids) /\
  dropDeviceId id ids = _device_ids.
Proof.
  intros Hs id ids.
  assert (Hfresh : ~ In id _device_ids /\
                   ((forall x, In x _device_ids -> (0 <= x)%Z) ->
                    (0 <= id)%Z /\ forall j, (0 <= j < id)%Z -> In j _device_ids)).
  { subst id ids. unfold newDeviceId. cbn [fst].
    destruct _device_ids as [| a0 l]; [split; [intros [] | intros _; split; [lia |]; lia] |].
    destruct (0 <? a0)%Z eqn:H0.
    - apply Z.ltb_lt in H0. split.
      + intros H. destruct H as [H | H]; [lia |].
        pose proof (increasing_head a0 l Hs _ H). lia.
      + intros _. split; [lia |]. lia.
    - apply Z.ltb_ge in H0. pose proof (adjacent_find_gap a0 l Hs) as Hgap.
      destruct (adjacent_find _ (a0 :: l)) as [a |].
      + destruct Hgap as (Hin & Hnot & Hall). split; [exact Hnot |].
        intros Hpos. assert (a0 = 0%Z) by (specialize (Hpos a0 (or_introl eq_refl)); lia).
        subst a0. split.
        * specialize (Hpos a Hin). lia.
        * intros j Hj. apply Hall. lia.
      + destruct Hgap as (Hmax & Hall). split.
        * intros H. specialize (Hmax _ H). lia.
        * intros Hpos.
          assert (a0 = 0%Z) by (specialize (Hpos a0 (or_introl eq_refl)); lia).
          subst a0.
          assert (0 <= List.last (0 :: l) 0)%Z by (apply Hmax; now left).
          split; [lia |]. intros j Hj. apply Hall. lia. }
  destruct Hfresh as [Hnot Hleast].
  destruct (set_insert_spec id _device_ids Hs) as [Hinc Hin].
  split; [exact Hnot |]. split; [exact Hinc |]. split; [exact Hin |].
  split; [exact Hleast |].
  apply set_erase_insert; assumption.
Qed.

(** With the ids 0, 1, 3 and 4 in use the next id is 2. *)
Lemma newDeviceId_is_the_least_free_id_witness :
  fst (newDeviceId [0; 1; 3; 4]%Z) = 2%Z /\
  ~ In (fst (newDeviceId [0; 1; 3; 4]%Z)) [0; 1; 3; 4]%Z /\
  dropDeviceId (fst (newDeviceId [0; 1; 3; 4]%Z)) (snd (newDeviceId [0; 1; 3; 4]%Z))
  = [0; 1; 3; 4]%Z.
Proof.
  split; [reflexivity |].
  destruct (newDeviceId_is_the_least_free_id [0; 1; 3; 4]%Z eq_refl)
    as (Hfresh & _ & _ & _ & Hdrop).
  split; [exact Hfresh | exact Hdrop].
Defined.
